(** * storyblok-fast-client: a shallow embedding and its verified properties

    The development follows [src/storyblok-fast-client.ts] (two revisions of
    the class [SbFastClient]) and [utils.ts]:

    - the Backoff Retrier      [promiseWithRetry]
    - the Bulk Scheduler       [processPromisesInBulks]
    - the Paginated Fetcher    [fetchAdditionalStories], [fetchStories],
                               [fetchMarketStories]
    - the Dictionary Builder   [createReferencedStoriesDictionary]
    - the whole-tree resolver  [resolveRelationsForStory], [replaceUUIDs]
    - the declared-field resolver [findComponents], [resolveNestedComponents]

    Part I holds the model, Part II the theorems. *)

From Stdlib Require Import ZArith Lia String Ascii List DecimalString.
From stdpp Require Import gmap strings list fin_maps.

Set Warnings "-register-all".

Local Open Scope Z_scope.
Local Open Scope nat_scope.

(* ===================================================================== *)
(** * Part I: the model                                                    *)
(* ===================================================================== *)

(** ** Thrown values and results *)

(** What a JavaScript [throw] carries in this program: a primitive string
    ([throw 'Too Many Requests']) or an [Error] object with its [name] and
    [message]. *)
Inductive exn : Type :=
  | ExnString (s : string)
  | ExnError (name message : string).

(** [`${err}`]: a string is itself, an [Error] prints as
    [Error.prototype.toString] does. *)
Definition exn_to_string (e : exn) : string :=
  match e with
  | ExnString s => s
  | ExnError name message =>
      if String.eqb message "" then name
      else if String.eqb name "" then message
      else name +:+ ": " +:+ message
  end.

(** [new Error(msg)] and the [TypeError] the runtime raises. *)
Definition new_Error (message : string) : exn := ExnError "Error" message.
Definition TypeError (message : string) : exn := ExnError "TypeError" message.

(** The outcome of running a piece of the program.
    - [Ok a]: it returned (an async function: its promise fulfilled with) [a];
    - [Throw e]: it threw (its promise rejected with) [e];
    - [Diverge]: no outcome: the fuel of the run is used up, or an awaited
      operation never settles. A run that is [Diverge] for every fuel is a
      run that never returns (in JavaScript: unbounded recursion);
    - [Unsupported]: the input leaves the fragment of JavaScript modelled
      here (each place says which). *)
Inductive result (A : Type) : Type :=
  | Ok (a : A)
  | Throw (e : exn)
  | Diverge
  | Unsupported.
Arguments Ok {A} a.
Arguments Throw {A} e.
Arguments Diverge {A}.
Arguments Unsupported {A}.

Definition bind {A B : Type} (m : result A) (k : A → result B) : result B :=
  match m with
  | Ok a => k a
  | Throw e => Throw e
  | Diverge => Diverge
  | Unsupported => Unsupported
  end.

Notation "'do' x <- m ; k" := (bind m (λ x, k))
  (at level 10, x pattern, m at level 100, k at level 200).

(** A loop over a snapshot of a list, threading a state: [for (const x of xs)]. *)
Fixpoint foldM {A S : Type} (body : S → A → result S) (xs : list A) (s : S)
  : result S :=
  match xs with
  | [] => Ok s
  | x :: xs' => do s' <- body s x; foldM body xs' s'
  end.

(** Console output, as far as the claims speak of it. *)
Inductive log_entry : Type :=
  | ConsoleError (label : string) (reason : exn)   (* console.error(label, reason) *)
  | ConsoleLogExn (e : exn)                        (* console.log(err) *)
  | ConsoleLog (text : string).                    (* console.log(text) *)

(** ** The Backoff Retrier: [promiseWithRetry] *)

(** What a run of the retrier does besides computing its result. *)
Inductive retry_event : Type :=
  | Invoke                 (* promiseFunction() *)
  | Sleep (ms : Z).        (* await new Promise(r => setTimeout(r, delay)) *)

Definition max_retries_reached : exn := new_Error "Max retries reached".

Section Retrier.
Context {T : Type}.

(** The wrapped operation is an oracle: [promiseFunction i] is how its
    invocation number [i] (from 0) settles. [retries] is a natural number
    (the call sites pass 5); [delay] and the multiplier are integers.

    [[
    let attempts = 0;
    while (attempts < retries) {
      try { return await promiseFunction(); }
      catch (error) {
        attempts++;
        if (attempts < retries) { await sleep(delay); delay *= delayMultiplier; }
      }
    }
    throw new Error('Max retries reached');
    ]]
    Every iteration that does not return raises [attempts] by one, so
    [attempts] is also the number of invocations made so far. *)
Fixpoint retry_loop (fuel : nat) (promiseFunction : nat → result T)
    (retries attempts : nat) (delay delayMultiplier : Z)
    (tr : list retry_event) : result T * list retry_event :=
  match fuel with
  | 0 => (Diverge, tr)
  | S fuel' =>
      if attempts <? retries then
        match promiseFunction attempts with
        | Ok v => (Ok v, tr ++ [Invoke])
        | Throw _ =>
            let attempts' := S attempts in
            if attempts' <? retries then
              retry_loop fuel' promiseFunction retries attempts'
                (delay * delayMultiplier)%Z delayMultiplier
                (tr ++ [Invoke; Sleep delay])
            else
              retry_loop fuel' promiseFunction retries attempts'
                delay delayMultiplier (tr ++ [Invoke])
        | Diverge => (Diverge, tr ++ [Invoke])
        | Unsupported => (Unsupported, tr ++ [Invoke])
        end
      else (Throw max_retries_reached, tr)
  end.

Definition promiseWithRetry (promiseFunction : nat → result T)
    (retries : nat) (delay delayMultiplier : Z)
  : result T * list retry_event :=
  retry_loop (S retries) promiseFunction retries 0 delay delayMultiplier [].

End Retrier.

(** Reading a trace. *)
Definition invocations (tr : list retry_event) : nat :=
  length (omap (λ ev, match ev with Invoke => Some tt | Sleep _ => None end) tr).

Definition sleeps (tr : list retry_event) : list Z :=
  omap (λ ev, match ev with Sleep ms => Some ms | Invoke => None end) tr.

(** The schedule the specification gives for an operation that always
    fails: attempt [i] (from 0), then a pause of
    [initialDelay * multiplier ^ i] unless it was the last attempt. *)
Definition retry_schedule (maxAttempts : nat) (initialDelay multiplier : Z)
  : list retry_event :=
  flat_map
    (λ i, Invoke ::
          (if S i <? maxAttempts
           then [Sleep (initialDelay * multiplier ^ Z.of_nat i)%Z]
           else []))
    (seq 0 maxAttempts).

(** The part of the schedule from attempt [a] on. *)
Definition schedule_from (n : nat) (d m : Z) (a : nat) : list retry_event :=
  flat_map
    (λ i, Invoke :: (if S i <? n then [Sleep (d * m ^ Z.of_nat i)%Z] else []))
    (seq a (n - a)).

(** ** The Bulk Scheduler: [processPromisesInBulks] *)

Section Scheduler.
Context {T : Type}.

Definition is_diverge (r : result (list T)) : bool :=
  match r with Diverge => true | _ => false end.

Definition is_unsupported (r : result (list T)) : bool :=
  match r with Unsupported => true | _ => false end.

(** [this.promiseWithRetry(func, maxRetries, initialBackoff, delayMultiplier)]
    as a member of a bulk: how the promise settles. *)
Definition retried (maxRetries : nat) (initialBackoff delayMultiplier : Z)
    (func : nat → result (list T)) : result (list T) :=
  (promiseWithRetry func maxRetries initialBackoff delayMultiplier).1.

(** [bulkResults.forEach(result => ...)]: a fulfilled member's array is
    spread onto [results], a rejected member is logged. The members'
    results are arrays ([fetchAdditionalStories] returns one). *)
Definition collect (acc : list T * list log_entry) (r : result (list T))
  : list T * list log_entry :=
  match r with
  | Ok value => (acc.1 ++ value, acc.2)
  | Throw reason => (acc.1, acc.2 ++ [ConsoleError "Failed to fetch:" reason])
  | _ => acc
  end.

(** [[
    for (let i = 0; i < promisesFuncs.length; i += bulkSize) {
      const bulk = promisesFuncs.slice(i, i + bulkSize);
      const bulkResults = await Promise.allSettled(
        bulk.map(func => this.promiseWithRetry(func, maxRetries, ...)));
      bulkResults.forEach(...);
    }
    return results;
    ]]
    Each member is an oracle of its own: how its invocations settle does
    not depend on the interleaving with the other members of its bulk.
    [Promise.allSettled] keeps the members' order and never settles when
    one of them never does. *)
Fixpoint bulks_loop (fuel : nat) (promisesFuncs : list (nat → result (list T)))
    (bulkSize maxRetries : nat) (initialBackoff delayMultiplier : Z)
    (i : nat) (acc : list T * list log_entry)
  : result (list T) * list log_entry :=
  match fuel with
  | 0 => (Diverge, acc.2)
  | S fuel' =>
      if i <? length promisesFuncs then
        let bulk := take bulkSize (drop i promisesFuncs) in
        let bulkResults :=
          map (retried maxRetries initialBackoff delayMultiplier) bulk in
        if existsb is_diverge bulkResults then (Diverge, acc.2)
        else if existsb is_unsupported bulkResults then (Unsupported, acc.2)
        else
          bulks_loop fuel' promisesFuncs bulkSize maxRetries initialBackoff
            delayMultiplier (i + bulkSize) (fold_left collect bulkResults acc)
      else (Ok acc.1, acc.2)
  end.

(** The loop makes at most [promisesFuncs.length] rounds when
    [bulkSize > 0]; with [bulkSize = 0] and a non-empty list the
    JavaScript loop never ends, and the fuel runs out. *)
Definition processPromisesInBulks (promisesFuncs : list (nat → result (list T)))
    (bulkSize maxRetries : nat) (initialBackoff delayMultiplier : Z)
  : result (list T) * list log_entry :=
  bulks_loop (S (length promisesFuncs)) promisesFuncs bulkSize maxRetries
    initialBackoff delayMultiplier 0 ([], []).

(** An operation settles under the retrier: it ends fulfilled or rejected. *)
Definition settles (r : result (list T)) : Prop :=
  match r with Ok _ | Throw _ => True | Diverge | Unsupported => False end.

Definition successes (r : result (list T)) : list T :=
  match r with Ok value => value | _ => [] end.

Definition failures (r : result (list T)) : list log_entry :=
  match r with
  | Throw reason => [ConsoleError "Failed to fetch:" reason]
  | _ => []
  end.

End Scheduler.


(** ** JavaScript values *)

(** Primitive values. Numbers are the integers (what JSON ids and counts
    are); fractions, [NaN] and the infinities are outside the model. *)
Inductive prim : Type :=
  | PUndef
  | PNull
  | PBool (b : bool)
  | PNum (n : Z)
  | PStr (s : string).

(** A value as [JSON.parse] delivers it and as a function that builds fresh
    objects returns it: a finite tree. [fields] lists an object's own
    properties in enumeration order, each key once. *)
Inductive tree : Type :=
  | TPrim (p : prim)
  | TArr (items : list tree)
  | TObj (fields : list (string * tree)).

(** [ToBoolean]. *)
Definition prim_truthy (p : prim) : bool :=
  match p with
  | PUndef | PNull => false
  | PBool b => b
  | PNum n => negb (n =? 0)%Z
  | PStr s => negb (String.eqb s "")
  end.

(** [ToString] of a primitive, which is also how it reads as a property key. *)
Definition prim_to_string (p : prim) : string :=
  match p with
  | PUndef => "undefined"
  | PNull => "null"
  | PBool true => "true"
  | PBool false => "false"
  | PNum n => NilZero.string_of_int (Z.to_int n)
  | PStr s => s
  end.

(** ** [parseInt] *)

(** The white space [parseInt] skips, among the characters below 128. *)
Definition is_js_space (c : ascii) : bool :=
  let n := nat_of_ascii c in
  ((9 <=? n) && (n <=? 13)) || (n =? 32).

Fixpoint skip_spaces (s : string) : string :=
  match s with
  | String c s' => if is_js_space c then skip_spaces s' else s
  | EmptyString => s
  end.

Definition digit_value (c : ascii) : option Z :=
  let n := nat_of_ascii c in
  if (48 <=? n) && (n <=? 57) then Some (Z.of_nat (n - 48))
  else if (97 <=? n) && (n <=? 122) then Some (Z.of_nat (n - 87))
  else if (65 <=? n) && (n <=? 90) then Some (Z.of_nat (n - 55))
  else None.

(** The longest prefix of digits of the radix; [None] when it is empty. *)
Fixpoint digits_prefix (radix : Z) (s : string) (acc : option Z) : option Z :=
  match s with
  | String c s' =>
      match digit_value c with
      | Some d =>
          if (d <? radix)%Z
          then digits_prefix radix s' (Some (default 0 acc * radix + d))%Z
          else acc
      | None => acc
      end
  | EmptyString => acc
  end.

(** [parseInt(s)] with no radix; [None] is [NaN]. Values beyond 2^53 lose
    no precision here, as they would in JavaScript. *)
Definition parseInt (s : string) : option Z :=
  let s := skip_spaces s in
  let '(sign, s) :=
    match s with
    | String "-" s' => ((-1)%Z, s')
    | String "+" s' => (1%Z, s')
    | _ => (1%Z, s)
    end in
  let '(radix, s) :=
    match s with
    | String "0" (String "x" s') => (16%Z, s')
    | String "0" (String "X" s') => (16%Z, s')
    | _ => (10%Z, s)
    end in
  (λ n, sign * n)%Z <$> digits_prefix radix s None.

(** [x || 0] on a number: [NaN] and 0 give 0. *)
Definition or_zero (n : option Z) : Z := default 0%Z n.

(** [Math.ceil(total / per_page)] on integers, [per_page] not 0 (the one
    call site passes 25). *)
Definition ceil_div (total per_page : Z) : Z := (- ((- total) / per_page))%Z.

(** ** The Paginated Fetcher *)

(** A response of the collection endpoint, as far as the fetcher reads it:
    the [total] header ([headers.get('total')], [None] when absent) and the
    body's [stories] ([None] when the field is absent or null; an array
    otherwise). *)
Record response : Type := Response {
  header_total : option string;
  body_stories : option (list tree)
}.

(** The transport is an oracle: [request page i] is how the [i]-th request
    (from 0) for that page settles, [fetch] and [res.json()] together;
    [page = None] is the first request, which carries no page parameter. *)
Definition transport : Type := option Z → nat → result response.

(** [[
    const data = await res.json();
    const stories = data.stories ?? [];
    return stories.length ? stories : [];
    ]] *)
Definition fetchAdditionalStories (request : transport) (page : Z)
  : nat → result (list tree) :=
  λ i, do res <- request (Some page) i; Ok (default [] (body_stories res)).

(** [[
    const total = parseInt(firstResponse.headers.get('total') ?? '0') || 0;
    let totalPages = Math.ceil(total / per_page);
    ]] *)
Definition totalPages (header : option string) (per_page : Z) : Z :=
  ceil_div (or_zero (parseInt (default "0" header))) per_page.

(** [for (let page = 2; page <= totalPages; page++)]: the pages an operation
    is queued for. *)
Definition additional_page_numbers_of (count : nat) : list Z :=
  map (λ k, (2 + Z.of_nat k)%Z) (seq 0 count).

Definition additional_page_numbers (total_pages : Z) : list Z :=
  additional_page_numbers_of (Z.to_nat (total_pages - 1)).

Definition is_array (t : tree) : bool :=
  match t with TArr _ => true | _ => false end.

(** [Array.prototype.flat()], one level. *)
Definition flat (xs : list tree) : list tree :=
  flat_map (λ x, match x with TArr items => items | _ => [x] end) xs.

(** [`Failed to fetch to fetch stories: ${error}`] *)
Definition fetch_failed (e : exn) : exn :=
  new_Error ("Failed to fetch to fetch stories: " +:+ exn_to_string e).

(** [fetchStories({ per_page, language, cv })]: the whole body stands in one
    [try]; whatever it throws is wrapped in a new [Error]. The timing line
    it logs is left out. *)
Definition fetchStories (request : transport) (per_page : Z)
  : result (list tree) * list log_entry :=
  match request None 0 with
  | Ok firstResponse =>
      let total_pages := totalPages (header_total firstResponse) per_page in
      let allStories := default [] (body_stories firstResponse) in
      let additionalPages :=
        map (fetchAdditionalStories request)
            (additional_page_numbers total_pages) in
      match processPromisesInBulks additionalPages 20 5 1000 2 with
      | (Ok additionalStories, log) =>
          (Ok (allStories ++ flat additionalStories), log)
      | (Throw e, log) => (Throw (fetch_failed e), log)
      | (Diverge, log) => (Diverge, log)
      | (Unsupported, log) => (Unsupported, log)
      end
  | Throw e => (Throw (fetch_failed e), [])
  | Diverge => (Diverge, [])
  | Unsupported => (Unsupported, [])
  end.

(** *** The outer retry: [fetchMarketStories] *)

Inductive market_event : Type :=
  | Attempt                       (* await this.fetchStories(params): page 1 first *)
  | Logged (entry : log_entry)
  | Pause (ms : Z).

(** [err === 'Too Many Requests']: strict equality with a string literal
    holds for that primitive string only. *)
Definition is_too_many_requests (err : exn) : bool :=
  match err with
  | ExnString s => String.eqb s "Too Many Requests"
  | ExnError _ _ => false
  end.

Definition market_failed (err : exn) : exn :=
  new_Error ("[DATALAYER] Error in fetchMarketStories: " +:+ exn_to_string err).

Definition market_exhausted : exn :=
  new_Error "[DATALAYER] Error in fetchMarketStories: Maximum retry attempts exceeded".

(** What one recognised failure adds to the trace. *)
Definition too_many_round (err : exn) : list market_event :=
  [Attempt; Logged (ConsoleLogExn err);
   Logged (ConsoleLog "Too many requests, waiting for 10 seconds...");
   Pause 10000].

(** [retries < retryAttempts], the right side possibly [NaN]. *)
Definition below (retries : nat) (retryAttempts : option Z) : bool :=
  match retryAttempts with
  | Some n => (Z.of_nat retries <? n)%Z
  | None => false
  end.

Section Market.
Context {T : Type}.

(** [[
    for (let retries = 0; retries < retryAttempts; retries++) {
      try { return await this.fetchStories(params); }
      catch (err) {
        console.log(err);
        if (err === 'Too Many Requests') {
          console.log('Too many requests, waiting for 10 seconds...');
          await new Promise(resolve => setTimeout(resolve, 10000));
        } else {
          throw new Error(`[DATALAYER] Error in fetchMarketStories: ${err}`);
        }
      }
    }
    throw new Error('... Maximum retry attempts exceeded');
    ]]
    [attempt k] is how the [k]-th call of [this.fetchStories] settles. *)
Fixpoint market_loop (fuel : nat) (attempt : nat → result T)
    (retryAttempts : option Z) (retries : nat) (tr : list market_event)
  : result T * list market_event :=
  match fuel with
  | 0 => (Diverge, tr)
  | S fuel' =>
      if below retries retryAttempts then
        match attempt retries with
        | Ok stories => (Ok stories, tr ++ [Attempt])
        | Throw err =>
            if is_too_many_requests err then
              market_loop fuel' attempt retryAttempts (S retries)
                (tr ++ too_many_round err)
            else
              (Throw (market_failed err),
               tr ++ [Attempt; Logged (ConsoleLogExn err)])
        | Diverge => (Diverge, tr ++ [Attempt])
        | Unsupported => (Unsupported, tr ++ [Attempt])
        end
      else (Throw market_exhausted, tr)
  end.

(** [parseInt(process.env.SB_DATALAYER_RETRY ?? '5')] *)
Definition retryAttempts_of (SB_DATALAYER_RETRY : option string) : option Z :=
  parseInt (default "5" SB_DATALAYER_RETRY).

Definition fetchMarketStories (SB_DATALAYER_RETRY : option string)
    (attempt : nat → result T) : result T * list market_event :=
  let retryAttempts := retryAttempts_of SB_DATALAYER_RETRY in
  market_loop (S (Z.to_nat (or_zero retryAttempts))) attempt retryAttempts 0 [].

End Market.

(** The fetcher as the driver runs it: attempt [k] of a market is
    [fetchStories] at page size 25 over the transport of that attempt. *)
Definition fetchMarket (SB_DATALAYER_RETRY : option string)
    (request : nat → transport) : result (list tree) * list market_event :=
  fetchMarketStories SB_DATALAYER_RETRY (λ k, (fetchStories (request k) 25).1).

(** The pauses of a market run. *)
Definition pauses (tr : list market_event) : list Z :=
  omap (λ ev, match ev with Pause ms => Some ms | _ => None end) tr.

Definition attempts_made (tr : list market_event) : nat :=
  length (omap (λ ev, match ev with Attempt => Some tt | _ => None end) tr).

(** ** Test doubles and example inputs *)

(** Five operations; the third one fails for good, the fourth succeeds at
    its third invocation. *)
Definition five_ops : list (nat → result (list nat)) :=
  [ (λ _, Ok [10; 11]); (λ _, Ok [20]);
    (λ _, Throw (ExnString "503"));
    (λ i, if i <? 2 then Throw (ExnString "reset") else Ok [40; 41]);
    (λ _, Ok [50]) ].

(** A collection endpoint that serves [entries] in pages of [per_page] and
    never fails: the first request and [page = 1] give the first page;
    every response carries the header [total]. *)
Definition paged_server (total : string) (entries : list tree) (per_page : nat)
  : transport :=
  λ page _,
    let p := match page with Some p => Z.to_nat p | None => 1 end in
    Ok (Response (Some total) (Some (take per_page (drop ((p - 1) * per_page) entries)))).

(** The same endpoint with one page that fails at every request. *)
Definition server_with_dead_page (dead : Z) (total : string)
    (entries : list tree) (per_page : nat) : transport :=
  λ page i,
    if decide (page = Some dead) then Throw (ExnError "TypeError" "fetch failed")
    else paged_server total entries per_page page i.

(** [n] entries [{ id: 0 }], [{ id: 1 }], ... *)
Definition numbered_entries (n : nat) : list tree :=
  map (λ k, TObj [("id", TPrim (PNum (Z.of_nat k)))]) (seq 0 n).

(** The recognised signal, and [k] rounds of failing with it. *)
Definition too_many_requests : exn := ExnString "Too Many Requests".

Definition rounds (k : nat) : list market_event :=
  concat (replicate k (too_many_round too_many_requests)).

(** A market whose first two attempts are turned away. *)
Definition busy_twice : nat → result (list nat) :=
  λ k, if k <? 2 then Throw too_many_requests else Ok [7; 8; 9].

(** ** Objects that are mutated in place: the heap *)

(** The resolvers assign into the objects they are given, and the
    dictionary holds the very objects of the story list: a reference is an
    address, and the heap maps addresses to arrays and plain objects. An
    object's [fields] are its own properties in enumeration order, each key
    once. *)
Abbreviation addr := nat (only parsing).

Inductive val : Type :=
  | VPrim (p : prim)
  | VRef (a : addr).

Inductive hobj : Type :=
  | HArr (elems : list val)
  | HObj (fields : list (string * val)).

Abbreviation heap := (list hobj).

Definition undefined : val := VPrim PUndef.
Definition str (s : string) : val := VPrim (PStr s).

(** [v == null] *)
Definition nullish (v : val) : bool :=
  match v with VPrim PUndef | VPrim PNull => true | _ => false end.

(** [v === null] *)
Definition is_null (v : val) : bool :=
  match v with VPrim PNull => true | _ => false end.

Definition truthy (v : val) : bool :=
  match v with VPrim p => prim_truthy p | VRef _ => true end.

(** The key of element [i] of an array: ["0"], ["1"], ... *)
Definition index_key (i : nat) : string :=
  NilEmpty.string_of_uint (Nat.to_uint i).

(** A key that is an array index in canonical form: ["0"], or digits
    with no leading zero. (JavaScript also asks for a value below
    2^32 - 1; no key of that size occurs here.) *)
Definition array_index (k : string) : option nat :=
  match NilEmpty.uint_of_string k with
  | Some u =>
      let i := Nat.of_uint u in
      if String.eqb (index_key i) k then Some i else None
  | None => None
  end.

Fixpoint assoc {V : Type} (k : string) (fs : list (string * V)) : option V :=
  match fs with
  | [] => None
  | (k', v) :: fs' => if String.eqb k' k then Some v else assoc k fs'
  end.

(** Does [k] come before the key [k'] when [k] is new? Index keys come
    first, in ascending order; the other keys follow in insertion order. *)
Definition key_before (k k' : string) : bool :=
  match array_index k, array_index k' with
  | Some i, Some i' => i <? i'
  | Some _, None => true
  | None, _ => false
  end.

(** [o[k] = v] on the own properties of a plain object: an existing key
    keeps its place, a new one goes where the enumeration order puts it. *)
Fixpoint obj_put {V : Type} (k : string) (v : V) (fs : list (string * V))
  : list (string * V) :=
  match fs with
  | [] => [(k, v)]
  | (k', v') :: fs' =>
      if String.eqb k' k then (k, v) :: fs'
      else if key_before k k' && negb (existsb (λ kv, String.eqb kv.1 k) fs')
      then (k, v) :: (k', v') :: fs'
      else (k', v') :: obj_put k v fs'
  end.

Definition chars (s : string) : list string :=
  map (λ c, String c EmptyString) (list_ascii_of_string s).

(** [Object.keys(v)], which throws a [TypeError] on [null] and
    [undefined]; the keys of a string are its indices. *)
Definition keys_of (h : heap) (v : val) : result (list string) :=
  match v with
  | VPrim PUndef | VPrim PNull =>
      Throw (TypeError "Cannot convert undefined or null to object")
  | VPrim (PStr s) => Ok (map index_key (seq 0 (String.length s)))
  | VPrim _ => Ok []
  | VRef a =>
      match h !! a with
      | Some (HArr elems) => Ok (map index_key (seq 0 (length elems)))
      | Some (HObj fields) => Ok (map fst fields)
      | None => Unsupported        (* a dangling address *)
      end
  end.

(** [v[k]] for [v] not null or undefined. Own properties only: [length]
    and what the prototypes add read as [undefined]. *)
Definition get_prop (h : heap) (v : val) (k : string) : val :=
  match v with
  | VRef a =>
      match h !! a with
      | Some (HArr elems) =>
          default undefined (array_index k ≫= λ i, elems !! i)
      | Some (HObj fields) => default undefined (assoc k fields)
      | None => undefined
      end
  | VPrim (PStr s) =>
      default undefined (array_index k ≫= λ i, str <$> chars s !! i)
  | VPrim _ => undefined
  end.

(** [k in Object(v)], own properties. *)
Definition has_prop (h : heap) (v : val) (k : string) : bool :=
  match keys_of h v with
  | Ok keys => existsb (String.eqb k) keys
  | _ => false
  end.

(** [Object.entries(v)] *)
Definition entries_of (h : heap) (v : val) : result (list (string * val)) :=
  do keys <- keys_of h v; Ok (map (λ k, (k, get_prop h v k)) keys).

(** [target[k] = x] in strict mode (class bodies are strict). Assigning
    into a primitive throws. Arrays are assigned at existing indices only;
    anything else on an array is outside the model. *)
Definition set_prop (h : heap) (target : val) (k : string) (x : val)
  : result heap :=
  match target with
  | VRef a =>
      match h !! a with
      | Some (HObj fields) => Ok (<[a := HObj (obj_put k x fields)]> h)
      | Some (HArr elems) =>
          match array_index k with
          | Some i =>
              if i <? length elems then Ok (<[a := HArr (<[i := x]> elems)]> h)
              else Unsupported
          | None => Unsupported
          end
      | None => Unsupported
      end
  | VPrim _ => Throw (TypeError "Cannot create property on a primitive")
  end.

(** A fresh object. *)
Definition alloc (h : heap) (o : hobj) : heap * val :=
  (h ++ [o], VRef (length h)).

Definition is_array_ref (h : heap) (v : val) : bool :=
  match v with
  | VRef a => match h !! a with Some (HArr _) => true | _ => false end
  | VPrim _ => false
  end.

Definition is_string (v : val) : bool :=
  match v with VPrim (PStr _) => true | _ => false end.

(** A value used as a property key. An array as a key would be joined
    ([Array.prototype.toString]); that is outside the model. *)
Definition to_key (h : heap) (v : val) : result string :=
  match v with
  | VPrim p => Ok (prim_to_string p)
  | VRef a =>
      match h !! a with
      | Some (HObj _) => Ok "[object Object]"
      | _ => Unsupported
      end
  end.

(** [dictionary[v]] for a primitive [v]. The dictionary is a plain object
    used as a map; its own properties are a finite map from keys to
    values. A lookup of one of the names that [Object.prototype] adds
    (["constructor"], ["toString"], ...) would find a function there; the
    heap holds arrays and plain objects only, and the model of the two
    resolvers on the heap covers the stories none of whose values is such
    a name. ([replaceUUIDs] below, which works on trees, is modelled with
    the inherited members.) *)
Definition dict_get (dictionary : gmap string val) (p : prim) : val :=
  default undefined (dictionary !! prim_to_string p).

(** ** The Dictionary Builder: [createReferencedStoriesDictionary] *)

(** [story.uuid] as a key: reading a property of [null] or [undefined]
    throws. *)
Definition story_key (h : heap) (story : val) : result string :=
  if nullish story
  then Throw (TypeError "Cannot read properties of null (reading 'uuid')")
  else to_key h (get_prop h story "uuid").

(** [[
    return stories.reduce((acc, story) => {
      acc[story.uuid] = story;
      return acc;
    }, {});
    ]]
    The heap is read, never written: the function returns a dictionary
    only, whose values are the elements of [stories] themselves. *)
Definition reduce_stories (h : heap) (stories : list val)
    (acc : gmap string val) : result (gmap string val) :=
  foldM (λ acc story, do k <- story_key h story; Ok (<[k := story]> acc))
        stories acc.

Definition createReferencedStoriesDictionary (h : heap) (stories : list val)
  : result (gmap string val) :=
  reduce_stories h stories ∅.

(** The entries of [stories] that bear the identifier [id]. *)
Definition bearing (h : heap) (id : string) (stories : list val) : list val :=
  List.filter
    (λ story, match story_key h story with
              | Ok k => String.eqb k id
              | _ => false
              end)
    stories.

(** ** The whole-tree resolver: [resolveRelationsForStory] *)

(** [k === 'uuid' || k === '_uid'] *)
Definition is_reserved (k : string) : bool :=
  String.eqb k "uuid" || String.eqb k "_uid".

Section WholeTree.
Variable dictionary : gmap string val.
(** The keys the loop passes over: [is_reserved] in the current revision,
    none in the earlier one. *)
Variable skip : string → bool.
(** The recursive call [this.resolveRelationsForStory(_, dictionary)];
    it returns its argument, so only the heap it leaves is passed on. *)
Variable recur : heap → val → result heap.

(** The callback of [v.map(...)], run at index [i] of the array at [a];
    [st] is the heap and the elements of the new array so far. *)
Definition map_item (a : val) (st : heap * list val) (i : nat)
  : result (heap * list val) :=
  let item := get_prop st.1 a (index_key i) in
  match item with
  | VRef _ => do h' <- recur st.1 item; Ok (h', st.2 ++ [item])
  | VPrim p =>
      let hit := dict_get dictionary p in
      Ok (st.1, st.2 ++ [if truthy hit then hit else item])
  end.

(** The body of [for (const [k, v] of Object.entries(story))]. *)
Definition resolve_entry (story : val) (h : heap) (kv : string * val)
  : result heap :=
  let '(k, v) := kv in
  if is_null v || skip k then Ok h
  else
    match v with
    | VRef a =>
        match h !! a with
        | Some (HArr elems) =>
            do st <- foldM (map_item v) (seq 0 (length elems)) (h, []);
            let '(h', fresh) := alloc st.1 (HArr st.2) in
            set_prop h' story k fresh
        | Some (HObj _) =>
            do h' <- recur h v;
            set_prop h' story k v
        | None => Unsupported
        end
    | VPrim p =>
        let hit := dict_get dictionary p in
        if truthy hit then
          do h' <- set_prop h story k hit;
          recur h' hit
        else Ok h
    end.

End WholeTree.

(** [[
    for (const [k, v] of Object.entries(story)) {
      if (v !== null && k !== 'uuid' && k !== '_uid') {   // current revision
        if (Array.isArray(v)) { story[k] = v.map(item => ...); }
        else if (typeof v === 'object') {
          story[k] = this.resolveRelationsForStory(v, dictionary);
        } else if (dictionary[v]) {
          story[k] = dictionary[v];
          this.resolveRelationsForStory(story[k], dictionary);
        }
      }
    }
    return story;
    ]]
    One unit of fuel per call: [Diverge] for every fuel is unbounded
    recursion. *)
Fixpoint resolveRelationsForStory_with (skip : string → bool) (fuel : nat)
    (dictionary : gmap string val) (h : heap) (story : val) : result heap :=
  match fuel with
  | 0 => Diverge
  | S fuel' =>
      do entries <- entries_of h story;
      foldM (resolve_entry dictionary skip
               (resolveRelationsForStory_with skip fuel' dictionary) story)
            entries h
  end.

(** The current revision: the two identifier keys are passed over. *)
Definition resolveRelationsForStory :=
  resolveRelationsForStory_with is_reserved.

(** The earlier revision: [if (v !== null)] alone. *)
Definition resolveRelationsForStory_legacy :=
  resolveRelationsForStory_with (λ _, false).

(** What the own property [k] of the plain object at [a] holds. *)
Definition own_field (h : heap) (a : addr) (k : string) : option val :=
  match h !! a with
  | Some (HObj fields) => assoc k fields
  | _ => None
  end.

(** Two entries that refer to each other:
    [A = { uuid: "A", content: { ref: "B" } }],
    [B = { uuid: "B", content: { ref: "A" } }]. *)
Definition heap_AB : heap :=
  [ HObj [("uuid", str "A"); ("content", VRef 2)];
    HObj [("uuid", str "B"); ("content", VRef 3)];
    HObj [("ref", str "B")];
    HObj [("ref", str "A")] ].

Definition stories_AB : list val := [VRef 0; VRef 1].

(** The same heap once both references have been replaced: a cycle. *)
Definition heap_AB_tied : heap :=
  [ HObj [("uuid", str "A"); ("content", VRef 2)];
    HObj [("uuid", str "B"); ("content", VRef 3)];
    HObj [("ref", VRef 1)];
    HObj [("ref", VRef 0)] ].

(** One entry whose [_uid] and [ref] both hold the identifier of another. *)
Definition heap_reserved : heap :=
  [ HObj [("uuid", str "A"); ("_uid", str "B"); ("ref", str "B")];
    HObj [("uuid", str "B"); ("title", str "x")] ].

Definition heap_reserved_resolved : heap :=
  [ HObj [("uuid", str "A"); ("_uid", str "B"); ("ref", VRef 1)];
    HObj [("uuid", str "B"); ("title", str "x")] ].

Definition dictionary_AB : gmap string val :=
  <["A" := VRef 0]> (<["B" := VRef 1]> ∅).

(** No identifier field of any object differs between [h] and [h']. *)
Definition reserved_kept (h h' : heap) : Prop :=
  ∀ a k, is_reserved k = true → own_field h' a k = own_field h a k.

(** ** The depth-capped walk of the earlier revision: [replaceUUIDs] *)

(** [replaceUUIDs] builds fresh objects and assigns into none: it is a
    function on trees. *)
Definition tree_truthy (t : tree) : bool :=
  match t with TPrim p => prim_truthy p | _ => true end.

(** [t[k]], own properties. *)
Definition tree_get (t : tree) (k : string) : tree :=
  match t with
  | TObj fields => default (TPrim PUndef) (assoc k fields)
  | TArr items => default (TPrim PUndef) (array_index k ≫= λ i, items !! i)
  | TPrim _ => TPrim PUndef
  end.

(** The own enumerable properties that [{ ...t }] copies. *)
Definition spread (t : tree) : list (string * tree) :=
  match t with
  | TObj fields => fields
  | TArr items => imap (λ i x, (index_key i, x)) items
  | TPrim (PStr s) => imap (λ i c, (index_key i, TPrim (PStr c))) (chars s)
  | TPrim _ => []
  end.

(** [{ ...story, content: c }] *)
Definition with_content (story c : tree) : tree :=
  TObj (obj_put "content" c (spread story)).

(** The dictionary is a plain object, [{}] filled by assignment: a lookup
    that finds no own property goes on to [Object.prototype]. These are
    the names it finds there. *)
Definition Object_prototype_names : list string :=
  [ "constructor"; "__defineGetter__"; "__defineSetter__"; "hasOwnProperty";
    "__lookupGetter__"; "__lookupSetter__"; "isPrototypeOf";
    "propertyIsEnumerable"; "toString"; "valueOf"; "__proto__";
    "toLocaleString" ].

Definition inherited (key : string) : bool :=
  existsb (String.eqb key) Object_prototype_names.

(** What [replaceUUIDs] can see of an inherited member: each is a function
    (or, for [__proto__], [Object.prototype] itself), which is truthy, has
    no own enumerable property for the spread to copy and no [content]. An
    object without fields stands for it. *)
Definition inherited_member : tree := TObj [].

Section ReplaceUUIDs.
(** The own properties of the dictionary. *)
Variable referencedStoriesDictionary : gmap string tree.

(** [referencedStoriesDictionary[value]], when truthy: an own property, or
    else a member of [Object.prototype]. *)
Definition referenced (value : string) : option tree :=
  match referencedStoriesDictionary !! value with
  | Some story => if tree_truthy story then Some story else None
  | None => if inherited value then Some inherited_member else None
  end.

(** [replaceUUIDs(content, currentDepth)] with [budget = maxDepth -
    currentDepth] levels of substitution left. The calls at the same depth
    go into parts of [content]; the calls at [currentDepth + 1] go into the
    [content] of a dictionary entry with one level less.
    [[
    if (currentDepth >= maxDepth) return content;
    if (Array.isArray(content)) return content.map(item => replaceUUIDs(item, currentDepth));
    else if (content && typeof content === 'object') {
      if (content.uuid && content.content)
        return { ...content, content: replaceUUIDs(content.content, currentDepth) };
      const newContent = {};
      for (const key in content) {
        const value = content[key];
        if (key === '_uid' || key === 'uuid') { newContent[key] = value; continue; }
        if (typeof value === 'string' && referencedStoriesDictionary[value]) {
          const story = referencedStoriesDictionary[value];
          newContent[key] = { ...story, content: replaceUUIDs(story.content, currentDepth + 1) };
        } else newContent[key] = replaceUUIDs(value, currentDepth);
      }
      return newContent;
    } else if (typeof content === 'string') {
      if (referencedStoriesDictionary[content]) { ... same substitution ... }
    }
    return content;
    ]] *)
Fixpoint replaceUUIDs_within (budget : nat) : tree → tree :=
  match budget with
  | 0 => λ content, content
  | S budget' =>
      let substitute (story : tree) : tree :=
        with_content story (replaceUUIDs_within budget' (tree_get story "content")) in
      fix walk (content : tree) : tree :=
        match content with
        | TArr items => TArr (map walk items)
        | TObj fields =>
            if tree_truthy (tree_get content "uuid")
               && tree_truthy (tree_get content "content")
            then
              TObj (map (λ kv, match kv with
                               | (key, value) =>
                                   if String.eqb key "content"
                                   then (key, walk value) else (key, value)
                               end) fields)
            else
              TObj (map (λ kv, match kv with
                               | (key, value) =>
                                   if is_reserved key then (key, value)
                                   else
                                     match value with
                                     | TPrim (PStr id) =>
                                         match referenced id with
                                         | Some story => (key, substitute story)
                                         | None => (key, walk value)
                                         end
                                     | _ => (key, walk value)
                                     end
                               end) fields)
        | TPrim (PStr id) =>
            match referenced id with
            | Some story => substitute story
            | None => content
            end
        | TPrim _ => content
        end
  end.

Definition replaceUUIDs (maxDepth : nat) (content : tree) (currentDepth : nat)
  : tree :=
  replaceUUIDs_within (maxDepth - currentDepth) content.

End ReplaceUUIDs.

(** ** The declared-field resolver *)

(** The table of [utils.ts]. *)
Definition RELATIONS_TO_RESOLVE : list string :=
  [ "Target.modelLabel"; "Target.modalTemplate"; "List.label";
    "Template.story"; "destination.tagLabel"; "DestinationList.label";
    "DestinationList.fromLabel"; "DestinationList.funnelingLabels";
    "DestinationCarousel.staticCards"; "DestinationCarousel.fromLabel";
    "DestinationCarousel.seeAllLabel"; "DestinationCarousel.funnelingLabels";
    "List.label"; "ProductCarousel.products"; "Stories.openCloseLabels";
    "Stories.previousNextLabels"; "Stories.muteUnmuteLabels";
    "Template.story"; "Testimonial.labels"; "Target.funnelingLabels";
    "gallery.moreLabel"; "InfomeetingCard.showLabels";
    "InfomeetingCard.checkboxLabel"; "PopUp.dialogTemplate" ].

(** [s.split('.')] *)
Fixpoint split_dots (s : string) : list string :=
  match s with
  | EmptyString => [EmptyString]
  | String c s' =>
      let rest := split_dots s' in
      if Ascii.eqb c "." then EmptyString :: rest
      else match rest with
           | seg :: segs => String c seg :: segs
           | [] => [String c EmptyString]
           end
  end.

(** [segments.join('.')] *)
Definition join_dots (segments : list string) : string :=
  String.concat "." segments.

(** [path = flatKey.split('.'); path.pop(); path.join('.')] *)
Definition parent_path (flatKey : string) : string :=
  join_dots (removelast (split_dots flatKey)).

(** [s.includes(sub)] on strings: [sub] occurs in [s]. *)
Fixpoint includes (s sub : string) : bool :=
  String.prefix sub s
  || match s with
     | String _ s' => includes s' sub
     | EmptyString => false
     end.

Definition has_char (c : ascii) (s : string) : bool :=
  existsb (Ascii.eqb c) (list_ascii_of_string s).

(** *** [get] of lodash, for path strings without brackets *)

(** A path that is itself a key of the object, or holds no dot, is one
    key; any other path is split at its dots. *)
Definition castPath (h : heap) (object : val) (path : string) : list string :=
  if negb (has_char "." path) || has_prop h object path then [path]
  else split_dots path.

(** [while (object != null && index < length) object = object[path[index++]]];
    the result is [undefined] when the walk stops early. *)
Fixpoint baseGet (h : heap) (object : val) (path : list string) : val :=
  match path with
  | [] => object
  | key :: rest =>
      if nullish object then undefined
      else baseGet h (get_prop h object key) rest
  end.

Definition get (h : heap) (object : val) (path : string) : result val :=
  if has_char "[" path || has_char "]" path then Unsupported
  else Ok (baseGet h object (castPath h object path)).

(** *** [flatten] of the package [flat], with its default options *)

(** [isobject && Object.keys(value).length]: a non-empty array or plain
    object. *)
Definition is_nonempty_container (h : heap) (value : val) : bool :=
  match value with
  | VRef a =>
      match h !! a with
      | Some (HArr (_ :: _)) | Some (HObj (_ :: _)) => true
      | _ => false
      end
  | VPrim _ => false
  end.

(** [[
    function step (object, prev) {
      Object.keys(object).forEach(function (key) {
        const value = object[key]
        const newKey = prev ? prev + delimiter + key : key
        if (isobject && Object.keys(value).length) return step(value, newKey)
        output[newKey] = value
      })
    }
    ]]
    The recursion follows the references of the heap, with no test for a
    cycle: one unit of fuel per level. *)
Fixpoint flatten_step (fuel : nat) (h : heap) (object : val) (prev : string)
    (output : list (string * val)) : result (list (string * val)) :=
  match fuel with
  | 0 => Diverge
  | S fuel' =>
      do keys <- keys_of h object;
      foldM (λ output key,
               let value := get_prop h object key in
               let newKey :=
                 if String.eqb prev "" then key else prev +:+ "." +:+ key in
               if is_nonempty_container h value
               then flatten_step fuel' h value newKey output
               else Ok (obj_put newKey value output))
            keys output
  end.

Definition flatten (fuel : nat) (h : heap) (target : val)
  : result (list (string * val)) :=
  flatten_step fuel h target "" [].

(** [[
    const flatContent = flatten(components);
    const flatKeys = Object.keys(flatContent).filter(key =>
      componentNamesToResolve.includes(flatContent[key]));
    return flatKeys.map(flatKey => {
      const componentName = flatContent[flatKey];
      const path = flatKey.split('.'); path.pop();
      return { [path.join('.')]: componentName };
    });
    ]]
    Each found component is the pair of its pointer and its name. *)
Definition findComponents (fuel : nat) (h : heap) (components : val)
    (componentNamesToResolve : list string) : result (list (string * string)) :=
  do flatContent <- flatten fuel h components;
  Ok (omap (λ kv, match kv with
                  | (flatKey, VPrim (PStr componentName)) =>
                      if existsb (String.eqb componentName)
                           componentNamesToResolve
                      then Some (parent_path flatKey, componentName)
                      else None
                  | _ => None
                  end) flatContent).

(** [[
    relationsToResolve.reduce((acc, item) => {
      const [key, value] = item.split('.');
      acc[key] = value;
      return acc;
    }, {})
    ]]
    One value per component name: a later item of the table replaces an
    earlier one with the same name. *)
Definition relationsMap_of (relationsToResolve : list string)
  : list (string * option string) :=
  fold_left (λ acc item,
               let parts := split_dots item in
               obj_put (default "" (head parts)) (parts !! 1) acc)
            relationsToResolve [].

Section DeclaredField.
Variable dictionary : gmap string val.

(** [uids.map(uid => dictionary?.[uid])] *)
Definition fetch_templates (h : heap) (uids : list val) : result (list val) :=
  foldM (λ fetched uid,
           do k <- to_key h uid;
           Ok (fetched ++ [default undefined (dictionary !! k)]))
        uids [].

(** The body of [for (const key of Object.keys(nextComponentToResolve))];
    the state is the heap and the flag [changed]. *)
Definition resolve_field (fieldsToResolve : option string)
    (nextComponentToResolve : val) (st : heap * bool) (key : string)
  : result (heap * bool) :=
  match fieldsToResolve with
  | None => Throw (TypeError "Cannot read properties of undefined (reading 'includes')")
  | Some fields =>
      if includes fields key then
        let current := get_prop st.1 nextComponentToResolve key in
        match current with
        | VRef a =>
            match st.1 !! a with
            | Some (HArr uids) =>
                if negb (match uids with
                         | first :: _ => is_string first
                         | [] => false
                         end)
                then Ok st                                   (* continue *)
                else
                  do fetchedTemplates <- fetch_templates st.1 uids;
                  let '(h', fresh) := alloc st.1 (HArr fetchedTemplates) in
                  do h'' <- set_prop h' nextComponentToResolve key fresh;
                  Ok (h'', true)
            | _ => Ok st
            end
        | VPrim (PStr uid) =>
            let hit := dict_get dictionary (PStr uid) in
            do h' <- set_prop st.1 nextComponentToResolve key
                       (if truthy hit then hit else current);
            Ok (h', true)
        | VPrim _ => Ok st
        end
      else Ok st
  end.

(** The body of [for (const foundComponent of foundComponents)]. *)
Definition resolve_component (relationsMap : list (string * option string))
    (components : val) (st : heap * bool) (foundComponent : string * string)
  : result (heap * bool) :=
  let '(pointer, name) := foundComponent in
  do nextComponentToResolve <- get st.1 components pointer;
  let fieldsToResolve := mjoin (assoc name relationsMap) in
  do keys <- keys_of st.1 nextComponentToResolve;
  foldM (resolve_field fieldsToResolve nextComponentToResolve) keys st.

(** How the loop was left. *)
Inductive loop_exit : Type :=
  | NoComponents     (* if (!components) return storyData *)
  | NoChange         (* if (!changed) break *)
  | CapReached.      (* counter <= maxLevelOfNesting failed *)

(** [[
    let counter = 0;
    while ((foundComponents = this.findComponents(components, names))
           && counter <= maxLevelOfNesting) {
      counter++;
      let changed = false;
      for (const foundComponent of foundComponents) { ... }
      if (!changed) break;
    }
    ]]
    The result holds the heap, the number of iterations made and the
    exit. [budget] bounds the iterations; [maxLevelOfNesting + 2] is
    enough. *)
Fixpoint nesting_loop (budget fuel : nat)
    (relationsMap : list (string * option string)) (components : val)
    (maxLevelOfNesting counter : nat) (h : heap)
  : result (heap * nat * loop_exit) :=
  match budget with
  | 0 => Diverge
  | S budget' =>
      do foundComponents <-
        findComponents fuel h components (map fst relationsMap);
      if counter <=? maxLevelOfNesting then
        do st <- foldM (resolve_component relationsMap components)
                       foundComponents (h, false);
        if st.2 then
          nesting_loop budget' fuel relationsMap components maxLevelOfNesting
            (S counter) st.1
        else Ok (st.1, S counter, NoChange)
      else Ok (h, counter, CapReached)
  end.

(** [resolveNestedComponents(pathToComponents, relationsToResolve,
    storyData, dictionary, maxLevelOfNesting)]; it returns [storyData],
    the object it was given. [fuel] bounds the depth [flatten] may reach. *)
Definition resolveNestedComponents (fuel : nat) (pathToComponents : string)
    (relationsToResolve : list string) (h : heap) (storyData : val)
    (maxLevelOfNesting : nat) : result (heap * nat * loop_exit) :=
  do components <- get h storyData pathToComponents;
  if negb (truthy components) then Ok (h, 0, NoComponents)
  else
    nesting_loop (maxLevelOfNesting + 2) fuel
      (relationsMap_of relationsToResolve) components maxLevelOfNesting 0 h.

End DeclaredField.

(** ** Example entries *)

(** Three entries, the first and the last with the same identifier. *)
Definition heap_duplicates : heap :=
  [ HObj [("uuid", str "A"); ("name", str "first")];
    HObj [("uuid", str "B"); ("name", str "other")];
    HObj [("uuid", str "A"); ("name", str "last")] ].

(** The example of the specification: the story
    [{ uuid: "story-1", content: { body: [ { component: "Target",
    modelLabel: "abc-uuid" } ] } }] at address 0 (its component at 3) and
    the entry [{ uuid: "abc-uuid", content: { title: "X" } }] at 4. *)
Definition heap_target : heap :=
  [ HObj [("uuid", str "story-1"); ("content", VRef 1)];
    HObj [("body", VRef 2)];
    HArr [VRef 3];
    HObj [("component", str "Target"); ("modelLabel", str "abc-uuid")];
    HObj [("uuid", str "abc-uuid"); ("content", VRef 5)];
    HObj [("title", str "X")] ].

Definition dictionary_target : gmap string val :=
  <["story-1" := VRef 0]> (<["abc-uuid" := VRef 4]> ∅).

(** The same story with the component
    [{ component: "Target", funnelingLabels: uids }], [uids] at address 6. *)
Definition heap_labels (uids : list val) : heap :=
  [ HObj [("uuid", str "story-1"); ("content", VRef 1)];
    HObj [("body", VRef 2)];
    HArr [VRef 3];
    HObj [("component", str "Target"); ("funnelingLabels", VRef 6)];
    HObj [("uuid", str "abc-uuid"); ("content", VRef 5)];
    HObj [("title", str "X")];
    HArr uids ].

(** The same story with the component
    [{ component: "Target", funnelingLabels: id }]. *)
Definition heap_label (id : string) : heap :=
  [ HObj [("uuid", str "story-1"); ("content", VRef 1)];
    HObj [("body", VRef 2)];
    HArr [VRef 3];
    HObj [("component", str "Target"); ("funnelingLabels", str id)];
    HObj [("uuid", str "abc-uuid"); ("content", VRef 5)];
    HObj [("title", str "X")] ].

Definition heap_label_resolved : heap :=
  [ HObj [("uuid", str "story-1"); ("content", VRef 1)];
    HObj [("body", VRef 2)];
    HArr [VRef 3];
    HObj [("component", str "Target"); ("funnelingLabels", VRef 4)];
    HObj [("uuid", str "abc-uuid"); ("content", VRef 5)];
    HObj [("title", str "X")] ].

(** The mutually referring entries A and B as trees. *)
Definition tree_A : tree :=
  TObj [("uuid", TPrim (PStr "A")); ("content", TObj [("ref", TPrim (PStr "B"))])].
Definition tree_B : tree :=
  TObj [("uuid", TPrim (PStr "B")); ("content", TObj [("ref", TPrim (PStr "A"))])].
Definition tree_dictionary_AB : gmap string tree :=
  <["A" := tree_A]> (<["B" := tree_B]> ∅).

(** A chain of entries [e0], [e1], ...: the body of [e<k>] holds the
    component [{ component: "Target", funnelingLabels: "e<k+1>" }].
    Entry [k] is at address [4 * k], its component at [4 * k + 3]. *)
Definition entry_id (k : nat) : string := "e" +:+ index_key k.

Definition chain_entry (k : nat) : list hobj :=
  [ HObj [("uuid", str (entry_id k)); ("content", VRef (4 * k + 1))];
    HObj [("body", VRef (4 * k + 2))];
    HArr [VRef (4 * k + 3)];
    HObj [("component", str "Target");
          ("funnelingLabels", str (entry_id (S k)))] ].

Definition chain_heap (n : nat) : heap := flat_map chain_entry (seq 0 n).

Definition chain_dictionary (n : nat) : gmap string val :=
  list_to_map (map (λ k, (entry_id k, VRef (4 * k))) (seq 0 n)).


(** A component [{ _uid: "T", ref: "T" }] and the object
    [{ name: "template" }] that a dictionary holds under ["T"]. *)
Definition heap_component : heap :=
  [ HObj [("_uid", str "T"); ("ref", str "T")];
    HObj [("name", str "template")] ].

Definition dictionary_template : gmap string val := {["T" := VRef 1]}.

(** ** Further definitions for the properties of Part III *)

(** [k] failed attempts, each followed by its pause. *)
Definition failed_rounds (k : nat) (d m : Z) : list retry_event :=
  flat_map (λ i, [Invoke; Sleep (d * m ^ Z.of_nat i)%Z]) (seq 0 k).

(** An operation that fails [k] times and then returns [v]. *)
Definition flaky {T} (k : nat) (v : T) : nat → result T :=
  λ i, if i <? k then Throw (ExnString "ECONNRESET") else Ok v.

(** The pauses of a run are the first terms of the geometric sequence. *)
Definition geometric (d m : Z) (count : nat) : list Z :=
  map (λ i, (d * m ^ Z.of_nat i)%Z) (seq 0 count).

(** Three operations, the second of which never settles. *)
Definition ops_with_hung_request : list (nat → result (list nat)) :=
  [ (λ _, Ok [1]); (λ _, Diverge); (λ _, Ok [3]) ].


(** The line the scheduler logs for an operation that used up its retries. *)
Definition page_lost : log_entry :=
  ConsoleError "Failed to fetch:" max_retries_reached.

(** A transport whose first request is refused. *)
Definition refusing_server : transport :=
  λ _ _, Throw (ExnString "Too Many Requests").

(** Equality of values is decidable. *)
#[global] Instance prim_eq_dec : EqDecision prim.
Proof. solve_decision. Defined.

#[global] Instance val_eq_dec : EqDecision val.
Proof. solve_decision. Defined.

(** [resolveRelations(stories, dictionary)], earlier revision:
    [stories.map(story => this.resolveRelationsForStory(story, dictionary))],
    one story after the other on the same heap. *)
Definition resolveRelations_legacy (fuel : nat) (dictionary : gmap string val)
    (h : heap) (stories : list val) : result heap :=
  foldM (λ h story, resolveRelationsForStory_legacy fuel dictionary h story)
        stories h.

(** The same, current revision:
    [stories.map(story => this.resolveNestedComponents('content.body',
    RELATIONS_TO_RESOLVE, story, dictionary))]. *)
Definition resolveRelations (fuel : nat) (dictionary : gmap string val)
    (h : heap) (stories : list val) : result heap :=
  foldM (λ h story,
           do r <- resolveNestedComponents dictionary fuel "content.body"
                     RELATIONS_TO_RESOLVE h story 10;
           Ok r.1.1)
        stories h.

(** The [uuid] of the object at [b] is the identifier [id], or already the
    object itself. *)
Definition tied (b : addr) (id : string) (h : heap) : Prop :=
  own_field h b "uuid" = Some (str id) ∨ own_field h b "uuid" = Some (VRef b).

(** An entry: a plain object whose [uuid] is a string. *)
Definition is_entry (h : heap) (story : val) : Prop :=
  ∃ a id, story = VRef a ∧ own_field h a "uuid" = Some (str id).

(** A plain object without an own [uuid]. *)
Definition lacks_uuid (h : heap) (story : val) : Prop :=
  ∃ a fields, story = VRef a ∧ h !! a = Some (HObj fields)
              ∧ assoc "uuid" fields = None.

(** Two records that carry no [uuid]. *)
Definition heap_anonymous : heap :=
  [ HObj [("name", str "home")]; HObj [("name", str "about")] ].

(** ** The market filter: [getFilteredMarketsForBuild] *)

(** [[
    if (process.env.MARKET)
      return marketCodes.filter((mkt) => mkt === process.env.MARKET);
    return marketCodes.filter((market) => market !== 'cn');
    ]]
    [MARKET] is the environment variable, [None] when it is not set; an
    empty string is falsy like an unset variable. *)
Definition getFilteredMarketsForBuild (MARKET : option string)
    (marketCodes : list string) : list string :=
  match MARKET with
  | Some market =>
      if negb (String.eqb market "")
      then List.filter (λ mkt, String.eqb mkt market) marketCodes
      else List.filter (λ mkt, negb (String.eqb mkt "cn")) marketCodes
  | None => List.filter (λ mkt, negb (String.eqb mkt "cn")) marketCodes
  end.

(** Induction on trees, with the hypothesis for every item of an array and
    every value of an object. *)
Section TreeInduction.
Variable P : tree → Prop.
Hypothesis Hprim : ∀ p, P (TPrim p).
Hypothesis Harr : ∀ items, Forall P items → P (TArr items).
Hypothesis Hobj : ∀ fields, Forall (λ kv, P kv.2) fields → P (TObj fields).

Fixpoint tree_induction (t : tree) : P t :=
  match t with
  | TPrim p => Hprim p
  | TArr items =>
      Harr items
        ((fix all (l : list tree) : Forall P l :=
            match l with
            | [] => @List.Forall_nil _ P
            | x :: l' => @List.Forall_cons _ P x l' (tree_induction x) (all l')
            end) items)
  | TObj fields =>
      Hobj fields
        ((fix all (l : list (string * tree)) : Forall (λ kv, P kv.2) l :=
            match l with
            | [] => @List.Forall_nil _ (λ kv, P kv.2)
            | kv :: l' =>
                @List.Forall_cons _ (λ kv, P kv.2) kv l'
                  (tree_induction kv.2) (all l')
            end) fields)
  end.
End TreeInduction.

(** The string [id] occurs somewhere in the tree as a value. *)
Fixpoint mentions (id : string) (t : tree) : bool :=
  match t with
  | TPrim (PStr s) => String.eqb s id
  | TPrim _ => false
  | TArr items => existsb (mentions id) items
  | TObj fields => existsb (λ kv, mentions id kv.2) fields
  end.

(** The fields the table declares for the component [name], in the order
    of the table. *)
Definition declared_for (name : string) (relationsToResolve : list string)
  : list (option string) :=
  omap (λ item,
          let parts := split_dots item in
          if String.eqb (default "" (head parts)) name
          then Some (parts !! 1) else None)
       relationsToResolve.

(** [story.content?.body]: what [get(story, 'content.body')] reads from
    an object that has no own key ['content.body']. *)
Definition optional_body (h : heap) (story : val) : val :=
  let content := get_prop h story "content" in
  if nullish content then undefined else get_prop h content "body".

(** A plain object whose [content.body] is missing or falsy. *)
Definition without_components (h : heap) (story : val) : Prop :=
  ∃ a fields, story = VRef a ∧ h !! a = Some (HObj fields)
              ∧ assoc "content.body" fields = None
              ∧ truthy (optional_body h story) = false.

(** A story with an empty body and a story without content. *)
Definition heap_bare : heap :=
  [ HObj [("uuid", str "A"); ("content", VRef 1)];
    HObj [("body", VPrim PNull)];
    HObj [("uuid", str "B")] ].


(** ** The writer of the earlier revision: [stringify] *)

(** [cache.indexOf(value) !== -1]: objects are compared by identity. *)
Definition member (a : addr) (cache : list addr) : bool :=
  existsb (Nat.eqb a) cache.

Section Serialize.
(** The serialisation of a property value, with the cache before and
    after. *)
Variable recur : val → list addr → result (option tree * list addr).

(** A property of an object: it is left out when its value serialises to
    [undefined]. *)
Definition object_step (st : list (string * tree) * list addr)
    (kv : string * val) : result (list (string * tree) * list addr) :=
  do r <- recur kv.2 st.2;
  Ok (match r.1 with
      | Some json => st.1 ++ [(kv.1, json)]
      | None => st.1
      end, r.2).

(** An element of an array: it is written as [null] when its value
    serialises to [undefined]. *)
Definition array_step (st : list tree * list addr) (item : val)
  : result (list tree * list addr) :=
  do r <- recur item st.2;
  Ok (st.1 ++ [default (TPrim PNull) r.1], r.2).
End Serialize.

(** [JSON.stringify(obj, replacer, 2)] with the replacer
    [[
    function (key, value) {
      if (typeof value === 'object' && value !== null) {
        if (cache.indexOf(value) !== -1) return;   // discard key
        cache.push(value);
      }
      return value;
    }
    ]]
    The replacer sees every property value before it is serialised, in
    the order of the document; what it returns for an object is then
    serialised member by member. The result is the JSON value that is
    printed ([None]: nothing, the value was [undefined]) and the cache;
    the layout of the text is left out. One unit of fuel per level of
    nesting. *)
Fixpoint serialize (fuel : nat) (h : heap) (value : val) (cache : list addr)
  : result (option tree * list addr) :=
  match fuel with
  | 0 => Diverge
  | S fuel' =>
      match value with
      | VPrim PUndef => Ok (None, cache)
      | VPrim p => Ok (Some (TPrim p), cache)
      | VRef a =>
          if member a cache then Ok (None, cache)
          else
            match h !! a with
            | Some (HArr items) =>
                do st <- foldM (array_step (serialize fuel' h)) items
                               ([], cache ++ [a]);
                Ok (Some (TArr st.1), st.2)
            | Some (HObj fields) =>
                do st <- foldM (object_step (serialize fuel' h)) fields
                               ([], cache ++ [a]);
                Ok (Some (TObj st.1), st.2)
            | None => Unsupported      (* a dangling address *)
            end
      end
  end.

(** [stringify(obj)]: the cache starts empty. No chain of nested objects
    is longer than the heap, since the replacer lets no object in twice. *)
Definition stringify (h : heap) (obj : val) : result (option tree) :=
  do r <- serialize (S (length h)) h obj []; Ok r.1.

(** The objects of the heap that are not in the cache yet. *)
Definition unvisited (h : heap) (cache : list addr) : nat :=
  length (List.filter (λ a, negb (member a cache)) (seq 0 (length h))).

(** A run that ends: with a value, or at something outside the model. *)
Definition ends {A : Type} (r : result A) : Prop :=
  match r with
  | Ok _ | Unsupported => True
  | Throw _ | Diverge => False
  end.

(** Two fields and two elements that share one object, and two objects
    that refer to each other. *)
Definition heap_shared : heap :=
  [ HObj [("first", VRef 1); ("second", VRef 1); ("list", VRef 2)];
    HObj [("name", str "shared")];
    HArr [VRef 3; VRef 3];
    HObj [("name", str "twice"); ("back", VRef 0)] ].

(** ** The depth-capped pipeline: [resolveRelationsPS] *)

(** The stories are parsed JSON and the function assigns to one property
    only, [story.content] of a story of the list; the objects that
    [replaceUUIDs] builds are never assigned into. The list of stories is
    a list of trees, and the dictionary, which holds the stories
    themselves, maps an identifier to the place of its story in the list:
    it reads the story as it is at the time of the reading. *)

Definition tree_nullish (t : tree) : bool :=
  match t with TPrim PUndef | TPrim PNull => true | _ => false end.

(** [story.uuid] as a key. *)
Definition tree_key (story : tree) : result string :=
  if tree_nullish story
  then Throw (TypeError "Cannot read properties of null (reading 'uuid')")
  else match tree_get story "uuid" with
       | TPrim p => Ok (prim_to_string p)
       | TObj _ => Ok "[object Object]"
       | TArr _ => Unsupported
       end.

(** [[
    const referencedStoriesDictionary = this.createReferencedStoriesDictionary(stories);
    stories.forEach((story) => {
      if (story && story.uuid && story.content)
        referencedStoriesDictionary[story.uuid] = story;
    });
    ]] *)
Definition story_places (stories : list tree) : result (gmap string nat) :=
  do places <- foldM (λ acc entry, do k <- tree_key entry.2;
                                   Ok (<[k := entry.1]> acc))
                     (imap pair stories) ∅;
  foldM (λ acc entry,
           if tree_truthy entry.2 && tree_truthy (tree_get entry.2 "uuid")
              && tree_truthy (tree_get entry.2 "content")
           then do k <- tree_key entry.2; Ok (<[k := entry.1]> acc)
           else Ok acc)
        (imap pair stories) places.

(** [story.content = c] *)
Definition set_content (story c : tree) : tree :=
  match story with
  | TObj fields => TObj (obj_put "content" c fields)
  | _ => story
  end.

(** The body of the last [forEach], for the story at place [i]:
    [[
    if (story && story.content) story.content = replaceUUIDs(story.content);
    ]] *)
Definition resolve_story (places : gmap string nat) (maxDepth : nat)
    (stories : list tree) (i : nat) : list tree :=
  match stories !! i with
  | Some story =>
      if tree_truthy story && tree_truthy (tree_get story "content")
      then
        let referencedStoriesDictionary :=
          (λ j, default (TPrim PUndef) (stories !! j)) <$> places in
        <[i := set_content story
                 (replaceUUIDs referencedStoriesDictionary maxDepth
                    (tree_get story "content") 0)]> stories
      else stories
  | None => stories
  end.

Definition resolveRelationsPS (stories : list tree) (maxDepth : nat)
  : result (list tree) :=
  do places <- story_places stories;
  Ok (fold_left (resolve_story places maxDepth) (seq 0 (length stories))
                stories).

(** What the pipeline may change of a story: its [content], when it has
    one. *)
Definition same_but_content (story story' : tree) : Prop :=
  (∀ key, key ≠ "content" → tree_get story' key = tree_get story key)
  ∧ (tree_truthy (tree_get story "content") = false → story' = story).

(* ===================================================================== *)
(** * Part II: the theorems                                                *)
(* ===================================================================== *)

(** ** The Backoff Retrier *)

Lemma invocations_app tr1 tr2 :
  invocations (tr1 ++ tr2) = invocations tr1 + invocations tr2.
Proof. unfold invocations. by rewrite omap_app, length_app. Qed.

Lemma sleeps_app tr1 tr2 : sleeps (tr1 ++ tr2) = sleeps tr1 ++ sleeps tr2.
Proof. unfold sleeps. by rewrite omap_app. Qed.

Lemma schedule_from_step n d m a :
  a < n →
  schedule_from n d m a =
  (Invoke :: (if S a <? n then [Sleep (d * m ^ Z.of_nat a)%Z] else []))
  ++ schedule_from n d m (S a).
Proof.
  intros Han. unfold schedule_from.
  replace (n - a) with (S (n - S a)) by lia. reflexivity.
Qed.

Lemma schedule_from_end n d m a : n ≤ a → schedule_from n d m a = [].
Proof.
  intros Hna. unfold schedule_from. by replace (n - a) with 0 by lia.
Qed.

(** The loop on an operation that fails at every invocation: the invariant
    is that the current delay is [d * m ^ attempts]. *)
Lemma retry_loop_always_failing {T} (op : nat → result T) n d m :
  (∀ i, ∃ e, op i = Throw e) →
  ∀ fuel a tr, n - a < fuel →
    retry_loop fuel op n a (d * m ^ Z.of_nat a)%Z m tr
    = (Throw max_retries_reached, tr ++ schedule_from n d m a).
Proof.
  intros Hfail. induction fuel as [|fuel IH]; intros a tr Hfuel; [lia|].
  cbn [retry_loop]. destruct (a <? n) eqn:Han.
  - apply Nat.ltb_lt in Han. destruct (Hfail a) as [e ->].
    rewrite (schedule_from_step n d m a Han).
    destruct (S a <? n) eqn:Hlast.
    + replace (d * m ^ Z.of_nat a * m)%Z with (d * m ^ Z.of_nat (S a))%Z
        by (rewrite Nat2Z.inj_succ, Z.pow_succ_r by lia; ring).
      rewrite IH by lia. by rewrite <- app_assoc.
    + apply Nat.ltb_ge in Hlast.
      (* the last attempt: no pause, and the next test of the loop fails *)
      destruct fuel as [|fuel']; [lia|]. cbn [retry_loop].
      replace (S a <? n) with false by (symmetry; apply Nat.ltb_ge; lia).
      rewrite (schedule_from_end n d m (S a)) by lia.
      by rewrite app_nil_r.
  - apply Nat.ltb_ge in Han. rewrite schedule_from_end by lia.
    by rewrite app_nil_r.
Qed.

Lemma invocations_schedule_from n d m a :
  invocations (schedule_from n d m a) = n - a.
Proof.
  remember (n - a) as k eqn:Hk. revert a Hk.
  induction k as [|k IH]; intros a Hk.
  - rewrite schedule_from_end by lia. reflexivity.
  - rewrite schedule_from_step by lia.
    change (?x :: ?l) with ([x] ++ l). rewrite !invocations_app.
    rewrite (IH (S a)) by lia.
    destruct (S a <? n); reflexivity.
Qed.

Lemma sleeps_schedule_from n d m a :
  sleeps (schedule_from n d m a)
  = map (λ i, (d * m ^ Z.of_nat i)%Z) (seq a (n - 1 - a)).
Proof.
  remember (n - a) as k eqn:Hk. revert a Hk.
  induction k as [|k IH]; intros a Hk.
  - rewrite schedule_from_end by lia.
    by replace (n - 1 - a) with 0 by lia.
  - rewrite schedule_from_step by lia.
    change (?x :: ?l) with ([x] ++ l). rewrite !sleeps_app.
    rewrite (IH (S a)) by lia.
    destruct (S a <? n) eqn:Hlast.
    + apply Nat.ltb_lt in Hlast.
      replace (n - 1 - a) with (S (n - 1 - S a)) by lia. reflexivity.
    + apply Nat.ltb_ge in Hlast.
      replace (n - 1 - a) with 0 by lia.
      by replace (n - 1 - S a) with 0 by lia.
Qed.

(** C6. An operation that fails at every invocation is invoked exactly
    [maxAttempts] times; after attempt [i+1] (for [i] from 0 to
    [maxAttempts-2]) the retrier sleeps [initialDelay * multiplier^i], it
    does not sleep after the last attempt, and it then raises the one
    exhaustion error, whatever the operation threw. *)
Theorem retry_always_failing {T} (op : nat → result T)
    (maxAttempts : nat) (initialDelay multiplier : Z) :
  (∀ i, ∃ e, op i = Throw e) →
  promiseWithRetry op maxAttempts initialDelay multiplier
  = (Throw max_retries_reached,
     retry_schedule maxAttempts initialDelay multiplier)
  ∧ invocations (retry_schedule maxAttempts initialDelay multiplier)
    = maxAttempts
  ∧ sleeps (retry_schedule maxAttempts initialDelay multiplier)
    = map (λ i, (initialDelay * multiplier ^ Z.of_nat i)%Z)
          (seq 0 (maxAttempts - 1)).
Proof.
  intros Hfail.
  assert (retry_schedule maxAttempts initialDelay multiplier
          = schedule_from maxAttempts initialDelay multiplier 0) as ->.
  { unfold retry_schedule, schedule_from. by rewrite Nat.sub_0_r. }
  split; [|split].
  - unfold promiseWithRetry.
    pose proof (retry_loop_always_failing op maxAttempts initialDelay
                  multiplier Hfail (S maxAttempts) 0 []) as H.
    rewrite Z.pow_0_r, Z.mul_1_r in H. apply H. lia.
  - rewrite invocations_schedule_from. lia.
  - rewrite sleeps_schedule_from. by rewrite Nat.sub_0_r.
Qed.

(** The example of the specification: three attempts, pauses of 100 ms and
    200 ms, none after the last. *)
Lemma retry_always_failing_witness :
  (∀ i : nat, ∃ e, (λ _ : nat, @Throw unit (ExnString "ECONNRESET")) i = Throw e)
  ∧ promiseWithRetry (λ _ : nat, @Throw unit (ExnString "ECONNRESET")) 3 100 2
    = (Throw max_retries_reached,
       [Invoke; Sleep 100; Invoke; Sleep 200; Invoke]).
Proof.
  split.
  - intros i. eexists. reflexivity.
  - apply (retry_always_failing (λ _ : nat, @Throw unit (ExnString "ECONNRESET"))
             3 100%Z 2%Z).
    intros i. eexists. reflexivity.
Defined.

Lemma retry_loop_invocations {T} (op : nat → result T) n m :
  ∀ fuel a d tr,
    invocations (retry_loop fuel op n a d m tr).2 ≤ invocations tr + (n - a).
Proof.
  induction fuel as [|fuel IH]; intros a d tr; cbn [retry_loop]; [simpl; lia|].
  destruct (a <? n) eqn:Han; [|simpl; lia].
  apply Nat.ltb_lt in Han.
  destruct (op a) as [v|e| |]; cbn [snd];
    try (rewrite invocations_app; cbn; lia).
  destruct (S a <? n).
  - etrans; [apply IH|]. rewrite invocations_app. cbn. lia.
  - etrans; [apply IH|]. rewrite invocations_app. cbn. lia.
Qed.

(** C10. With an attempt budget of zero the retrier raises the exhaustion
    error at once and never invokes the operation; and whatever the
    operation does, it is invoked at most [retries] times. *)
Theorem retry_budget :
  (∀ T (op : nat → result T) (delay multiplier : Z),
     promiseWithRetry op 0 delay multiplier = (Throw max_retries_reached, []))
  ∧ (∀ T (op : nat → result T) (retries : nat) (delay multiplier : Z),
       invocations (promiseWithRetry op retries delay multiplier).2 ≤ retries).
Proof.
  split.
  - reflexivity.
  - intros T op retries delay multiplier. unfold promiseWithRetry.
    etrans; [apply retry_loop_invocations|]. cbn. lia.
Qed.

(** ** The Bulk Scheduler *)

Section SchedulerFacts.
Context {T : Type}.
Variables (maxRetries : nat) (initialBackoff delayMultiplier : Z).

Local Abbreviation run := (@retried T maxRetries initialBackoff delayMultiplier).

Lemma fold_collect (bulk : list (nat → result (list T))) acc :
  fold_left collect (map run bulk) acc
  = (acc.1 ++ flat_map (λ op, successes (run op)) bulk,
     acc.2 ++ flat_map (λ op, failures (run op)) bulk).
Proof.
  revert acc. induction bulk as [|op bulk IH]; intros [res log]; cbn.
  - by rewrite !app_nil_r.
  - rewrite IH. unfold collect, successes, failures.
    destruct (run op); cbn; by rewrite <- ?app_assoc, ?app_nil_r.
Qed.

Lemma no_member_diverges (bulk : list (nat → result (list T))) :
  Forall (λ op, settles (run op)) bulk →
  existsb is_diverge (map run bulk) = false
  ∧ existsb is_unsupported (map run bulk) = false.
Proof.
  induction 1 as [|op bulk Hop _ [IH1 IH2]]; cbn; [done|].
  rewrite IH1, IH2. destruct (run op); cbn in *; done.
Qed.

Lemma bulks_loop_settled (ops : list (nat → result (list T))) bulkSize :
  0 < bulkSize →
  Forall (λ op, settles (run op)) ops →
  ∀ fuel i acc, length ops - i < fuel →
    bulks_loop fuel ops bulkSize maxRetries initialBackoff delayMultiplier i acc
    = (Ok (acc.1 ++ flat_map (λ op, successes (run op)) (drop i ops)),
       acc.2 ++ flat_map (λ op, failures (run op)) (drop i ops)).
Proof.
  intros Hsize Hall. induction fuel as [|fuel IH]; intros i acc Hfuel; [lia|].
  cbn [bulks_loop]. destruct (i <? length ops) eqn:Hi.
  - apply Nat.ltb_lt in Hi.
    set (rest := drop i ops).
    assert (Forall (λ op, settles (run op)) (take bulkSize rest)) as Hbulk
      by (apply Forall_take, Forall_drop, Hall).
    destruct (no_member_diverges _ Hbulk) as [-> ->].
    rewrite IH by lia. rewrite fold_collect. cbn [fst snd].
    rewrite <- !app_assoc, <- !flat_map_app.
    replace (drop (i + bulkSize) ops) with (drop bulkSize rest)
      by (unfold rest; by rewrite drop_drop).
    by rewrite take_drop.
  - apply Nat.ltb_ge in Hi. rewrite drop_ge by lia. cbn.
    by rewrite !app_nil_r.
Qed.

End SchedulerFacts.

(** C7. The scheduler returns the concatenation, in the order of the list
    (so chunk after chunk), of what the operations that succeed within the
    retry budget return; an operation that exhausts its retries adds one
    line to the log and nothing to the result, and the batch still
    returns. The bulk size is positive (0 would never advance), and every
    operation settles. *)
Theorem bulk_collects_successes {T} (ops : list (nat → result (list T)))
    (bulkSize maxRetries : nat) (initialBackoff delayMultiplier : Z) :
  0 < bulkSize →
  Forall (λ op, settles (retried maxRetries initialBackoff delayMultiplier op))
         ops →
  processPromisesInBulks ops bulkSize maxRetries initialBackoff delayMultiplier
  = (Ok (flat_map
           (λ op, successes
                    (retried maxRetries initialBackoff delayMultiplier op))
           ops),
     flat_map
       (λ op, failures (retried maxRetries initialBackoff delayMultiplier op))
       ops).
Proof.
  intros Hsize Hall. unfold processPromisesInBulks.
  rewrite (bulks_loop_settled maxRetries initialBackoff delayMultiplier
             ops bulkSize Hsize Hall) by lia.
  reflexivity.
Qed.

Lemma bulk_collects_successes_witness :
  processPromisesInBulks five_ops 2 5 1000 2
  = (Ok [10; 11; 20; 40; 41; 50],
     [ConsoleError "Failed to fetch:" max_retries_reached]).
Proof.
  apply (bulk_collects_successes five_ops 2 5 1000%Z 2%Z).
  - lia.
  - unfold five_ops. repeat constructor.
Defined.

(** A bulk size of 0 never advances: whatever the fuel, the loop over a
    non-empty list of settling operations does not return. *)
Lemma bulk_size_zero_diverges {T} (ops : list (nat → result (list T)))
    (maxRetries : nat) (initialBackoff delayMultiplier : Z) :
  ops ≠ [] →
  ∀ fuel acc,
    (bulks_loop fuel ops 0 maxRetries initialBackoff delayMultiplier 0 acc).1
    = Diverge.
Proof.
  intros Hne. induction fuel as [|fuel IH]; intros acc; [done|].
  cbn [bulks_loop]. destruct ops as [|op ops]; [done|]. cbn. apply IH.
Qed.

(** ** The Paginated Fetcher *)

Lemma flat_no_arrays (xs : list tree) :
  Forall (λ x, is_array x = false) xs → flat xs = xs.
Proof.
  induction 1 as [|x xs Hx _ IH]; [done|].
  unfold flat in *. cbn. rewrite IH. by destruct x.
Qed.

(** Consecutive chunks of a list, from chunk [j] on, give back the rest of
    the list. *)
Lemma chunks_concat {A} (c : nat) (l : list A) :
  ∀ m j, length l ≤ (j + m) * c →
    flat_map (λ k, take c (drop (k * c) l)) (seq j m) = drop (j * c) l.
Proof.
  induction m as [|m IH]; intros j Hlen; cbn [seq flat_map].
  - symmetry. apply drop_ge. lia.
  - rewrite IH by lia.
    replace (S j * c) with (j * c + c) by lia.
    rewrite <- drop_drop. apply take_drop.
Qed.

Lemma pages_from_two {A} (g : nat → list A) (m : nat) :
  flat_map (λ p : Z, g (Z.to_nat p - 1)) (additional_page_numbers_of m)
  = flat_map g (seq 1 m).
Proof.
  unfold additional_page_numbers_of.
  rewrite <- (fmap_S_seq 0 m).
  rewrite !flat_map_concat_map. f_equal.
  rewrite !map_map. apply map_ext. intros k.
  f_equal. lia.
Qed.

(** The characterisation of [Math.ceil(n / 25)]. *)
Lemma ceil_div_spec (n d : Z) :
  (0 < d)%Z →
  (d * (ceil_div n d - 1) < n ≤ d * ceil_div n d)%Z.
Proof.
  intros Hd. unfold ceil_div.
  pose proof (Z.div_mod (- n) d ltac:(lia)) as Hdm.
  pose proof (Z.mod_pos_bound (- n) d Hd) as Hmod. lia.
Qed.

(** A page of the never-failing server succeeds at its first request. *)
Lemma retried_paged total entries c (p : Z) :
  retried 5 1000 2 (fetchAdditionalStories (paged_server total entries c) p)
  = Ok (take c (drop ((Z.to_nat p - 1) * c) entries)).
Proof. reflexivity. Qed.

(** C8. The fetcher takes the page count from the [total] header of the
    first response, [totalPages = ceil(total / 25)]; an absent or
    unparsable header queues no further page, so that the first page is
    the whole result. Against a server that never fails and serves
    [N] entries in pages of 25, the fetch returns exactly the [N] entries,
    those of page 1 first. (Entries are objects, not arrays:
    [Array.prototype.flat] would splice an array.) *)
Theorem fetchStories_paginates (total : string) (entries : list tree) :
  parseInt total = Some (Z.of_nat (length entries)) →
  Forall (λ e, is_array e = false) entries →
  let N := Z.of_nat (length entries) in
  let P := totalPages (Some total) 25 in
  (25 * (P - 1) < N ≤ 25 * P)%Z
  ∧ (∃ rest,
       fetchStories (paged_server total entries 25) 25
       = (Ok (take 25 entries ++ rest), [])
       ∧ take 25 entries ++ rest = entries)
  ∧ (∀ (request : transport) (first : response),
       request None 0 = Ok first →
       (header_total first = None
        ∨ ∃ s, header_total first = Some s ∧ parseInt s = None) →
       additional_page_numbers (totalPages (header_total first) 25) = []
       ∧ fetchStories request 25 = (Ok (default [] (body_stories first)), [])).
Proof.
  intros Htotal Hobjs N P.
  assert (P = ceil_div N 25) as HP.
  { unfold P, totalPages. cbn [from_option id]. by rewrite Htotal. }
  pose proof (ceil_div_spec N 25 ltac:(lia)) as Hceil. rewrite <- HP in Hceil.
  split; [exact Hceil|]. split.
  - exists (drop 25 entries). split; [|apply take_drop].
    unfold fetchStories. cbn [paged_server header_total body_stories from_option id].
    fold P.
    set (ops := map (fetchAdditionalStories (paged_server total entries 25))
                    (additional_page_numbers P)).
    assert (Forall (λ op, settles (retried 5 1000 2 op)) ops) as Hsettle.
    { unfold ops. apply Forall_map, Forall_forall. intros p _.
      by rewrite retried_paged. }
    unfold processPromisesInBulks.
    rewrite (bulks_loop_settled 5 1000%Z 2%Z ops 20 ltac:(lia) Hsettle) by lia.
    cbn [fst snd app]. rewrite drop_0.
    change ((1 - 1) * 25) with 0. rewrite drop_0.
    assert (flat_map (λ op, failures (retried 5 1000 2 op)) ops = []) as ->.
    { unfold ops. rewrite flat_map_concat_map, map_map.
      erewrite map_ext; [|intros p; by rewrite retried_paged].
      clear. induction (additional_page_numbers P); [done|]. by cbn. }
    assert (flat_map (λ op, successes (retried 5 1000 2 op)) ops
            = drop 25 entries) as ->.
    { unfold ops. rewrite flat_map_concat_map, map_map.
      erewrite map_ext; [|intros p; by rewrite retried_paged].
      rewrite <- flat_map_concat_map. cbn [successes].
      unfold additional_page_numbers.
      rewrite (pages_from_two (λ k, take 25 (drop (k * 25) entries))).
      rewrite chunks_concat; [f_equal; lia|]. lia. }
    rewrite flat_no_arrays; [done|]. by apply Forall_drop.
  - intros request first Hfirst Hhdr.
    assert (totalPages (header_total first) 25 = 0%Z) as Hzero.
    { destruct Hhdr as [->|(s & -> & Hs)]; unfold totalPages; cbn [from_option id].
      - reflexivity.
      - by rewrite Hs. }
    split; [by rewrite Hzero|].
    unfold fetchStories. rewrite Hfirst, Hzero.
    change (additional_page_numbers 0) with (@nil Z). cbn.
    by rewrite app_nil_r.
Qed.

(** Sixty entries: three pages, the last one of ten. *)
Lemma fetchStories_paginates_witness :
  fetchStories (paged_server "60" (numbered_entries 60) 25) 25
  = (Ok (numbered_entries 60), []).
Proof.
  destruct (fetchStories_paginates "60" (numbered_entries 60))
    as (_ & (rest & Hfetch & Hall) & _).
  - reflexivity.
  - unfold numbered_entries. apply Forall_map, Forall_forall. done.
  - rewrite Hfetch. by rewrite Hall.
Defined.

(** The example of the specification: page 3 of 5 fails at every request.
    The fetch returns the entries of pages 1, 2, 4 and 5 and logs one
    failure. *)
Example page_three_of_five_fails :
  fetchStories (server_with_dead_page 3 "125" (numbered_entries 125) 25) 25
  = (Ok (take 50 (numbered_entries 125) ++ drop 75 (numbered_entries 125)),
     [ConsoleError "Failed to fetch:" max_retries_reached]).
Proof. vm_compute. reflexivity. Qed.

(** *** The outer retry *)

Section MarketFacts.
Context {T : Type}.
Variables (attempt : nat → result T) (n : nat).

(** [d] attempts in a row that fail with the recognised signal cost [d]
    rounds: log, log, pause 10 s, next attempt. *)
Lemma market_loop_rounds :
  ∀ d fuel j tr,
    (∀ i, j ≤ i < j + d → attempt i = Throw too_many_requests) →
    j + d ≤ n →
    market_loop (d + fuel) attempt (Some (Z.of_nat n)) j tr
    = market_loop fuel attempt (Some (Z.of_nat n)) (j + d) (tr ++ rounds d).
Proof.
  induction d as [|d IH]; intros fuel j tr Hfail Hle.
  - cbn. by rewrite Nat.add_0_r, app_nil_r.
  - cbn [Nat.add market_loop below].
    replace (Z.of_nat j <? Z.of_nat n)%Z with true
      by (symmetry; apply Z.ltb_lt; lia).
    rewrite (Hfail j) by lia. cbn [too_many_requests is_too_many_requests String.eqb].
    change (String.eqb "Too Many Requests" "Too Many Requests") with true.
    cbn iota. rewrite IH; [|intros i Hi; apply Hfail; lia|lia].
    replace (S j + d) with (j + S d) by lia.
    unfold rounds. cbn [replicate concat]. by rewrite <- app_assoc.
Qed.

Lemma market_run env k :
  retryAttempts_of env = Some (Z.of_nat n) →
  k ≤ n →
  (∀ j, j < k → attempt j = Throw too_many_requests) →
  fetchMarketStories env attempt
  = market_loop (S (n - k)) attempt (Some (Z.of_nat n)) k (rounds k).
Proof.
  intros Henv Hk Hfail. unfold fetchMarketStories. rewrite Henv.
  cbn [or_zero from_option id]. rewrite Nat2Z.id.
  replace (S n) with (k + S (n - k)) by lia.
  rewrite market_loop_rounds; [done| |lia].
  intros i Hi. apply Hfail. lia.
Qed.

End MarketFacts.

Lemma pauses_rounds k : pauses (rounds k) = replicate k 10000%Z.
Proof.
  induction k as [|k IH]; [done|].
  unfold rounds in *. cbn [replicate concat]. unfold pauses in *.
  rewrite omap_app, IH. reflexivity.
Qed.

Lemma attempts_made_rounds k : attempts_made (rounds k) = k.
Proof.
  induction k as [|k IH]; [done|].
  unfold rounds, attempts_made in *. cbn [replicate concat].
  rewrite omap_app, length_app, IH. reflexivity.
Qed.

(** The loop of [fetchMarketStories] on its own, with the attempts as an
    oracle. With [n] attempts configured (5 when the environment sets none),
    let the first [k <= n] attempts fail with the recognised signal. Each
    of them is logged, followed by a pause of 10000 ms and a fresh attempt
    (a call of [fetchStories], which starts at page 1). Then: if the
    budget is used up ([k = n]) the function raises the exhaustion error;
    if attempt [k] succeeds its stories are returned; if attempt [k] fails
    with anything else, that error is logged and re-raised at once. *)
Theorem market_retry_policy {T} (env : option string)
    (attempt : nat → result T) (n k : nat) :
  retryAttempts_of env = Some (Z.of_nat n) →
  k ≤ n →
  (∀ j, j < k → attempt j = Throw too_many_requests) →
  retryAttempts_of None = Some 5%Z
  ∧ pauses (rounds k) = replicate k 10000%Z
  ∧ attempts_made (rounds k) = k
  ∧ (k = n →
     fetchMarketStories env attempt = (Throw market_exhausted, rounds k))
  ∧ (k < n → ∀ stories, attempt k = Ok stories →
     fetchMarketStories env attempt = (Ok stories, rounds k ++ [Attempt]))
  ∧ (k < n → ∀ err, attempt k = Throw err →
     is_too_many_requests err = false →
     fetchMarketStories env attempt
     = (Throw (market_failed err),
        rounds k ++ [Attempt; Logged (ConsoleLogExn err)])).
Proof.
  intros Henv Hk Hfail.
  split; [reflexivity|]. split; [apply pauses_rounds|].
  split; [apply attempts_made_rounds|].
  rewrite (market_run attempt n env k Henv Hk Hfail).
  split; [|split].
  - intros ->. cbn [market_loop below].
    by replace (Z.of_nat n <? Z.of_nat n)%Z with false
      by (symmetry; apply Z.ltb_ge; lia).
  - intros Hlt stories Hok. cbn [market_loop below].
    replace (Z.of_nat k <? Z.of_nat n)%Z with true
      by (symmetry; apply Z.ltb_lt; lia).
    by rewrite Hok.
  - intros Hlt err Herr Hother. cbn [market_loop below].
    replace (Z.of_nat k <? Z.of_nat n)%Z with true
      by (symmetry; apply Z.ltb_lt; lia).
    by rewrite Herr, Hother.
Qed.

(** Two refusals, then success, under the default budget of 5. *)
Lemma market_retry_policy_witness :
  fetchMarketStories None busy_twice
  = (Ok [7; 8; 9], rounds 2 ++ [Attempt])
  ∧ pauses (rounds 2) = [10000%Z; 10000%Z].
Proof.
  destruct (market_retry_policy None busy_twice 5 2)
    as (_ & Hpauses & _ & _ & Hok & _).
  - reflexivity.
  - lia.
  - intros j Hj. unfold busy_twice.
    by replace (j <? 2) with true by (symmetry; apply Nat.ltb_lt; lia).
  - split; [|exact Hpauses]. apply Hok; [lia|reflexivity].
Defined.

(** As the program is wired, the signal cannot arise: [fetchStories] wraps
    whatever it catches in a new [Error], which is never the primitive
    string that [fetchMarketStories] compares with. A failed attempt is
    therefore final, and the fetcher of a market never pauses. *)
Lemma fetchStories_throws_Error request per_page e :
  (fetchStories request per_page).1 = Throw e →
  is_too_many_requests e = false.
Proof.
  unfold fetchStories. destruct (request None 0) as [first|e0| |];
    cbv beta iota zeta.
  - match goal with
    | |- context [processPromisesInBulks ?ops ?b ?r ?d ?m] =>
        destruct (processPromisesInBulks ops b r d m) as [[v|e1| |] log]
    end; cbn; intros [= <-] || discriminate; reflexivity.
  - by intros [= <-].
  - discriminate.
  - discriminate.
Qed.

Lemma market_loop_wrapped_errors {T} (attempt : nat → result T) ra :
  (∀ k e, attempt k = Throw e → is_too_many_requests e = false) →
  ∀ fuel retries tr,
    pauses (market_loop fuel attempt ra retries tr).2 = pauses tr.
Proof.
  intros Hwrapped. unfold pauses.
  induction fuel as [|fuel IH]; intros retries tr; cbn [market_loop]; [done|].
  destruct (below retries ra); [|done].
  destruct (attempt retries) as [v|e| |] eqn:Ha; cbn [snd];
    rewrite ?omap_app; cbn; rewrite ?app_nil_r; try done.
  rewrite (Hwrapped _ _ Ha). cbn. rewrite omap_app. cbn. by rewrite app_nil_r.
Qed.

Lemma fetchMarket_never_pauses env (request : nat → transport) :
  pauses (fetchMarket env request).2 = [].
Proof.
  unfold fetchMarket, fetchMarketStories.
  rewrite market_loop_wrapped_errors; [done|].
  intros k e. apply fetchStories_throws_Error.
Qed.


(** ** The whole-tree resolver *)

Lemma resolve_unfold skip fuel dictionary h story :
  resolveRelationsForStory_with skip (S fuel) dictionary h story
  = (do entries <- entries_of h story;
     foldM (resolve_entry dictionary skip
              (resolveRelationsForStory_with skip fuel dictionary) story)
           entries h).
Proof. reflexivity. Qed.

(** One call of the resolver, unfolded and evaluated as far as the heap
    and the entries are known. *)
Ltac resolver_call :=
  rewrite resolve_unfold; cbn -[resolveRelationsForStory_with].

(** The dictionary answers [id] with the hypothesis [H]. *)
Ltac dictionary_hit H :=
  unfold dict_get; cbn [prim_to_string]; rewrite H;
  cbn -[resolveRelationsForStory_with].

Section Cycle.
Variable dictionary : gmap string val.
Hypothesis HA : dictionary !! "A" = Some (VRef 0).
Hypothesis HB : dictionary !! "B" = Some (VRef 1).

Local Abbreviation run := (resolveRelationsForStory_with is_reserved).

(** Once the cycle is tied, a call on any of its four objects calls the
    next one: no amount of fuel lets it return. *)
Lemma tied_cycle_diverges fuel :
  run fuel dictionary heap_AB_tied (VRef 0) = Diverge
  ∧ run fuel dictionary heap_AB_tied (VRef 2) = Diverge
  ∧ run fuel dictionary heap_AB_tied (VRef 1) = Diverge
  ∧ run fuel dictionary heap_AB_tied (VRef 3) = Diverge.
Proof.
  induction fuel as [|fuel (IH0 & IH2 & IH1 & IH3)]; [done|].
  repeat resolver_call. by rewrite IH0, IH1, IH2, IH3.
Qed.

Lemma cycle_diverges fuel :
  run fuel dictionary heap_AB (VRef 0) = Diverge.
Proof.
  (* A: [uuid] is passed over, [content] is entered *)
  destruct fuel as [|fuel]; [done|]. resolver_call.
  (* A.content: [ref] holds "B", which the dictionary knows *)
  destruct fuel as [|fuel]; [done|]. resolver_call. dictionary_hit HB.
  (* B, then B.content: [ref] holds "A" *)
  destruct fuel as [|fuel]; [done|]. resolver_call.
  destruct fuel as [|fuel]; [done|]. resolver_call. dictionary_hit HA.
  (* back in A, in the tied heap *)
  change (resolveRelationsForStory_with is_reserved fuel dictionary _ (VRef 0))
    with (run fuel dictionary heap_AB_tied (VRef 0)).
  by rewrite (proj1 (tied_cycle_diverges fuel)).
Qed.

End Cycle.

(** The earlier revision does not pass over [uuid]: its first step on
    entry A replaces [A.uuid] by the object A itself and enters it again
    through that field, for ever. *)
Lemma legacy_cycle_diverges (dictionary : gmap string val) :
  dictionary !! "A" = Some (VRef 0) →
  ∀ fuel,
    resolveRelationsForStory_legacy fuel dictionary heap_AB (VRef 0) = Diverge.
Proof.
  intros HA. unfold resolveRelationsForStory_legacy.
  assert (∀ fuel,
            resolveRelationsForStory_with (λ _, false) fuel dictionary
              (<[0 := HObj [("uuid", VRef 0); ("content", VRef 2)]]> heap_AB)
              (VRef 0) = Diverge) as Hloop.
  { induction fuel as [|fuel IH]; [done|]. resolver_call.
    cbn -[resolveRelationsForStory_with] in IH. by rewrite IH. }
  intros [|fuel]; [done|]. resolver_call. dictionary_hit HA.
  cbn -[resolveRelationsForStory_with] in Hloop. by rewrite Hloop.
Qed.

Lemma dictionary_of_AB :
  createReferencedStoriesDictionary heap_AB stories_AB = Ok dictionary_AB.
Proof.
  vm_compute. reflexivity.
Qed.

(** C1, on the code. With the dictionary built from two entries that refer
    to each other, the whole-tree resolver does not return on entry A,
    whatever the fuel. In the current revision the two references are
    replaced and the walk then goes round the cycle for ever; in the
    earlier revision the walk is caught in entry A at once. No visited
    set and no depth cap bounds this recursion. *)
Theorem whole_tree_cycle_diverges :
  createReferencedStoriesDictionary heap_AB stories_AB = Ok dictionary_AB
  ∧ (∀ fuel,
       resolveRelationsForStory fuel dictionary_AB heap_AB (VRef 0) = Diverge)
  ∧ (∀ fuel,
       resolveRelationsForStory_legacy fuel dictionary_AB heap_AB (VRef 0)
       = Diverge).
Proof.
  split; [apply dictionary_of_AB|]. split.
  - intros fuel. apply cycle_diverges; reflexivity.
  - intros fuel. apply legacy_cycle_diverges; reflexivity.
Qed.

(** *** The identifier keys are never assigned *)

Lemma assoc_obj_put_ne {V} (k k' : string) (v : V) fs :
  k ≠ k' → assoc k' (obj_put k v fs) = assoc k' fs.
Proof.
  intros Hne. induction fs as [|[k0 v0] fs IH]; cbn.
  - by rewrite (proj2 (String.eqb_neq k k')).
  - destruct (String.eqb k0 k) eqn:Hk0.
    + apply String.eqb_eq in Hk0 as ->. cbn.
      by rewrite (proj2 (String.eqb_neq k k')).
    + destruct (key_before k k0 && _); cbn.
      * by rewrite (proj2 (String.eqb_neq k k')).
      * by rewrite IH.
Qed.

Lemma reserved_kept_refl h : reserved_kept h h.
Proof. by intros a k _. Qed.

Lemma reserved_kept_trans h1 h2 h3 :
  reserved_kept h1 h2 → reserved_kept h2 h3 → reserved_kept h1 h3.
Proof. intros H12 H23 a k Hk. by rewrite H23, H12. Qed.

Lemma set_prop_reserved_kept h target k x h' :
  is_reserved k = false →
  set_prop h target k x = Ok h' →
  reserved_kept h h'.
Proof.
  intros Hk Hset a' k' Hk'.
  assert (k ≠ k') as Hne by (intros ->; congruence).
  unfold set_prop in Hset. destruct target as [p|a]; [done|].
  destruct (h !! a) as [[elems|fields]|] eqn:Ha; [| |done].
  - destruct (array_index k) as [i|]; [|done].
    destruct (i <? length elems); [|done]. injection Hset as <-.
    unfold own_field. destruct (decide (a' = a)) as [->|Hother].
    + rewrite list_lookup_insert_eq by (by eapply lookup_lt_Some).
      by rewrite Ha.
    + by rewrite list_lookup_insert_ne.
  - injection Hset as <-.
    unfold own_field. destruct (decide (a' = a)) as [->|Hother].
    + rewrite list_lookup_insert_eq by (by eapply lookup_lt_Some).
      rewrite Ha. by apply assoc_obj_put_ne.
    + by rewrite list_lookup_insert_ne.
Qed.

Lemma alloc_array_reserved_kept h elems :
  reserved_kept h (alloc h (HArr elems)).1.
Proof.
  intros a k _. unfold own_field, alloc. cbn [fst].
  destruct (decide (a < length h)) as [Hlt|Hge].
  - by rewrite lookup_app_l.
  - rewrite (lookup_ge_None_2 h a) by lia.
    rewrite lookup_app_r by lia.
    by destruct (a - length h) as [|[|n]].
Qed.

Lemma foldM_invariant {A S} (R : S → S → Prop) (body : S → A → result S) :
  (∀ s, R s s) →
  (∀ s1 s2 s3, R s1 s2 → R s2 s3 → R s1 s3) →
  (∀ s x s', body s x = Ok s' → R s s') →
  ∀ xs s s', foldM body xs s = Ok s' → R s s'.
Proof.
  intros Hrefl Htrans Hbody. induction xs as [|x xs IH]; intros s s' Hrun.
  - injection Hrun as <-. apply Hrefl.
  - cbn in Hrun. destruct (body s x) as [s1| | |] eqn:Hx; try done.
    cbn in Hrun. eapply Htrans; [by eapply Hbody|by apply IH].
Qed.

Section ReservedKeys.
Variable dictionary : gmap string val.
Variable recur : heap → val → result heap.
Hypothesis recur_keeps : ∀ h v h', recur h v = Ok h' → reserved_kept h h'.

Lemma map_item_reserved_kept a st i st' :
  map_item dictionary recur a st i = Ok st' → reserved_kept st.1 st'.1.
Proof.
  unfold map_item. destruct (get_prop st.1 a (index_key i)) as [p|b].
  - intros [= <-]. apply reserved_kept_refl.
  - destruct (recur st.1 (VRef b)) as [h'| | |] eqn:Hrec; try done.
    cbn. intros [= <-]. by eapply recur_keeps.
Qed.

Lemma resolve_entry_reserved_kept story h kv h' :
  resolve_entry dictionary is_reserved recur story h kv = Ok h' →
  reserved_kept h h'.
Proof.
  destruct kv as [k v]. unfold resolve_entry.
  destruct (is_null v) eqn:Hnull; cbn [orb].
  { intros [= <-]. apply reserved_kept_refl. }
  destruct (is_reserved k) eqn:Hk.
  { intros [= <-]. apply reserved_kept_refl. }
  destruct v as [p|a].
  - destruct (truthy (dict_get dictionary p)); cycle 1.
    { intros [= <-]. apply reserved_kept_refl. }
    destruct (set_prop h story k (dict_get dictionary p)) as [h1| | |] eqn:Hset;
      try done.
    cbn. intros Hrec. eapply reserved_kept_trans.
    + by eapply set_prop_reserved_kept.
    + by eapply recur_keeps.
  - destruct (h !! a) as [[elems|fields]|] eqn:Ha; [| |done].
    + destruct (foldM (map_item dictionary recur (VRef a)) _ _)
        as [st| | |] eqn:Hmap; try done.
      cbn [bind]. destruct (alloc st.1 (HArr st.2)) as [h1 fresh] eqn:Halloc.
      intros Hset.
      apply (foldM_invariant (λ s s', reserved_kept s.1 s'.1)) in Hmap;
        [|intros; apply reserved_kept_refl
         |intros ???; apply reserved_kept_trans
         |intros ???; apply map_item_reserved_kept].
      eapply reserved_kept_trans; [exact Hmap|].
      eapply reserved_kept_trans; [|by eapply set_prop_reserved_kept].
      replace h1 with (alloc st.1 (HArr st.2)).1 by (by rewrite Halloc).
      apply alloc_array_reserved_kept.
    + destruct (recur h (VRef a)) as [h1| | |] eqn:Hrec; try done.
      cbn. intros Hset. eapply reserved_kept_trans.
      * by eapply recur_keeps.
      * by eapply set_prop_reserved_kept.
Qed.

End ReservedKeys.

Lemma resolve_reserved_kept dictionary :
  ∀ fuel h story h',
    resolveRelationsForStory fuel dictionary h story = Ok h' →
    reserved_kept h h'.
Proof.
  unfold resolveRelationsForStory.
  induction fuel as [|fuel IH]; intros h story h' Hrun; [done|].
  rewrite resolve_unfold in Hrun.
  destruct (entries_of h story) as [entries| | |]; try done. cbn in Hrun.
  eapply (foldM_invariant reserved_kept); [| | |exact Hrun].
  - apply reserved_kept_refl.
  - apply reserved_kept_trans.
  - intros s x s'. by apply resolve_entry_reserved_kept.
Qed.

(** X28. In the whole-tree strategy (current revision) the loop visits the
    keys [uuid] and [_uid] like every other entry of [Object.entries] and
    passes them over: when a run returns, no object of the heap, reached
    or not, has a different value under either key, whatever the entry
    and the dictionary, and also when that value is the identifier of
    another entry. *)
Theorem reserved_keys_never_substituted (fuel : nat)
    (dictionary : gmap string val) (h h' : heap) (story : val) :
  resolveRelationsForStory fuel dictionary h story = Ok h' →
  ∀ (a : addr) (k : string),
    k = "uuid" ∨ k = "_uid" →
    own_field h' a k = own_field h a k.
Proof.
  intros Hrun a k Hk. eapply resolve_reserved_kept; [exact Hrun|].
  by destruct Hk as [-> | ->].
Qed.

(** An entry whose [_uid] and [ref] both hold the identifier B of another
    entry: [ref] is replaced by that entry, [_uid] stays. *)
Lemma reserved_keys_never_substituted_witness :
  resolveRelationsForStory 3 dictionary_AB heap_reserved (VRef 0)
  = Ok heap_reserved_resolved
  ∧ dictionary_AB !! "B" = Some (VRef 1)
  ∧ own_field heap_reserved_resolved 0 "ref" = Some (VRef 1)
  ∧ own_field heap_reserved_resolved 0 "_uid" = own_field heap_reserved 0 "_uid".
Proof.
  assert (resolveRelationsForStory 3 dictionary_AB heap_reserved (VRef 0)
          = Ok heap_reserved_resolved) as Hrun by (vm_compute; reflexivity).
  split; [exact Hrun|]. split; [reflexivity|]. split; [reflexivity|].
  apply (reserved_keys_never_substituted 3 dictionary_AB heap_reserved
           heap_reserved_resolved (VRef 0) Hrun 0 "_uid").
  by right.
Defined.

(** The earlier revision has no such test. Its first step on an entry that
    the dictionary holds under the entry's own [uuid] replaces [uuid] by
    the entry itself, and the walk then enters the entry through that
    field again and again: it returns for no fuel. *)
Lemma legacy_diverges_on_own_uuid (dictionary : gmap string val) :
  dictionary !! "A" = Some (VRef 0) →
  ∀ fuel,
    resolveRelationsForStory_legacy fuel dictionary
      [HObj [("uuid", str "A")]] (VRef 0) = Diverge.
Proof.
  intros HA.
  assert (∀ fuel,
            resolveRelationsForStory_legacy fuel dictionary
              [HObj [("uuid", VRef 0)]] (VRef 0) = Diverge) as Hloop.
  { induction fuel as [|fuel IH]; [done|].
    unfold resolveRelationsForStory_legacy in *. resolver_call.
    by rewrite IH. }
  intros [|fuel]; [done|].
  unfold resolveRelationsForStory_legacy in *. resolver_call.
  dictionary_hit HA. by rewrite Hloop.
Qed.

(** C4. The earlier copy of the whole-tree resolver substitutes the
    identifier fields. On the component [{ _uid: "T", ref: "T" }], with
    the dictionary holding [{ name: "template" }] under ["T"], it returns
    with [_uid] replaced by that object, where the current copy returns
    with [_uid] as it was; and on an entry that the dictionary holds under
    the entry's own [uuid] it replaces [uuid] by the entry and never
    returns. *)
Theorem legacy_substitutes_reserved_keys :
  dictionary_template !! "T" = Some (VRef 1)
  ∧ own_field heap_component 0 "_uid" = Some (str "T")
  ∧ resolveRelationsForStory_legacy 3 dictionary_template
      heap_component (VRef 0)
    = Ok [ HObj [("_uid", VRef 1); ("ref", VRef 1)];
           HObj [("name", str "template")] ]
  ∧ resolveRelationsForStory 3 dictionary_template heap_component (VRef 0)
    = Ok [ HObj [("_uid", str "T"); ("ref", VRef 1)];
           HObj [("name", str "template")] ]
  ∧ (∀ (dictionary : gmap string val) (fuel : nat),
       dictionary !! "A" = Some (VRef 0) →
       resolveRelationsForStory_legacy fuel dictionary
         [HObj [("uuid", str "A")]] (VRef 0) = Diverge).
Proof.
  split; [reflexivity|]. split; [reflexivity|]. split; [|split].
  - vm_compute. reflexivity.
  - vm_compute. reflexivity.
  - intros dictionary fuel HA. by apply legacy_diverges_on_own_uuid.
Qed.

(** *** The depth cap of [replaceUUIDs] *)

(** [replaceUUIDs] is a total function: each substitution spends one of
    the [maxDepth] levels. On the mutually referring entries, with a cap
    of 2, the walk substitutes B, then A inside it, and leaves the next
    identifier as it is. *)
Example replaceUUIDs_stops_on_cycle :
  replaceUUIDs tree_dictionary_AB 2 (tree_get tree_A "content") 0
  = TObj [("ref",
       TObj [("uuid", TPrim (PStr "B"));
             ("content",
              TObj [("ref",
                 TObj [("uuid", TPrim (PStr "A"));
                       ("content", TObj [("ref", TPrim (PStr "B"))])])])])].
Proof. vm_compute. reflexivity. Qed.

Lemma replaceUUIDs_at_cap dictionary maxDepth content currentDepth :
  maxDepth ≤ currentDepth →
  replaceUUIDs dictionary maxDepth content currentDepth = content.
Proof.
  intros Hcap. unfold replaceUUIDs. by replace (maxDepth - currentDepth) with 0 by lia.
Qed.

(** [replaceUUIDs] copies the identifier fields of the object it is given:
    the walk of the earlier revision passes them over as well. *)
Lemma assoc_map_keep {V} (f : string * V → string * V) (k : string) fields :
  (∀ kv, (f kv).1 = kv.1) →
  (∀ v, f (k, v) = (k, v)) →
  assoc k (map f fields) = assoc k fields.
Proof.
  intros Hkey Hkeep. induction fields as [|[k0 v0] fields IH]; [done|].
  cbn. destruct (f (k0, v0)) as [k1 v1] eqn:Hf.
  pose proof (Hkey (k0, v0)) as Hk1. rewrite Hf in Hk1. cbn in Hk1. subst k1.
  destruct (String.eqb k0 k) eqn:Hk0; [|exact IH].
  apply String.eqb_eq in Hk0 as ->. rewrite Hkeep in Hf. by injection Hf as <-.
Qed.

Lemma replaceUUIDs_keeps_reserved dictionary maxDepth currentDepth fields k :
  is_reserved k = true →
  tree_get (replaceUUIDs dictionary maxDepth (TObj fields) currentDepth) k
  = tree_get (TObj fields) k.
Proof.
  intros Hk. unfold replaceUUIDs.
  destruct (maxDepth - currentDepth) as [|budget]; [done|].
  assert (String.eqb k "content" = false) as Hcontent.
  { unfold is_reserved in Hk. apply String.eqb_neq. intros ->. done. }
  cbn [replaceUUIDs_within].
  destruct (tree_truthy _ && tree_truthy _); cbn [tree_get]; f_equal.
  - apply assoc_map_keep.
    + intros [key value]. by destruct (String.eqb key "content").
    + intros v. by rewrite Hcontent.
  - apply assoc_map_keep.
    + intros [key value]. destruct (is_reserved key); [done|].
      destruct value as [[| | | |id]| |]; try done.
      by destruct (referenced dictionary id).
    + intros v. by rewrite Hk.
Qed.

(** ** The Dictionary Builder *)

Lemma dictionary_fold h stories :
  Forall (λ story, ∃ k, story_key h story = Ok k) stories →
  ∀ acc, ∃ d,
    reduce_stories h stories acc = Ok d
    ∧ ∀ id, d !! id = match last (bearing h id stories) with
                      | Some story => Some story
                      | None => acc !! id
                      end.
Proof.
  induction 1 as [|story stories [k Hk] _ IH]; intros acc.
  - exists acc. split; [done|]. intros id. reflexivity.
  - destruct (IH (<[k := story]> acc)) as (d & Hd & Hlookup).
    exists d. split.
    + unfold reduce_stories in *. cbn. rewrite Hk. cbn. exact Hd.
    + intros id. rewrite Hlookup. unfold bearing. cbn [List.filter].
      rewrite Hk. destruct (String.eqb k id) eqn:Hid.
      * apply String.eqb_eq in Hid as ->. rewrite last_cons.
        destruct (last (List.filter _ stories)); [done|].
        by rewrite lookup_insert_eq.
      * apply String.eqb_neq in Hid.
        destruct (last (List.filter _ stories)); [done|].
        by rewrite lookup_insert_ne.
Qed.

Lemma last_bearing h id stories story :
  last (bearing h id stories) = Some story →
  story ∈ stories ∧ story_key h story = Ok id.
Proof.
  intros Hlast. apply last_Some_elem_of in Hlast.
  apply list_elem_of_In, filter_In in Hlast as [Hin Hkey].
  split; [by apply list_elem_of_In|].
  destruct (story_key h story) as [k| | |]; try done.
  by apply String.eqb_eq in Hkey as ->.
Qed.

(** C9. For every list of entries (values whose [uuid] reads as a key) the
    builder returns a dictionary in which each identifier maps to the last
    entry of the list that bears it, and to nothing when no entry does.
    What it stores under an identifier is that element of the list itself;
    the builder reads the heap and returns no new one, so it resolves
    nothing. *)
Theorem dictionary_last_write_wins (h : heap) (stories : list val) :
  Forall (λ story, ∃ k, story_key h story = Ok k) stories →
  ∃ d, createReferencedStoriesDictionary h stories = Ok d
       ∧ (∀ id, d !! id = last (bearing h id stories))
       ∧ (∀ id story, d !! id = Some story →
            story ∈ stories ∧ story_key h story = Ok id).
Proof.
  intros Hkeys. destruct (dictionary_fold h stories Hkeys ∅) as (d & Hd & Hlookup).
  exists d. split; [exact Hd|].
  assert (∀ id, d !! id = last (bearing h id stories)) as Hlast.
  { intros id. rewrite Hlookup. by destruct (last (bearing h id stories)). }
  split; [exact Hlast|].
  intros id story Hstory. rewrite Hlast in Hstory. by apply last_bearing in Hstory.
Qed.

(** Identifier A is borne by the first and by the third entry: the third
    one is stored. *)
Lemma dictionary_last_write_wins_witness :
  ∃ d, createReferencedStoriesDictionary heap_duplicates [VRef 0; VRef 1; VRef 2]
       = Ok d
       ∧ d !! "A" = Some (VRef 2) ∧ d !! "B" = Some (VRef 1) ∧ d !! "C" = None.
Proof.
  destruct (dictionary_last_write_wins heap_duplicates [VRef 0; VRef 1; VRef 2])
    as (d & Hd & Hlast & _).
  - repeat constructor; eexists; reflexivity.
  - exists d. split; [exact Hd|]. rewrite !Hlast. by vm_compute.
Defined.

(** ** The declared-field resolver *)

(** *** What the code does with the table *)

(** [relationsMap] keeps one field per component type, the last of the
    table: of the three fields declared for [Target] only
    [funnelingLabels] is left. *)
Lemma relationsMap_keeps_last_field :
  relationsMap_of RELATIONS_TO_RESOLVE
  = [ ("Target", Some "funnelingLabels"); ("List", Some "label");
      ("Template", Some "story"); ("destination", Some "tagLabel");
      ("DestinationList", Some "funnelingLabels");
      ("DestinationCarousel", Some "funnelingLabels");
      ("ProductCarousel", Some "products");
      ("Stories", Some "muteUnmuteLabels"); ("Testimonial", Some "labels");
      ("gallery", Some "moreLabel");
      ("InfomeetingCard", Some "checkboxLabel");
      ("PopUp", Some "dialogTemplate") ].
Proof. vm_compute. reflexivity. Qed.

(** C3, on the code. The example of the specification: the component
    [{ component: "Target", modelLabel: "abc-uuid" }], [Target.modelLabel]
    declared in the table, the dictionary holding the entry "abc-uuid".
    The resolver finds the component, makes one iteration, changes
    nothing, and [modelLabel] still holds the identifier. *)
Theorem declared_field_modelLabel_unresolved :
  In "Target.modelLabel" RELATIONS_TO_RESOLVE
  ∧ dictionary_target !! "abc-uuid" = Some (VRef 4)
  ∧ findComponents 10 heap_target (VRef 2)
      (map fst (relationsMap_of RELATIONS_TO_RESOLVE)) = Ok [("0", "Target")]
  ∧ resolveNestedComponents dictionary_target 10 "content.body"
      RELATIONS_TO_RESOLVE heap_target (VRef 0) 10
    = Ok (heap_target, 1, NoChange)
  ∧ get_prop heap_target (VRef 3) "modelLabel" = str "abc-uuid".
Proof.
  split; [cbn; tauto|]. split; [reflexivity|].
  split; [vm_compute; reflexivity|].
  split; [vm_compute; reflexivity|reflexivity].
Qed.

(** A declared string field that the table still knows is replaced by the
    entry, and by itself when the dictionary has no such entry. *)
Example string_field_resolved :
  resolveNestedComponents dictionary_target 10 "content.body"
    RELATIONS_TO_RESOLVE (heap_label "abc-uuid") (VRef 0) 10
  = Ok (heap_label_resolved, 2, NoChange).
Proof. vm_compute. reflexivity. Qed.

(** A sequence of identifiers one of which the dictionary lacks: the
    element becomes [undefined], not the identifier it was. *)
Example sequence_with_absent_id :
  (do r <- resolveNestedComponents dictionary_target 10 "content.body"
             RELATIONS_TO_RESOLVE
             (heap_labels [str "abc-uuid"; str "no-such-entry"]) (VRef 0) 10;
   Ok (baseGet r.1.1 (VRef 3) ["funnelingLabels"; "0"],
       baseGet r.1.1 (VRef 3) ["funnelingLabels"; "1"]))
  = Ok (VRef 4, undefined).
Proof. vm_compute. reflexivity. Qed.

(** A sequence with a non-string element after a string: only the first
    element is tested, and the sequence is replaced. *)
Example sequence_with_a_number :
  (do r <- resolveNestedComponents dictionary_target 10 "content.body"
             RELATIONS_TO_RESOLVE
             (heap_labels [str "abc-uuid"; VPrim (PNum 5)]) (VRef 0) 10;
   Ok (baseGet r.1.1 (VRef 3) ["funnelingLabels"; "0"],
       baseGet r.1.1 (VRef 3) ["funnelingLabels"; "1"]))
  = Ok (VRef 4, undefined).
Proof. vm_compute. reflexivity. Qed.

(** An empty sequence, and one that starts with a non-string, are left. *)
Example sequence_left_untouched :
  resolveNestedComponents dictionary_target 10 "content.body"
    RELATIONS_TO_RESOLVE (heap_labels []) (VRef 0) 10
  = Ok (heap_labels [], 1, NoChange)
  ∧ resolveNestedComponents dictionary_target 10 "content.body"
      RELATIONS_TO_RESOLVE (heap_labels [VPrim (PNum 5); str "abc-uuid"])
      (VRef 0) 10
    = Ok (heap_labels [VPrim (PNum 5); str "abc-uuid"], 1, NoChange).
Proof. split; vm_compute; reflexivity. Qed.

(** *** The fixed-point loop *)

Lemma foldM_unchanged {A S} (flag : S → bool) (body : S → A → result S) :
  (∀ s x s', body s x = Ok s' → flag s' = false → s' = s) →
  ∀ xs s s', foldM body xs s = Ok s' → flag s' = false → s' = s.
Proof.
  intros Hbody. induction xs as [|x xs IH]; intros s s' Hrun Hflag.
  - by injection Hrun as <-.
  - cbn in Hrun. destruct (body s x) as [s1| | |] eqn:Hx; try done.
    cbn in Hrun. pose proof (IH _ _ Hrun Hflag) as ->.
    by eapply Hbody.
Qed.

Section Loop.
Variable dictionary : gmap string val.

(** Every assignment of the loop body raises the flag: a step that ends
    with the flag down has left its state as it was. *)
Lemma resolve_field_unchanged fields next st key st' :
  resolve_field dictionary fields next st key = Ok st' →
  st'.2 = false → st' = st.
Proof.
  unfold resolve_field. destruct fields as [fields|]; [|done].
  destruct (includes fields key); [|by intros [= <-]].
  destruct (get_prop st.1 next key) as [[| | | |uid]|a];
    try (by intros [= <-]).
  - destruct (set_prop _ _ _ _) as [h'| | |]; try done.
    cbn. by intros [= <-].
  - destruct (st.1 !! a) as [[uids|fs]|]; try (by intros [= <-]).
    destruct (negb _); [by intros [= <-]|].
    destruct (fetch_templates dictionary st.1 uids) as [fetched| | |]; try done.
    cbn [bind]. destruct (alloc st.1 (HArr fetched)) as [h' fresh].
    destruct (set_prop h' next key fresh) as [h''| | |]; try done.
    cbn. by intros [= <-].
Qed.

Lemma resolve_component_unchanged relationsMap components st found st' :
  resolve_component dictionary relationsMap components st found = Ok st' →
  st'.2 = false → st' = st.
Proof.
  destruct found as [pointer name]. unfold resolve_component.
  destruct (get st.1 components pointer) as [next| | |]; try done. cbn [bind].
  destruct (keys_of st.1 next) as [keys| | |]; try done. cbn [bind].
  apply (foldM_unchanged snd). intros s x s'. apply resolve_field_unchanged.
Qed.

(** A loop that is left through the flag ends with an iteration that
    found its components in the final heap and changed nothing. *)
Lemma nesting_loop_last_iteration fuel relationsMap components max :
  ∀ budget counter h h1 n,
    nesting_loop dictionary budget fuel relationsMap components max counter h
    = Ok (h1, n, NoChange) →
    ∃ found,
      findComponents fuel h1 components (map fst relationsMap) = Ok found
      ∧ foldM (resolve_component dictionary relationsMap components) found
              (h1, false) = Ok (h1, false).
Proof.
  induction budget as [|budget IH]; intros counter h h1 n Hrun; [done|].
  cbn [nesting_loop] in Hrun.
  destruct (findComponents fuel h components (map fst relationsMap))
    as [found| | |] eqn:Hfound; try done. cbn [bind] in Hrun.
  destruct (counter <=? max); [|done].
  destruct (foldM _ found (h, false)) as [st| | |] eqn:Hbody; try done.
  cbn [bind] in Hrun. destruct st as [h' changed]. cbn [fst snd] in Hrun.
  destruct changed.
  - by eapply IH.
  - injection Hrun as <- _.
    assert ((h', false) = (h, false)) as [= ->].
    { eapply (foldM_unchanged snd); [|exact Hbody|done].
      intros s x s'. apply resolve_component_unchanged. }
    exists found. by split.
Qed.

End Loop.

(** C5, as the code has it. When a run of the declared-field resolver on
    an entry is left through the no-change flag, and the entry still holds
    the same component list under the path, a second run changes nothing
    and is left through the flag after its first iteration, well before
    the cap. *)
Theorem declared_field_second_run (dictionary : gmap string val)
    (fuel : nat) (path : string) (relations : list string) (h h1 : heap)
    (storyData : val) (maxLevelOfNesting n : nat) :
  resolveNestedComponents dictionary fuel path relations h storyData
    maxLevelOfNesting = Ok (h1, n, NoChange) →
  get h1 storyData path = get h storyData path →
  resolveNestedComponents dictionary fuel path relations h1 storyData
    maxLevelOfNesting = Ok (h1, 1, NoChange).
Proof.
  unfold resolveNestedComponents. intros Hrun Hsame. rewrite Hsame.
  destruct (get h storyData path) as [components| | |]; try done.
  cbn [bind] in *. destruct (negb (truthy components)); [done|].
  apply nesting_loop_last_iteration in Hrun as (found & Hfound & Hbody).
  replace (maxLevelOfNesting + 2) with (S (S maxLevelOfNesting)) by lia.
  cbn [nesting_loop]. rewrite Hfound. cbn [bind Nat.leb].
  by rewrite Hbody.
Qed.

(** The story whose [funnelingLabels] names an entry of the dictionary:
    the first run resolves it in two iterations, the second run makes
    one and changes nothing. *)
Lemma declared_field_second_run_witness :
  resolveNestedComponents dictionary_target 10 "content.body"
    RELATIONS_TO_RESOLVE (heap_label "abc-uuid") (VRef 0) 10
  = Ok (heap_label_resolved, 2, NoChange)
  ∧ resolveNestedComponents dictionary_target 10 "content.body"
      RELATIONS_TO_RESOLVE heap_label_resolved (VRef 0) 10
    = Ok (heap_label_resolved, 1, NoChange).
Proof.
  assert (resolveNestedComponents dictionary_target 10 "content.body"
            RELATIONS_TO_RESOLVE (heap_label "abc-uuid") (VRef 0) 10
          = Ok (heap_label_resolved, 2, NoChange)) as Hfirst
    by (vm_compute; reflexivity).
  split; [exact Hfirst|].
  apply (declared_field_second_run dictionary_target 10 "content.body"
           RELATIONS_TO_RESOLVE (heap_label "abc-uuid") heap_label_resolved
           (VRef 0) 10 2 Hfirst).
  vm_compute. reflexivity.
Defined.

(** The story whose [funnelingLabels] names no entry of the dictionary is
    resolved as far as it can be: a run leaves the heap as it is. Yet each
    iteration assigns the identifier to the field again and raises the
    flag, so this run and every later one makes all eleven iterations
    that [counter <= 10] allows and is left through the cap, never through
    the flag. *)
Lemma second_run_reaches_cap :
  resolveNestedComponents dictionary_target 10 "content.body"
    RELATIONS_TO_RESOLVE (heap_label "no-such-entry") (VRef 0) 10
  = Ok (heap_label "no-such-entry", 11, CapReached)
  ∧ ¬ ∃ n,
      resolveNestedComponents dictionary_target 10 "content.body"
        RELATIONS_TO_RESOLVE (heap_label "no-such-entry") (VRef 0) 10
      = Ok (heap_label "no-such-entry", n, NoChange).
Proof.
  assert (resolveNestedComponents dictionary_target 10 "content.body"
            RELATIONS_TO_RESOLVE (heap_label "no-such-entry") (VRef 0) 10
          = Ok (heap_label "no-such-entry", 11, CapReached)) as Hrun
    by (vm_compute; reflexivity).
  split; [exact Hrun|]. intros [n Hn]. rewrite Hrun in Hn. discriminate.
Qed.

(** A chain of thirteen entries is deeper than the cap. The first run is
    stopped by the cap after eleven iterations with the label of entry
    [e11] (the component at address 47) still an identifier; the second
    run goes on and replaces it by entry [e12] (address 48). *)
Example second_run_after_cap_changes :
  (do r1 <- resolveNestedComponents (chain_dictionary 13) 100 "content.body"
              RELATIONS_TO_RESOLVE (chain_heap 13) (VRef 0) 10;
   do r2 <- resolveNestedComponents (chain_dictionary 13) 100 "content.body"
              RELATIONS_TO_RESOLVE r1.1.1 (VRef 0) 10;
   Ok (r1.1.2, r1.2,
       get_prop r1.1.1 (VRef 47) "funnelingLabels",
       get_prop r2.1.1 (VRef 47) "funnelingLabels"))
  = Ok (11, CapReached, str "e12", VRef 48).
Proof. vm_compute. reflexivity. Qed.

(** ** The fuel of the bounded loops is enough *)

(** The retrier runs out of fuel only when the operation itself never
    settles. *)
Lemma retry_loop_fuel_enough {T} (op : nat → result T) n m :
  ∀ fuel a d tr,
    n - a < fuel →
    (retry_loop fuel op n a d m tr).1 = Diverge →
    ∃ i, op i = Diverge.
Proof.
  induction fuel as [|fuel IH]; intros a d tr Hfuel Hrun; [lia|].
  cbn [retry_loop] in Hrun. destruct (a <? n) eqn:Han; [|done].
  apply Nat.ltb_lt in Han.
  destruct (op a) as [v|e| |] eqn:Hop; try done; [|by exists a].
  destruct (S a <? n); eapply IH; try exact Hrun; lia.
Qed.

Lemma promiseWithRetry_settles {T} (op : nat → result T) n d m :
  (∀ i, op i ≠ Diverge) →
  (promiseWithRetry op n d m).1 ≠ Diverge.
Proof.
  intros Hop Hrun. unfold promiseWithRetry in Hrun.
  apply retry_loop_fuel_enough in Hrun as [i Hi]; [|lia]. by apply (Hop i).
Qed.

(** So does the outer loop of a market. *)
Lemma market_loop_fuel_enough {T} (attempt : nat → result T) ra :
  ∀ fuel retries tr,
    Z.to_nat (or_zero ra) - retries < fuel →
    (market_loop fuel attempt ra retries tr).1 = Diverge →
    ∃ k, attempt k = Diverge.
Proof.
  induction fuel as [|fuel IH]; intros retries tr Hfuel Hrun; [lia|].
  cbn [market_loop] in Hrun.
  destruct (below retries ra) eqn:Hbelow; [|done].
  assert (retries < Z.to_nat (or_zero ra)) as Hlt.
  { destruct ra as [z|]; [|done]. cbn in *. apply Z.ltb_lt in Hbelow. lia. }
  destruct (attempt retries) as [v|e| |] eqn:Ha; try done; [|by exists retries].
  destruct (is_too_many_requests e); [|done].
  eapply IH; [|exact Hrun]. lia.
Qed.

Lemma nesting_loop_unfold dictionary budget fuel relationsMap components
    max counter h :
  nesting_loop dictionary (S budget) fuel relationsMap components max counter h
  = (do foundComponents <-
       findComponents fuel h components (map fst relationsMap);
     if counter <=? max then
       do st <- foldM (resolve_component dictionary relationsMap components)
                      foundComponents (h, false);
       if st.2 then
         nesting_loop dictionary budget fuel relationsMap components max
           (S counter) st.1
       else Ok (st.1, S counter, NoChange)
     else Ok (h, counter, CapReached)).
Proof. reflexivity. Qed.

(** One unit of budget more changes nothing in the fixed-point loop once
    the budget covers the iterations that [counter <= maxLevelOfNesting]
    leaves: the loop itself always ends, by the flag or by the cap. *)
Lemma nesting_loop_budget_enough dictionary fuel relationsMap components max :
  ∀ budget counter h,
    1 ≤ budget →
    max + 2 ≤ budget + counter →
    nesting_loop dictionary (S budget) fuel relationsMap components max counter h
    = nesting_loop dictionary budget fuel relationsMap components max counter h.
Proof.
  induction budget as [|budget IH]; intros counter h Hpos Hcover; [lia|].
  rewrite (nesting_loop_unfold _ (S budget)), (nesting_loop_unfold _ budget).
  destruct (findComponents _ _ _ _) as [found| | |]; try done. cbn [bind].
  destruct (counter <=? max) eqn:Hcap; [|done].
  apply Nat.leb_le in Hcap.
  destruct (foldM _ found (h, false)) as [st| | |]; try done. cbn [bind].
  destruct st.2; [|done].
  apply IH; lia.
Qed.

Lemma nesting_loop_iterations dictionary fuel relationsMap components max :
  ∀ budget counter h h' n exit,
    nesting_loop dictionary budget fuel relationsMap components max counter h
    = Ok (h', n, exit) →
    counter ≤ n ∧ n ≤ Nat.max counter (max + 1).
Proof.
  induction budget as [|budget IH]; intros counter h h' n exit Hrun; [done|].
  cbn [nesting_loop] in Hrun.
  destruct (findComponents _ _ _ _) as [found| | |]; try done.
  cbn [bind] in Hrun.
  destruct (counter <=? max) eqn:Hcap.
  - apply Nat.leb_le in Hcap.
    destruct (foldM _ found (h, false)) as [st| | |]; try done.
    cbn [bind] in Hrun. destruct st.2.
    + apply IH in Hrun. lia.
    + injection Hrun as _ <- _. lia.
  - injection Hrun as _ <- _. lia.
Qed.

(* ===================================================================== *)
(** * Part III: further properties of the code                             *)
(* ===================================================================== *)

(** ** The Backoff Retrier *)

Lemma failed_rounds_S k d m :
  failed_rounds (S k) d m
  = failed_rounds k d m ++ [Invoke; Sleep (d * m ^ Z.of_nat k)%Z].
Proof.
  unfold failed_rounds. rewrite seq_S, flat_map_app. cbn.
  by rewrite ?app_nil_r.
Qed.

Lemma invocations_failed_rounds k d m : invocations (failed_rounds k d m) = k.
Proof.
  induction k as [|k IH]; [done|].
  rewrite failed_rounds_S, invocations_app, IH. cbn. lia.
Qed.

Lemma sleeps_failed_rounds k d m :
  sleeps (failed_rounds k d m) = map (λ i, (d * m ^ Z.of_nat i)%Z) (seq 0 k).
Proof.
  induction k as [|k IH]; [done|].
  rewrite failed_rounds_S, sleeps_app, IH, seq_S, map_app. reflexivity.
Qed.

Lemma retry_loop_until_success {T} (op : nat → result T) n d m k v :
  k < n →
  (∀ i, i < k → ∃ e, op i = Throw e) →
  op k = Ok v →
  ∀ j fuel, j ≤ k → j < fuel →
    retry_loop fuel op n (k - j) (d * m ^ Z.of_nat (k - j))%Z m
      (failed_rounds (k - j) d m)
    = (Ok v, failed_rounds k d m ++ [Invoke]).
Proof.
  intros Hkn Hfail Hok. induction j as [|j IH]; intros fuel Hj Hfuel.
  - rewrite Nat.sub_0_r. destruct fuel as [|fuel]; [lia|]. cbn [retry_loop].
    replace (k <? n) with true by (symmetry; apply Nat.ltb_lt; lia).
    by rewrite Hok.
  - destruct fuel as [|fuel]; [lia|]. cbn [retry_loop].
    replace (k - S j <? n) with true by (symmetry; apply Nat.ltb_lt; lia).
    destruct (Hfail (k - S j)) as [e ->]; [lia|].
    replace (S (k - S j) <? n) with true by (symmetry; apply Nat.ltb_lt; lia).
    replace (S (k - S j)) with (k - j) by lia.
    replace (d * m ^ Z.of_nat (k - S j) * m)%Z with (d * m ^ Z.of_nat (k - j))%Z.
    2:{ replace (k - j) with (S (k - S j)) by lia.
        rewrite Nat2Z.inj_succ, Z.pow_succ_r by lia. ring. }
    replace (failed_rounds (k - S j) d m ++ [Invoke; Sleep (d * m ^ Z.of_nat (k - S j))%Z])
      with (failed_rounds (k - j) d m).
    2:{ replace (k - j) with (S (k - S j)) by lia. apply failed_rounds_S. }
    apply IH; lia.
Qed.

(** X1. An operation that fails [k] times and then succeeds, with [k]
    below the budget, is invoked [k + 1] times; the retrier sleeps
    [delay * multiplier^i] after failure [i] and returns the value of the
    successful invocation. *)
Theorem retry_succeeds_after_failures {T} (op : nat → result T)
    (retries : nat) (delay multiplier : Z) (k : nat) (v : T) :
  k < retries →
  (∀ i, i < k → ∃ e, op i = Throw e) →
  op k = Ok v →
  promiseWithRetry op retries delay multiplier
  = (Ok v, failed_rounds k delay multiplier ++ [Invoke])
  ∧ invocations (failed_rounds k delay multiplier ++ [Invoke]) = S k
  ∧ sleeps (failed_rounds k delay multiplier ++ [Invoke])
    = map (λ i, (delay * multiplier ^ Z.of_nat i)%Z) (seq 0 k).
Proof.
  intros Hk Hfail Hok. split; [|split].
  - unfold promiseWithRetry.
    pose proof (retry_loop_until_success op retries delay multiplier k v
                  Hk Hfail Hok k (S retries) ltac:(lia) ltac:(lia)) as H.
    rewrite Nat.sub_diag in H. cbn [Z.of_nat] in H.
    rewrite Z.pow_0_r, Z.mul_1_r in H. exact H.
  - rewrite invocations_app, invocations_failed_rounds. cbn. lia.
  - rewrite sleeps_app, sleeps_failed_rounds. cbn. by rewrite app_nil_r.
Qed.

(** Two failures, then success, within a budget of five. *)
Lemma retry_succeeds_after_failures_witness :
  promiseWithRetry (flaky 2 "page") 5 1000 2
  = (Ok "page", [Invoke; Sleep 1000; Invoke; Sleep 2000; Invoke]).
Proof.
  destruct (retry_succeeds_after_failures (flaky 2 "page") 5 1000%Z 2%Z 2 "page")
    as [Hrun _].
  - lia.
  - intros i Hi. exists (ExnString "ECONNRESET"). unfold flaky.
    by replace (i <? 2) with true by (symmetry; apply Nat.ltb_lt; lia).
  - reflexivity.
  - exact Hrun.
Defined.

Lemma geometric_S d m count :
  geometric d m (S count) = geometric d m count ++ [(d * m ^ Z.of_nat count)%Z].
Proof. unfold geometric. by rewrite seq_S, map_app. Qed.

(** The invariant of the loop: [attempts] invocations were made; while the
    budget lasts every failure was followed by its pause and the delay is
    [d * m ^ attempts]; after the last failure no pause was made. *)
Lemma retry_loop_shape {T} (op : nat → result T) n d m :
  ∀ fuel a delay tr,
    n - a < fuel → a ≤ n →
    invocations tr = a →
    (a < n → delay = (d * m ^ Z.of_nat a)%Z ∧ sleeps tr = geometric d m a) →
    (n ≤ a → sleeps tr = geometric d m (a - 1)) →
    sleeps (retry_loop fuel op n a delay m tr).2
    = geometric d m (invocations (retry_loop fuel op n a delay m tr).2 - 1)
    ∧ ∀ e, (retry_loop fuel op n a delay m tr).1 = Throw e →
        e = max_retries_reached
        ∧ invocations (retry_loop fuel op n a delay m tr).2 = n.
Proof.
  induction fuel as [|fuel IH]; intros a delay tr Hfuel Han Hinv Hbelow Hlast;
    [lia|].
  cbn [retry_loop]. destruct (a <? n) eqn:Hlt.
  - apply Nat.ltb_lt in Hlt. destruct (Hbelow Hlt) as [-> Hsleeps].
    assert (sleeps (tr ++ [Invoke])
            = geometric d m (invocations (tr ++ [Invoke]) - 1)) as Hstop.
    { rewrite sleeps_app, invocations_app, Hinv, Hsleeps.
      change (sleeps [Invoke]) with (@nil Z). rewrite app_nil_r.
      change (invocations [Invoke]) with 1.
      by replace (a + 1 - 1) with a by lia. }
    destruct (op a) as [v|e| |]; cbn [fst snd]; try (split; [exact Hstop|done]).
    destruct (S a <? n) eqn:Hnext.
    + apply Nat.ltb_lt in Hnext. apply IH; try lia.
      * rewrite invocations_app, Hinv. cbn. lia.
      * intros _. split.
        -- rewrite Nat2Z.inj_succ, Z.pow_succ_r by lia. ring.
        -- rewrite sleeps_app, Hsleeps, geometric_S. reflexivity.
    + apply Nat.ltb_ge in Hnext. apply IH; try lia.
      * rewrite invocations_app, Hinv. cbn. lia.
      * intros _. rewrite sleeps_app, Hsleeps.
        change (sleeps [Invoke]) with (@nil Z). rewrite app_nil_r.
        by replace (S a - 1) with a by lia.
  - apply Nat.ltb_ge in Hlt. cbn [fst snd]. split.
    + rewrite Hinv. by apply Hlast.
    + intros e [= <-]. split; [done|lia].
Qed.

(** X2. Whatever the operation does, the pauses of a run are
    [delay, delay * multiplier, delay * multiplier^2, ...], one fewer than
    the invocations (so none follows the last invocation); and when the
    retrier throws, it throws the exhaustion error, after exactly
    [retries] invocations: the operation's own error never leaves it. *)
Theorem retry_trace_shape :
  ∀ T (op : nat → result T) (retries : nat) (delay multiplier : Z),
    sleeps (promiseWithRetry op retries delay multiplier).2
    = geometric delay multiplier
        (invocations (promiseWithRetry op retries delay multiplier).2 - 1)
    ∧ ∀ e, (promiseWithRetry op retries delay multiplier).1 = Throw e →
        e = max_retries_reached
        ∧ invocations (promiseWithRetry op retries delay multiplier).2
          = retries.
Proof.
  intros T op retries delay multiplier. unfold promiseWithRetry.
  apply retry_loop_shape; try done; try lia.
  intros _. split; [|done]. cbn. rewrite Z.pow_0_r. ring.
Qed.

(** ** The Bulk Scheduler *)

(** X3. With a bulk size of 0 the loop index never advances: on a
    non-empty list the scheduler does not return, whatever the fuel. *)
Theorem bulk_size_zero_never_returns {T} (ops : list (nat → result (list T)))
    (maxRetries : nat) (initialBackoff delayMultiplier : Z) :
  ops ≠ [] →
  (∀ fuel acc,
     (bulks_loop fuel ops 0 maxRetries initialBackoff delayMultiplier 0 acc).1
     = Diverge)
  ∧ (processPromisesInBulks ops 0 maxRetries initialBackoff delayMultiplier).1
    = Diverge.
Proof.
  intros Hne.
  assert (∀ fuel acc,
            (bulks_loop fuel ops 0 maxRetries initialBackoff delayMultiplier
               0 acc).1 = Diverge) as Hloop.
  { induction fuel as [|fuel IH]; intros acc; [done|].
    cbn [bulks_loop]. destruct ops as [|op ops]; [done|]. cbn. apply IH. }
  split; [exact Hloop|apply Hloop].
Qed.

Lemma bulk_size_zero_never_returns_witness :
  (processPromisesInBulks five_ops 0 5 1000 2).1 = Diverge.
Proof.
  apply (bulk_size_zero_never_returns five_ops 5 1000%Z 2%Z). done.
Defined.

(** X4. The bulk size decides how many operations run at a time, not
    what the batch returns: any two positive sizes give the same result
    and the same log. *)
Theorem bulk_size_irrelevant {T} (ops : list (nat → result (list T)))
    (size1 size2 maxRetries : nat) (initialBackoff delayMultiplier : Z) :
  0 < size1 → 0 < size2 →
  Forall (λ op, settles (retried maxRetries initialBackoff delayMultiplier op))
         ops →
  processPromisesInBulks ops size1 maxRetries initialBackoff delayMultiplier
  = processPromisesInBulks ops size2 maxRetries initialBackoff delayMultiplier.
Proof.
  intros H1 H2 Hall. unfold processPromisesInBulks.
  rewrite (bulks_loop_settled maxRetries initialBackoff delayMultiplier
             ops size1 H1 Hall) by lia.
  rewrite (bulks_loop_settled maxRetries initialBackoff delayMultiplier
             ops size2 H2 Hall) by lia.
  reflexivity.
Qed.

Lemma bulk_size_irrelevant_witness :
  processPromisesInBulks five_ops 2 5 1000 2
  = processPromisesInBulks five_ops 20 5 1000 2.
Proof.
  apply (bulk_size_irrelevant five_ops 2 20 5 1000%Z 2%Z); [lia|lia|].
  unfold five_ops. repeat constructor.
Defined.

Lemma existsb_is_diverge_false {T} (f : (nat → result (list T)) → result (list T))
    (bulk : list (nat → result (list T))) :
  existsb is_diverge (map f bulk) = false →
  ∀ op, op ∈ bulk → f op ≠ Diverge.
Proof.
  intros Hnone op Hop Hdiv.
  apply list_elem_of_In in Hop.
  assert (existsb is_diverge (map f bulk) = true) as Htrue.
  { apply existsb_exists. exists (f op). split; [by apply in_map|].
    by rewrite Hdiv. }
  congruence.
Qed.

Lemma bulks_loop_blocked {T} (ops : list (nat → result (list T)))
    bulkSize maxRetries initialBackoff delayMultiplier :
  0 < bulkSize →
  Forall (λ op, retried maxRetries initialBackoff delayMultiplier op
                ≠ Unsupported) ops →
  ∀ fuel i acc,
    length ops - i < fuel →
    (∃ op, op ∈ drop i ops
           ∧ retried maxRetries initialBackoff delayMultiplier op = Diverge) →
    (bulks_loop fuel ops bulkSize maxRetries initialBackoff delayMultiplier
       i acc).1 = Diverge.
Proof.
  intros Hsize Hsupp. induction fuel as [|fuel IH]; intros i acc Hfuel Hhung;
    [lia|].
  cbn [bulks_loop]. destruct (i <? length ops) eqn:Hi.
  - apply Nat.ltb_lt in Hi.
    destruct (existsb is_diverge _) eqn:Hdiv; [done|].
    destruct (existsb is_unsupported _) eqn:Huns.
    { exfalso. apply existsb_exists in Huns as (r & Hr & Hru).
      apply in_map_iff in Hr as (op & <- & Hop).
      apply list_elem_of_In in Hop.
      assert (Forall (λ op, retried maxRetries initialBackoff delayMultiplier op
                            ≠ Unsupported) (take bulkSize (drop i ops)))
        as Hbulk by (apply Forall_take, Forall_drop, Hsupp).
      rewrite Forall_forall in Hbulk. specialize (Hbulk _ Hop).
      by destruct (retried _ _ _ op). }
    apply IH; [lia|].
    destruct Hhung as (op & Hop & Hopdiv). exists op. split; [|done].
    rewrite <- (take_drop bulkSize (drop i ops)) in Hop.
    apply elem_of_app in Hop as [Hin|Hin].
    + exfalso. by apply (existsb_is_diverge_false _ _ Hdiv op Hin).
    + by rewrite drop_drop in Hin.
  - apply Nat.ltb_ge in Hi. destruct Hhung as (op & Hop & _).
    rewrite drop_ge in Hop by lia. by apply elem_of_nil in Hop.
Qed.

(** X5. [Promise.allSettled] waits for every member of a bulk: when one
    operation never settles, the scheduler never returns, whatever the
    other operations do and wherever in the list the operation stands. *)
Theorem hung_operation_blocks_the_batch {T}
    (ops : list (nat → result (list T))) (op : nat → result (list T))
    (bulkSize maxRetries : nat) (initialBackoff delayMultiplier : Z) :
  0 < bulkSize →
  op ∈ ops →
  retried maxRetries initialBackoff delayMultiplier op = Diverge →
  Forall (λ op, retried maxRetries initialBackoff delayMultiplier op
                ≠ Unsupported) ops →
  (processPromisesInBulks ops bulkSize maxRetries initialBackoff
     delayMultiplier).1 = Diverge.
Proof.
  intros Hsize Hop Hhung Hsupp. unfold processPromisesInBulks.
  apply bulks_loop_blocked; [done|done|lia|].
  exists op. by rewrite drop_0.
Qed.

Lemma hung_operation_blocks_the_batch_witness :
  (processPromisesInBulks ops_with_hung_request 10 5 1000 2).1 = Diverge.
Proof.
  apply (hung_operation_blocks_the_batch ops_with_hung_request (λ _, Diverge)
           10 5 1000%Z 2%Z).
  - lia.
  - unfold ops_with_hung_request. apply list_elem_of_In. cbn. tauto.
  - reflexivity.
  - unfold ops_with_hung_request. repeat constructor; done.
Defined.

(** ** The Paginated Fetcher *)



Lemma failures_are_page_lost {T} (ops : list (nat → result (list T))) r d m :
  Forall (λ entry, entry = page_lost)
         (flat_map (λ op, failures (retried r d m op)) ops)
  ∧ length (flat_map (λ op, failures (retried r d m op)) ops) ≤ length ops.
Proof.
  induction ops as [|op ops [IH1 IH2]]; cbn; [split; [constructor|lia]|].
  unfold failures at 1 3. destruct (retried r d m op) as [v|e| |] eqn:Hrun;
    cbn; try (split; [done|lia]).
  split; [|lia]. constructor; [|done].
  unfold retried, promiseWithRetry in Hrun.
  pose proof (retry_loop_shape op r d m (S r) 0 d [] ltac:(lia) ltac:(lia)
                eq_refl) as Hshape.
  destruct Hshape as [_ Hthrow].
  - intros _. split; [|done]. cbn. rewrite Z.pow_0_r. ring.
  - intros Hr. by replace r with 0 by lia.
  - destruct (Hthrow e Hrun) as [-> _]. reflexivity.
Qed.

Lemma retry_loop_ext {T} (op op' : nat → result T) n m :
  (∀ i, i < n → op' i = op i) →
  ∀ fuel a d tr,
    retry_loop fuel op' n a d m tr = retry_loop fuel op n a d m tr.
Proof.
  intros Hext. induction fuel as [|fuel IH]; intros a d tr; [done|].
  cbn [retry_loop]. destruct (a <? n) eqn:Han; [|done].
  rewrite (Hext a) by (by apply Nat.ltb_lt).
  destruct (op a); try done. destruct (S a <? n); apply IH.
Qed.

Lemma retried_ext {T} (op op' : nat → result (list T)) n d m :
  (∀ i, i < n → op' i = op i) →
  retried n d m op' = retried n d m op.
Proof.
  intros Hext. unfold retried, promiseWithRetry.
  by rewrite (retry_loop_ext op op' n m Hext).
Qed.


Lemma bulks_loop_ext {T} (ops ops' : list (nat → result (list T))) b r d m :
  map (retried r d m) ops' = map (retried r d m) ops →
  ∀ fuel i acc,
    bulks_loop fuel ops' b r d m i acc = bulks_loop fuel ops b r d m i acc.
Proof.
  intros Hsame.
  assert (length ops' = length ops) as Hlength.
  { by rewrite <- (length_map (retried r d m) ops'), Hsame, length_map. }
  induction fuel as [|fuel IH]; intros i acc; [done|].
  cbn [bulks_loop]. rewrite Hlength.
  rewrite <- !List.firstn_map, <- !List.skipn_map, Hsame.
  destruct (i <? length ops); [|done].
  destruct (existsb is_diverge _); [done|].
  destruct (existsb is_unsupported _); [done|]. apply IH.
Qed.

(** The pages queued are those from 2 to [totalPages], each once. *)
Lemma additional_page_numbers_spec (total_pages : Z) :
  NoDup (additional_page_numbers total_pages)
  ∧ ∀ page, page ∈ additional_page_numbers total_pages
            ↔ (2 ≤ page ≤ total_pages)%Z.
Proof.
  unfold additional_page_numbers, additional_page_numbers_of.
  split.
  - apply NoDup_fmap_2; [|apply NoDup_seq]. intros x y Hxy. lia.
  - intros page. rewrite list_elem_of_fmap. split.
    + intros (k & -> & Hk). apply elem_of_seq in Hk. lia.
    + intros Hpage. exists (Z.to_nat (page - 2)). split; [lia|].
      apply elem_of_seq. lia.
Qed.



(** X7. What the fetcher returns and logs is decided by the first request
    and by the first five requests for each page from 2 to [totalPages]:
    two transports that agree on these give the same run, whatever they
    answer to a request for page 1 by its number, for a page beyond
    [totalPages], or to a sixth request for a page. No such request is
    made. *)
Theorem queued_pages_are_two_to_total (request request' : transport)
    (per_page : Z) :
  request' None 0 = request None 0 →
  (∀ first page i,
     request None 0 = Ok first →
     (2 ≤ page ≤ totalPages (header_total first) per_page)%Z →
     i < 5 →
     request' (Some page) i = request (Some page) i) →
  fetchStories request' per_page = fetchStories request per_page.
Proof.
  intros Hfirst Hpages. unfold fetchStories. rewrite Hfirst.
  destruct (request None 0) as [first| | |] eqn:Hrequest; try done.
  cbv beta iota zeta.
  set (pages := additional_page_numbers _).
  assert (map (retried 5 1000 2) (map (fetchAdditionalStories request') pages)
          = map (retried 5 1000 2) (map (fetchAdditionalStories request) pages))
    as Hsame.
  { rewrite !map_map. apply map_ext_in. intros page Hpage.
    apply retried_ext. intros i Hi. unfold fetchAdditionalStories.
    rewrite (Hpages first page i eq_refl); [done| |exact Hi].
    apply additional_page_numbers_spec. by apply list_elem_of_In. }
  unfold processPromisesInBulks. rewrite !length_map.
  by rewrite (bulks_loop_ext _ _ 20 5 1000%Z 2%Z Hsame).
Qed.

Lemma queued_pages_are_two_to_total_witness :
  fetchStories (server_with_dead_page 1 "50" (numbered_entries 50) 25) 25
  = fetchStories (paged_server "50" (numbered_entries 50) 25) 25.
Proof.
  apply (queued_pages_are_two_to_total
           (paged_server "50" (numbered_entries 50) 25)
           (server_with_dead_page 1 "50" (numbered_entries 50) 25) 25).
  - reflexivity.
  - intros first page i [= <-] Hpage _.
    change (totalPages _ 25) with 2%Z in Hpage.
    unfold server_with_dead_page.
    destruct (decide (Some page = Some 1%Z)) as [[= ->]|_]; [lia|done].
Defined.

(** *** The outer retry *)

Lemma market_loop_attempts_when_wrapped {T} (attempt : nat → result T) ra :
  (∀ k e, attempt k = Throw e → is_too_many_requests e = false) →
  ∀ fuel retries tr,
    attempts_made (market_loop fuel attempt ra retries tr).2
    ≤ attempts_made tr + 1.
Proof.
  intros Hwrapped. unfold attempts_made.
  induction fuel as [|fuel IH]; intros retries tr; cbn [market_loop]; [cbn; lia|].
  destruct (below retries ra); [|cbn; lia].
  destruct (attempt retries) as [v|e| |] eqn:Ha; cbn [snd];
    rewrite ?omap_app, ?length_app; cbn; try lia.
  rewrite (Hwrapped _ _ Ha). cbn. rewrite omap_app, length_app. cbn. lia.
Qed.

(** X8. As the fetcher is wired, a market gets one attempt: [fetchStories]
    throws [Error] objects only, which the test
    [err === 'Too Many Requests'] never recognises. A failed first request
    ends the market at once, without a pause, with the error wrapped
    twice. *)
Theorem fetchMarket_single_attempt (env : option string)
    (request : nat → transport) (n : Z) (e : exn) :
  retryAttempts_of env = Some n →
  (0 < n)%Z →
  request 0 None 0 = Throw e →
  fetchMarket env request
  = (Throw (market_failed (fetch_failed e)),
     [Attempt; Logged (ConsoleLogExn (fetch_failed e))])
  ∧ ∀ env' request',
      attempts_made (fetchMarket env' request').2 ≤ 1
      ∧ pauses (fetchMarket env' request').2 = [].
Proof.
  intros Henv Hn Hfail. split.
  - unfold fetchMarket, fetchMarketStories. rewrite Henv.
    cbn [or_zero from_option id market_loop below].
    replace (Z.of_nat 0 <? n)%Z with true by (symmetry; apply Z.ltb_lt; lia).
    unfold fetchStories. rewrite Hfail. reflexivity.
  - intros env' request'. split.
    + unfold fetchMarket, fetchMarketStories.
      etrans; [apply market_loop_attempts_when_wrapped|done].
      intros k e'. apply fetchStories_throws_Error.
    + unfold fetchMarket, fetchMarketStories.
      rewrite market_loop_wrapped_errors; [done|].
      intros k e'. apply fetchStories_throws_Error.
Qed.

(** Even the very signal the loop waits for is not recognised once
    [fetchStories] has wrapped it. *)
Lemma fetchMarket_single_attempt_witness :
  fetchMarket None (λ _, refusing_server)
  = (Throw (market_failed (fetch_failed too_many_requests)),
     [Attempt; Logged (ConsoleLogExn (fetch_failed too_many_requests))]).
Proof.
  apply (fetchMarket_single_attempt None (λ _, refusing_server) 5
           too_many_requests); [reflexivity|lia|reflexivity].
Defined.

(** X9. A retry count that does not parse, or is not positive, leaves the
    loop no iteration: the market fails with the exhaustion error before
    any fetch is attempted. *)
Theorem market_without_budget {T} (env : option string)
    (attempt : nat → result T) :
  (retryAttempts_of env = None
   ∨ ∃ n, retryAttempts_of env = Some n ∧ (n ≤ 0)%Z) →
  fetchMarketStories env attempt = (Throw market_exhausted, []).
Proof.
  intros Hbudget. unfold fetchMarketStories.
  destruct Hbudget as [-> | (n & -> & Hn)].
  - reflexivity.
  - cbn [or_zero from_option id]. replace (Z.to_nat n) with 0 by lia.
    cbn [market_loop below].
    by replace (Z.of_nat 0 <? n)%Z with false by (symmetry; apply Z.ltb_ge; lia).
Qed.

Lemma market_without_budget_witness :
  fetchMarketStories (Some "five") busy_twice = (Throw market_exhausted, [])
  ∧ fetchMarketStories (Some "0") busy_twice = (Throw market_exhausted, []).
Proof.
  split.
  - apply (market_without_budget (Some "five") busy_twice). by left.
  - apply (market_without_budget (Some "0") busy_twice). right.
    exists 0%Z. by split.
Defined.

(** ** The whole-tree resolver of the earlier revision *)

Lemma assoc_obj_put_eq {V} (k : string) (v : V) fs :
  assoc k (obj_put k v fs) = Some v.
Proof.
  induction fs as [|[k0 v0] fs IH]; cbn.
  - by rewrite String.eqb_refl.
  - destruct (String.eqb k0 k) eqn:Hk0; cbn.
    + by rewrite String.eqb_refl.
    + destruct (key_before k k0 && _); cbn.
      * by rewrite String.eqb_refl.
      * by rewrite Hk0.
Qed.

Lemma set_prop_keeps_uuid h target k x h' (b : addr) :
  set_prop h target k x = Ok h' →
  (target = VRef b → k ≠ "uuid") →
  own_field h' b "uuid" = own_field h b "uuid".
Proof.
  intros Hset Hk. unfold set_prop in Hset. destruct target as [p|a]; [done|].
  destruct (h !! a) as [[elems|fields]|] eqn:Ha; [| |done].
  - destruct (array_index k) as [i|]; [|done].
    destruct (i <? length elems); [|done]. injection Hset as <-.
    unfold own_field. destruct (decide (b = a)) as [->|Hother].
    + rewrite list_lookup_insert_eq by (by eapply lookup_lt_Some).
      by rewrite Ha.
    + by rewrite list_lookup_insert_ne.
  - injection Hset as <-.
    unfold own_field. destruct (decide (b = a)) as [->|Hother].
    + rewrite list_lookup_insert_eq by (by eapply lookup_lt_Some).
      rewrite Ha. apply assoc_obj_put_ne. by apply Hk.
    + by rewrite list_lookup_insert_ne.
Qed.

Lemma set_prop_uuid_self h (b : addr) x h' :
  set_prop h (VRef b) "uuid" x = Ok h' →
  (∃ u, own_field h b "uuid" = Some u) →
  own_field h' b "uuid" = Some x.
Proof.
  intros Hset [u Hu]. unfold set_prop in Hset. unfold own_field in *.
  destruct (h !! b) as [[elems|fields]|] eqn:Hb; try done.
  injection Hset as <-.
  rewrite list_lookup_insert_eq by (by eapply lookup_lt_Some).
  apply assoc_obj_put_eq.
Qed.

Section LegacyTie.
Variables (dictionary : gmap string val) (b : addr) (id : string).
Hypothesis dictionary_id : dictionary !! id = Some (VRef b).

Local Abbreviation step := (resolve_entry dictionary (λ _, false)).

Section Step.
Variable recur : heap → val → result heap.
Hypothesis recur_tied :
  ∀ h v h', tied b id h → recur h v = Ok h' → tied b id h' ∧ v ≠ VRef b.

Lemma tied_same h h' :
  own_field h' b "uuid" = own_field h b "uuid" → tied b id h → tied b id h'.
Proof. unfold tied. by intros ->. Qed.

Lemma map_item_tied arr st i st' :
  map_item dictionary recur arr st i = Ok st' →
  tied b id st.1 → tied b id st'.1.
Proof.
  unfold map_item. destruct (get_prop st.1 arr (index_key i)) as [p|c].
  - by intros [= <-].
  - destruct (recur st.1 (VRef c)) as [h'| | |] eqn:Hrec; try done.
    cbn. intros [= <-] Htied. by destruct (recur_tied _ _ _ Htied Hrec).
Qed.

Lemma map_items_tied arr : ∀ indices st st',
  foldM (map_item dictionary recur arr) indices st = Ok st' →
  tied b id st.1 → tied b id st'.1.
Proof.
  induction indices as [|i indices IH]; intros st st' Hrun Htied.
  - by injection Hrun as <-.
  - cbn [foldM] in Hrun.
    destruct (map_item dictionary recur arr st i) as [st1| | |] eqn:Hi; try done.
    cbn [bind] in Hrun. eapply IH; [exact Hrun|]. by eapply map_item_tied.
Qed.

(** A step that does not assign the [uuid] of [b] keeps the tie. *)
Lemma step_keeps_tie story h k v h' :
  (story = VRef b → k ≠ "uuid") →
  step recur story h (k, v) = Ok h' →
  tied b id h → tied b id h'.
Proof.
  intros Hk. unfold resolve_entry.
  destruct (is_null v); cbn [orb]; [by intros [= <-]|].
  destruct v as [p|a].
  - destruct (truthy (dict_get dictionary p)); [|by intros [= <-]].
    destruct (set_prop h story k (dict_get dictionary p)) as [h1| | |] eqn:Hset;
      try done.
    cbn. intros Hrec Htied.
    apply (recur_tied h1 (dict_get dictionary p) h'); [|exact Hrec].
    eapply tied_same; [|exact Htied]. by eapply set_prop_keeps_uuid.
  - destruct (h !! a) as [[elems|fields]|] eqn:Ha; [| |done].
    + destruct (foldM (map_item dictionary recur (VRef a)) _ _)
        as [st| | |] eqn:Hmap; try done.
      cbn [bind]. destruct (alloc st.1 (HArr st.2)) as [h1 fresh] eqn:Halloc.
      intros Hset Htied.
      apply map_items_tied in Hmap; [|exact Htied]. cbn [fst] in Hmap.
      eapply tied_same; [by eapply set_prop_keeps_uuid|].
      eapply tied_same; [|exact Hmap].
      replace h1 with (alloc st.1 (HArr st.2)).1 by (by rewrite Halloc).
      by apply alloc_array_reserved_kept.
    + destruct (recur h (VRef a)) as [h1| | |] eqn:Hrec; try done.
      cbn. intros Hset Htied.
      eapply tied_same; [by eapply set_prop_keeps_uuid|].
      by destruct (recur_tied _ _ _ Htied Hrec).
Qed.

(** The step at a [uuid] that holds [id] assigns the object at [b] and
    enters it; the step at the [uuid] of [b] once it holds [b] enters it
    again. Neither returns. *)
Lemma step_at_uuid_fails story h v h' :
  v = str id ∨ (v = VRef b ∧ story = VRef b) →
  tied b id h →
  step recur story h ("uuid", v) ≠ Ok h'.
Proof.
  intros Hv Htied Hrun. unfold resolve_entry in Hrun.
  destruct Hv as [-> | [-> ->]]; cbn [is_null str orb] in Hrun.
  - unfold dict_get in Hrun. cbn [prim_to_string] in Hrun.
    rewrite dictionary_id in Hrun. cbn -[set_prop] in Hrun.
    destruct (set_prop h story "uuid" (VRef b)) as [h1| | |] eqn:Hset; try done.
    cbn [bind] in Hrun.
    assert (tied b id h1) as Htied1.
    { destruct (decide (story = VRef b)) as [->|Hother].
      - right. eapply set_prop_uuid_self; [exact Hset|].
        destruct Htied as [Hu|Hu]; eauto.
      - eapply tied_same; [|exact Htied].
        eapply set_prop_keeps_uuid; [exact Hset|done]. }
    by destruct (recur_tied _ _ _ Htied1 Hrun).
  - assert (∃ fields, h !! b = Some (HObj fields)) as [fields Hb].
    { unfold tied, own_field in Htied.
      destruct (h !! b) as [[|fields]|]; [|by eexists|]; by destruct Htied. }
    rewrite Hb in Hrun.
    destruct (recur h (VRef b)) as [h1| | |] eqn:Hrec; try done.
    by destruct (recur_tied _ _ _ Htied Hrec).
Qed.

End Step.

(** Entries whose [uuid] entries all fail, with one of them present: the
    loop over them does not return. *)
Lemma loop_over_entries_fails recur story :
  (∀ h v h', tied b id h → recur h v = Ok h' → tied b id h' ∧ v ≠ VRef b) →
  ∀ entries h h',
    tied b id h →
    (∃ v, In ("uuid", v) entries) →
    (∀ v, In ("uuid", v) entries → ∀ h1 h2, tied b id h1 →
          step recur story h1 ("uuid", v) ≠ Ok h2) →
    foldM (step recur story) entries h ≠ Ok h'.
Proof.
  intros Hrec. induction entries as [|[k v] entries IH];
    intros h h' Htied [u Hu] Hfail Hrun; [done|].
  cbn [foldM] in Hrun.
  destruct (step recur story h (k, v)) as [h1| | |] eqn:Hstep; try done.
  cbn [bind] in Hrun. destruct (decide (k = "uuid")) as [->|Hk].
  - eapply Hfail; [by left|exact Htied|exact Hstep].
  - eapply IH; [| | |exact Hrun].
    + eapply step_keeps_tie; [exact Hrec| |exact Hstep|exact Htied]. done.
    + destruct Hu as [[= ? ?]|Hu]; [done|by exists u].
    + intros v' Hv'. apply Hfail. by right.
Qed.

Lemma loop_keeps_tie recur story :
  (∀ h v h', tied b id h → recur h v = Ok h' → tied b id h' ∧ v ≠ VRef b) →
  story ≠ VRef b →
  ∀ entries h h',
    foldM (step recur story) entries h = Ok h' → tied b id h → tied b id h'.
Proof.
  intros Hrec Hstory. induction entries as [|[k v] entries IH];
    intros h h' Hrun Htied.
  - by injection Hrun as <-.
  - cbn [foldM] in Hrun.
    destruct (step recur story h (k, v)) as [h1| | |] eqn:Hstep; try done.
    cbn [bind] in Hrun. eapply IH; [exact Hrun|].
    eapply step_keeps_tie; [exact Hrec| |exact Hstep|exact Htied]. done.
Qed.

Lemma entries_of_object h (a : addr) fields :
  h !! a = Some (HObj fields) →
  entries_of h (VRef a)
  = Ok (map (λ k, (k, default undefined (assoc k fields))) (map fst fields)).
Proof. intros Ha. unfold entries_of, keys_of, get_prop. by rewrite Ha. Qed.

Lemma assoc_Some_key {V} k (v : V) fields :
  assoc k fields = Some v → In k (map fst fields).
Proof.
  induction fields as [|[k0 v0] fields IH]; [done|]. cbn.
  destruct (String.eqb k0 k) eqn:Hk0.
  - apply String.eqb_eq in Hk0. by left.
  - intros Hv. right. by apply IH.
Qed.

(** A call on the object at [b] does not return, and a call that returns
    has kept the tie. *)
Lemma legacy_tie :
  ∀ fuel h story h',
    tied b id h →
    resolveRelationsForStory_legacy fuel dictionary h story = Ok h' →
    tied b id h' ∧ story ≠ VRef b.
Proof.
  unfold resolveRelationsForStory_legacy.
  induction fuel as [|fuel IH]; intros h story h' Htied Hrun; [done|].
  rewrite resolve_unfold in Hrun.
  destruct (decide (story = VRef b)) as [->|Hother].
  - exfalso.
    assert (∃ fields u, h !! b = Some (HObj fields)
                        ∧ assoc "uuid" fields = Some u
                        ∧ (u = str id ∨ u = VRef b)) as (fields & u & Hb & Hu & Hcase).
    { unfold tied, own_field in Htied.
      destruct (h !! b) as [[|fields]|]; try (by destruct Htied).
      destruct Htied as [Hu|Hu]; eauto 6. }
    rewrite (entries_of_object _ _ _ Hb) in Hrun. cbn [bind] in Hrun.
    eapply (loop_over_entries_fails _ _ IH); [exact Htied| | |exact Hrun].
    + exists u. apply in_map_iff. exists "uuid". rewrite Hu. split; [done|].
      by eapply assoc_Some_key.
    + intros v Hv h1 h2 Htied1.
      apply in_map_iff in Hv as (k & [= -> <-] & _). rewrite Hu.
      change (default undefined (Some u)) with u.
      apply step_at_uuid_fails; [exact IH| |exact Htied1].
      destruct Hcase as [->| ->]; [by left|by right].
  - split; [|done].
    destruct (entries_of h story) as [entries| | |]; try done.
    cbn [bind] in Hrun. by eapply (loop_keeps_tie _ _ IH).
Qed.

(** A call on an entry whose [uuid] holds [id] does not return either:
    its [uuid] is replaced by the object at [b], which is entered. *)
Lemma legacy_entry_fails fuel h (a : addr) h' :
  own_field h a "uuid" = Some (str id) →
  tied b id h →
  resolveRelationsForStory_legacy fuel dictionary h (VRef a) ≠ Ok h'.
Proof.
  intros Ha Htied Hrun. destruct fuel as [|fuel]; [done|].
  unfold resolveRelationsForStory_legacy in Hrun.
  rewrite resolve_unfold in Hrun.
  assert (∃ fields, h !! a = Some (HObj fields)
                    ∧ assoc "uuid" fields = Some (str id)) as (fields & Hobj & Hu).
  { unfold own_field in Ha. destruct (h !! a) as [[|fields]|]; try done.
    by exists fields. }
  rewrite (entries_of_object _ _ _ Hobj) in Hrun. cbn [bind] in Hrun.
  eapply (loop_over_entries_fails _ _ (legacy_tie fuel));
    [exact Htied| | |exact Hrun].
  - exists (str id). apply in_map_iff. exists "uuid". rewrite Hu. split; [done|].
    by eapply assoc_Some_key.
  - intros v Hv h1 h2 Htied1.
    apply in_map_iff in Hv as (k & [= -> <-] & _). rewrite Hu.
    change (default undefined (Some (str id))) with (str id).
    apply step_at_uuid_fails; [apply legacy_tie|by left|exact Htied1].
Qed.

End LegacyTie.

(** X10. The earlier revision of the whole-tree resolver does not pass
    over [uuid]. On an entry whose identifier the dictionary knows, the
    dictionary holding under it an entry that bears it (that entry itself,
    or a later duplicate), the resolver replaces [uuid] by that object,
    enters it, and finds it under its own [uuid] again: the call returns
    for no fuel. *)
Theorem legacy_never_returns_on_entry (dictionary : gmap string val)
    (h : heap) (a b : addr) (id : string) (fuel : nat) (h' : heap) :
  own_field h a "uuid" = Some (str id) →
  dictionary !! id = Some (VRef b) →
  own_field h b "uuid" = Some (str id) →
  resolveRelationsForStory_legacy fuel dictionary h (VRef a) ≠ Ok h'.
Proof.
  intros Ha Hd Hb. apply (legacy_entry_fails dictionary b id Hd); [done|].
  by left.
Qed.

Lemma legacy_never_returns_on_entry_witness :
  resolveRelationsForStory_legacy 1000 dictionary_AB heap_AB (VRef 1)
  ≠ Ok heap_AB_tied.
Proof.
  apply (legacy_never_returns_on_entry dictionary_AB heap_AB 1 1 "B" 1000
           heap_AB_tied); reflexivity.
Defined.

Lemma entry_key h story :
  is_entry h story →
  ∃ a id, story = VRef a ∧ own_field h a "uuid" = Some (str id)
          ∧ story_key h story = Ok id.
Proof.
  intros (a & id & -> & Hu). exists a, id. split; [done|]. split; [done|].
  unfold story_key, to_key, get_prop. cbn [nullish]. unfold own_field in Hu.
  destruct (h !! a) as [[|fields]|]; try done. by rewrite Hu.
Qed.

(** X11. So the earlier pipeline cannot succeed: with the dictionary
    built from a non-empty list of entries, [resolveRelations] does not
    return, whatever the entries hold. *)
Theorem legacy_pipeline_never_returns (h : heap) (stories : list val)
    (dictionary : gmap string val) (fuel : nat) (h' : heap) :
  stories ≠ [] →
  Forall (is_entry h) stories →
  createReferencedStoriesDictionary h stories = Ok dictionary →
  resolveRelations_legacy fuel dictionary h stories ≠ Ok h'.
Proof.
  intros Hne Hentries Hdict Hrun.
  destruct stories as [|story stories]; [done|].
  assert (Forall (λ story, ∃ k, story_key h story = Ok k) (story :: stories))
    as Hkeys.
  { eapply Forall_impl; [exact Hentries|]. intros s Hs.
    destruct (entry_key _ _ Hs) as (a & id & _ & _ & Hk). by exists id. }
  destruct (dictionary_fold h _ Hkeys ∅) as (d & Hd & Hlookup).
  unfold createReferencedStoriesDictionary in Hdict.
  rewrite Hd in Hdict. injection Hdict as ->.
  destruct (entry_key h story) as (a & id & -> & Ha & Hk);
    [by inversion Hentries|].
  specialize (Hlookup id).
  destruct (last (bearing h id (VRef a :: stories))) as [sb|] eqn:Hlast.
  - destruct (last_bearing _ _ _ _ Hlast) as [Hin Hkb].
    rewrite Forall_forall in Hentries.
    destruct (entry_key h sb (Hentries _ Hin)) as (b & idb & -> & Hb & Hkb').
    assert (idb = id) as -> by congruence.
    unfold resolveRelations_legacy in Hrun. cbn in Hrun.
    destruct (resolveRelationsForStory_legacy fuel dictionary h (VRef a))
      as [h1| | |] eqn:Hfirst; try done.
    by eapply (legacy_entry_fails dictionary b id Hlookup fuel h a h1 Ha);
      [left|].
  - unfold bearing in Hlast. cbn [List.filter] in Hlast.
    rewrite Hk, String.eqb_refl in Hlast. rewrite last_cons in Hlast.
    by destruct (last _).
Qed.

Lemma legacy_pipeline_never_returns_witness :
  resolveRelations_legacy 1000 dictionary_AB heap_AB stories_AB
  ≠ Ok heap_AB_tied.
Proof.
  apply (legacy_pipeline_never_returns heap_AB stories_AB dictionary_AB 1000
           heap_AB_tied).
  - done.
  - repeat constructor.
    + exists 0, "A". by split.
    + exists 1, "B". by split.
  - vm_compute. reflexivity.
Defined.

(** ** The Dictionary Builder *)

Lemma reduce_stories_app h pre post acc :
  reduce_stories h (pre ++ post) acc
  = (do d <- reduce_stories h pre acc; reduce_stories h post d).
Proof.
  unfold reduce_stories. revert acc.
  induction pre as [|story pre IH]; intros acc; [done|]. cbn.
  destruct (story_key h story) as [k| | |]; try done. cbn. apply IH.
Qed.

(** X12. One [null] or [undefined] among the stories makes the builder
    throw a [TypeError] (reading [uuid] of it), whatever precedes and
    follows it: no dictionary is returned. *)
Theorem dictionary_rejects_null (h : heap) (pre post : list val) (hole : val) :
  nullish hole = true →
  Forall (λ story, ∃ k, story_key h story = Ok k) pre →
  ∃ message,
    createReferencedStoriesDictionary h (pre ++ hole :: post)
    = Throw (TypeError message).
Proof.
  intros Hhole Hpre.
  destruct (dictionary_fold h pre Hpre ∅) as (d & Hd & _).
  eexists. unfold createReferencedStoriesDictionary.
  rewrite reduce_stories_app, Hd. cbn [bind].
  unfold reduce_stories. cbn [foldM]. unfold story_key at 1.
  rewrite Hhole. reflexivity.
Qed.

Lemma dictionary_rejects_null_witness :
  ∃ message,
    createReferencedStoriesDictionary heap_AB [VRef 0; VPrim PNull; VRef 1]
    = Throw (TypeError message).
Proof.
  apply (dictionary_rejects_null heap_AB [VRef 0] [VRef 1] (VPrim PNull)).
  - reflexivity.
  - repeat constructor. by exists "A".
Defined.

Lemma lacks_uuid_key h story :
  lacks_uuid h story → story_key h story = Ok "undefined".
Proof.
  intros (a & fields & -> & Ha & Hnone).
  unfold story_key, to_key, get_prop. cbn [nullish]. by rewrite Ha, Hnone.
Qed.

Lemma reduce_anonymous h : ∀ stories story acc,
  Forall (lacks_uuid h) (story :: stories) →
  reduce_stories h (story :: stories) acc
  = Ok (<["undefined" := default story (last stories)]> acc).
Proof.
  induction stories as [|next stories IH]; intros story acc Hall.
  - unfold reduce_stories. cbn.
    rewrite lacks_uuid_key by (by inversion Hall). reflexivity.
  - inversion Hall as [|? ? Hstory Hrest]; subst.
    rewrite (reduce_stories_app h [story] (next :: stories)).
    unfold reduce_stories at 1. cbn [foldM].
    rewrite (lacks_uuid_key h story Hstory). cbn [bind].
    rewrite (IH next _ Hrest), insert_insert_eq.
    f_equal. f_equal. rewrite last_cons. by destruct (last stories).
Qed.

(** X13. Entries that carry no [uuid] are all stored under the key
    ["undefined"]: of a list of such entries the dictionary keeps the last
    one only. *)
Theorem dictionary_of_entries_without_uuid (h : heap) (story : val)
    (stories : list val) :
  Forall (lacks_uuid h) (story :: stories) →
  createReferencedStoriesDictionary h (story :: stories)
  = Ok {["undefined" := default story (last stories)]}.
Proof.
  intros Hall. unfold createReferencedStoriesDictionary.
  rewrite (reduce_anonymous h stories story ∅ Hall). reflexivity.
Qed.

Lemma dictionary_of_entries_without_uuid_witness :
  createReferencedStoriesDictionary heap_anonymous [VRef 0; VRef 1]
  = Ok {["undefined" := VRef 1]}.
Proof.
  apply (dictionary_of_entries_without_uuid heap_anonymous (VRef 0) [VRef 1]).
  repeat constructor.
  - exists 0, [("name", str "home")]. by repeat split.
  - exists 1, [("name", str "about")]. by repeat split.
Defined.

Lemma reduce_stories_size h : ∀ stories acc d,
  reduce_stories h stories acc = Ok d →
  size d ≤ size acc + length stories
  ∧ ∀ id, is_Some (d !! id)
          ↔ is_Some (acc !! id) ∨ ∃ story, story ∈ stories
                                            ∧ story_key h story = Ok id.
Proof.
  unfold reduce_stories.
  induction stories as [|story stories IH]; intros acc d Hrun.
  - injection Hrun as <-. split; [cbn; lia|]. intros id. split; [by left|].
    intros [?|(s & Hs & _)]; [done|]. by apply elem_of_nil in Hs.
  - cbn in Hrun. destruct (story_key h story) as [k| | |] eqn:Hk; try done.
    cbn in Hrun. destruct (IH _ _ Hrun) as [Hsize Hdom]. split.
    + pose proof (map_size_insert k story acc) as Hins.
      destruct (acc !! k); cbn [length]; cbn in Hins; lia.
    + intros id. rewrite Hdom. rewrite lookup_insert_is_Some. split.
      * intros [[<-|[_ Hacc]]|(s & Hs & Hsk)].
        -- right. exists story. split; [by left|done].
        -- by left.
        -- right. exists s. split; [by right|done].
      * intros [Hacc|(s & Hs & Hsk)].
        -- destruct (decide (k = id)); [left; by left|left; by right].
        -- apply elem_of_cons in Hs as [->|Hs].
           ++ left. left. congruence.
           ++ right. by exists s.
Qed.

(** X14. The dictionary has an identifier exactly when some story of the
    list bears it, and it never has more identifiers than the list has
    stories: duplicates are folded into one. *)
Theorem dictionary_domain (h : heap) (stories : list val)
    (dictionary : gmap string val) :
  createReferencedStoriesDictionary h stories = Ok dictionary →
  size dictionary ≤ length stories
  ∧ ∀ id, is_Some (dictionary !! id)
          ↔ ∃ story, story ∈ stories ∧ story_key h story = Ok id.
Proof.
  intros Hrun. destruct (reduce_stories_size h stories ∅ dictionary Hrun)
    as [Hsize Hdom].
  split; [by rewrite map_size_empty in Hsize|].
  intros id. rewrite Hdom. split; [|by right].
  intros [Hempty|?]; [|done]. rewrite lookup_empty in Hempty.
  by destruct Hempty.
Qed.

Lemma dictionary_domain_witness :
  size dictionary_AB ≤ 2
  ∧ (is_Some (dictionary_AB !! "A")
     ↔ ∃ story, story ∈ stories_AB ∧ story_key heap_AB story = Ok "A").
Proof.
  destruct (dictionary_domain heap_AB stories_AB dictionary_AB) as [Hsize Hdom].
  - vm_compute. reflexivity.
  - split; [exact Hsize|apply Hdom].
Defined.

(** ** The market filter *)

(** X15. The market filter returns markets of the list, in the order of
    the list. Without [MARKET] (or with an empty one) it removes every
    [cn] and nothing else: each other market comes back as often as it
    was given. With [MARKET] set it returns that market alone, once for
    each time the list holds it, so that [cn] is built exactly when it is
    asked for by name, and a [MARKET] that is not in the list leaves
    nothing to build. *)
Theorem market_filter_spec :
  ∀ (MARKET : option string) (marketCodes : list string),
    sublist (getFilteredMarketsForBuild MARKET marketCodes) marketCodes
    ∧ (MARKET = None ∨ MARKET = Some "" →
       ∀ market,
         count_occ string_dec (getFilteredMarketsForBuild MARKET marketCodes)
           market
         = if decide (market = "cn") then 0
           else count_occ string_dec marketCodes market)
    ∧ (∀ wanted,
         MARKET = Some wanted → wanted ≠ "" →
         getFilteredMarketsForBuild MARKET marketCodes
         = replicate (count_occ string_dec marketCodes wanted) wanted).
Proof.
  intros MARKET marketCodes.
  assert (∀ f, sublist (List.filter f marketCodes) marketCodes) as Hsub.
  { intros f. induction marketCodes as [|m ms IH]; cbn; [constructor|].
    destruct (f m); by constructor. }
  split; [|split].
  - unfold getFilteredMarketsForBuild.
    destruct MARKET as [market|]; [destruct (negb _)|]; apply Hsub.
  - intros Hunset market.
    assert (getFilteredMarketsForBuild MARKET marketCodes
            = List.filter (λ mkt, negb (String.eqb mkt "cn")) marketCodes) as ->.
    { by destruct Hunset as [-> | ->]. }
    clear. induction marketCodes as [|m ms IH]; cbn [List.filter count_occ].
    { by destruct (decide (market = "cn")). }
    destruct (String.eqb m "cn") eqn:Hm; cbn [negb].
    + apply String.eqb_eq in Hm as ->. rewrite IH.
      destruct (decide (market = "cn")) as [->|Hne]; [done|].
      by destruct (string_dec "cn" market) as [<-|_].
    + apply String.eqb_neq in Hm. cbn [count_occ]. rewrite IH.
      destruct (string_dec m market) as [<-|_]; [|done].
      by destruct (decide (m = "cn")).
  - intros wanted -> Hwanted. unfold getFilteredMarketsForBuild.
    rewrite (proj2 (String.eqb_neq wanted "") Hwanted). cbn [negb].
    clear. induction marketCodes as [|m ms IH]; [done|].
    cbn [List.filter count_occ]. destruct (string_dec m wanted) as [->|Hne].
    + rewrite String.eqb_refl. cbn [replicate]. by rewrite IH.
    + by rewrite (proj2 (String.eqb_neq m wanted) Hne).
Qed.

(** ** The depth-capped resolver [replaceUUIDs] *)

Lemma replaceUUIDs_within_array dictionary budget items :
  replaceUUIDs_within dictionary (S budget) (TArr items)
  = TArr (map (replaceUUIDs_within dictionary (S budget)) items).
Proof. reflexivity. Qed.

Lemma replaceUUIDs_within_object dictionary budget fields :
  replaceUUIDs_within dictionary (S budget) (TObj fields)
  = if tree_truthy (tree_get (TObj fields) "uuid")
       && tree_truthy (tree_get (TObj fields) "content")
    then
      TObj (map (λ kv, if String.eqb kv.1 "content"
                       then (kv.1, replaceUUIDs_within dictionary (S budget) kv.2)
                       else kv) fields)
    else
      TObj (map (λ kv,
                   if is_reserved kv.1 then kv
                   else
                     match kv.2 with
                     | TPrim (PStr id) =>
                         match referenced dictionary id with
                         | Some story =>
                             (kv.1,
                              with_content story
                                (replaceUUIDs_within dictionary budget
                                   (tree_get story "content")))
                         | None =>
                             (kv.1, replaceUUIDs_within dictionary (S budget) kv.2)
                         end
                     | _ => (kv.1, replaceUUIDs_within dictionary (S budget) kv.2)
                     end) fields).
Proof.
  cbn [replaceUUIDs_within].
  destruct (tree_truthy _ && tree_truthy _); f_equal; apply map_ext;
    intros [key value]; cbn [fst snd].
  - by destruct (String.eqb key "content").
  - destruct (is_reserved key); [done|].
    destruct value as [[| | | |id]| |]; try done;
      by destruct (referenced dictionary id).
Qed.

Lemma map_fixes {A} (f : A → A) (l : list A) :
  Forall (λ x, f x = x) l → map f l = l.
Proof. induction 1 as [|x l Hx _ IH]; cbn; congruence. Qed.

(** X16. Content that mentions no string the dictionary answers, be it
    with an own property or with a member of [Object.prototype] (such as
    ["constructor"]), comes back from [replaceUUIDs] as it was, at every
    depth. *)
Theorem replaceUUIDs_without_references (dictionary : gmap string tree)
    (maxDepth currentDepth : nat) (content : tree) :
  (∀ id, mentions id content = true → referenced dictionary id = None) →
  replaceUUIDs dictionary maxDepth content currentDepth = content.
Proof.
  unfold replaceUUIDs. destruct (maxDepth - currentDepth) as [|budget]; [done|].
  induction content as [p|items IH|fields IH] using tree_induction; intros Hfree.
  - destruct p as [| | | |id]; try done. cbn.
    rewrite (Hfree id); [done|]. cbn. apply String.eqb_refl.
  - rewrite replaceUUIDs_within_array. f_equal. apply map_fixes.
    apply Forall_forall. intros item Hitem.
    apply (proj1 (Forall_forall _ _) IH item Hitem).
    intros id Hid. apply Hfree. cbn. apply existsb_exists.
    exists item. split; [by apply list_elem_of_In|done].
  - assert (∀ kv, kv ∈ fields →
              replaceUUIDs_within dictionary (S budget) kv.2 = kv.2) as Hsame.
    { intros kv Hkv. apply (proj1 (Forall_forall _ _) IH kv Hkv).
      intros id Hid. apply Hfree. cbn. apply existsb_exists.
      exists kv. split; [by apply list_elem_of_In|done]. }
    rewrite replaceUUIDs_within_object.
    destruct (tree_truthy _ && tree_truthy _); f_equal; apply map_fixes;
      apply Forall_forall; intros [key value] Hkv; cbn [fst snd];
      pose proof (Hsame _ Hkv) as Hvalue; cbn [snd] in Hvalue.
    + destruct (String.eqb key "content"); [|done].
      by rewrite Hvalue.
    + destruct (is_reserved key); [done|].
      destruct value as [[| | | |id]| |]; try (by rewrite Hvalue).
      rewrite (Hfree id); [by rewrite Hvalue|].
      cbn. apply existsb_exists. exists (key, TPrim (PStr id)).
      split; [by apply list_elem_of_In|]. cbn. apply String.eqb_refl.
Qed.

Lemma replaceUUIDs_without_references_witness :
  replaceUUIDs tree_dictionary_AB 20
    (TObj [("title", TPrim (PStr "X")); ("tags", TArr [TPrim (PStr "Y")])]) 0
  = TObj [("title", TPrim (PStr "X")); ("tags", TArr [TPrim (PStr "Y")])].
Proof.
  apply (replaceUUIDs_without_references tree_dictionary_AB 20 0).
  intros id Hid. cbn [mentions existsb snd] in Hid.
  rewrite !orb_false_r in Hid.
  apply orb_true_iff in Hid as [Hid|Hid]; apply String.eqb_eq in Hid as <-;
    reflexivity.
Defined.

(** A value that is the name of a member of [Object.prototype] is taken
    for an identifier: the lookup finds the inherited function, and the
    substitution spreads it into an object with an undefined [content]. *)
Example replaceUUIDs_finds_inherited_member :
  replaceUUIDs ∅ 20 (TObj [("title", TPrim (PStr "constructor"))]) 0
  = TObj [("title", TObj [("content", TPrim PUndef)])].
Proof. vm_compute. reflexivity. Qed.

(** X17. [replaceUUIDs] keeps the shape of what it is given: an array
    comes back as an array of the same length, an object as an object
    with the same keys in the same order, and a primitive that is not a
    string as itself. *)
Theorem replaceUUIDs_keeps_shape :
  ∀ (dictionary : gmap string tree) (maxDepth currentDepth : nat),
    (∀ items, ∃ items',
        replaceUUIDs dictionary maxDepth (TArr items) currentDepth = TArr items'
        ∧ length items' = length items)
    ∧ (∀ fields, ∃ fields',
        replaceUUIDs dictionary maxDepth (TObj fields) currentDepth = TObj fields'
        ∧ map fst fields' = map fst fields)
    ∧ (∀ p, is_string (VPrim p) = false →
        replaceUUIDs dictionary maxDepth (TPrim p) currentDepth = TPrim p).
Proof.
  intros dictionary maxDepth currentDepth. unfold replaceUUIDs.
  destruct (maxDepth - currentDepth) as [|budget].
  { split; [|split]; [intros items; by exists items
                     |intros fields; by exists fields|done]. }
  split; [|split].
  - intros items. eexists. rewrite replaceUUIDs_within_array.
    split; [reflexivity|]. by rewrite length_map.
  - intros fields. rewrite replaceUUIDs_within_object.
    destruct (tree_truthy _ && tree_truthy _); eexists;
      (split; [reflexivity|]); rewrite map_map; apply map_ext;
      intros [key value]; cbn [fst snd].
    + by destruct (String.eqb key "content").
    + destruct (is_reserved key); [done|].
      destruct value as [[| | | |id]| |]; try done;
        by destruct (referenced dictionary id).
  - intros p Hp. by destruct p.
Qed.

(** ** The table of declared fields *)

Lemma relationsMap_fold name table : ∀ acc,
  assoc name
    (fold_left (λ acc item,
                  let parts := split_dots item in
                  obj_put (default "" (head parts)) (parts !! 1) acc)
               table acc)
  = match last (declared_for name table) with
    | Some field => Some field
    | None => assoc name acc
    end.
Proof.
  induction table as [|item table IH]; intros acc; [done|].
  cbn [fold_left]. rewrite IH.
  assert (declared_for name (item :: table)
          = if String.eqb (default "" (head (split_dots item))) name
            then (split_dots item !! 1) :: declared_for name table
            else declared_for name table) as ->.
  { unfold declared_for. cbn [omap list_omap].
    by destruct (String.eqb (default "" (head (split_dots item))) name). }
  destruct (String.eqb (default "" (head (split_dots item))) name) eqn:Hname.
  - rewrite last_cons. destruct (last (declared_for name table)); [done|].
    apply String.eqb_eq in Hname as <-. apply assoc_obj_put_eq.
  - destruct (last (declared_for name table)); [done|].
    apply assoc_obj_put_ne. by apply String.eqb_neq.
Qed.

(** X18. For every table, [relationsMap] holds for a component name the
    field of the last item declared for that name, and nothing for a name
    the table does not declare: the fields declared earlier for the same
    name are lost. *)
Theorem relationsMap_last_declaration :
  ∀ (relationsToResolve : list string) (name : string),
    assoc name (relationsMap_of relationsToResolve)
    = last (declared_for name relationsToResolve).
Proof.
  intros table name. unfold relationsMap_of. rewrite relationsMap_fold.
  by destruct (last (declared_for name table)).
Qed.

(** ** Pointers of found components *)

Lemma split_dots_nonempty s : split_dots s ≠ [].
Proof.
  destruct s as [|c s]; [done|]. cbn [split_dots].
  destruct (Ascii.eqb c "."); [done|]. by destruct (split_dots s).
Qed.

Lemma split_dots_no_dot key :
  has_char "." key = false → split_dots key = [key].
Proof.
  unfold has_char. induction key as [|c key IH]; [done|].
  cbn [list_ascii_of_string existsb split_dots].
  intros Hfree. apply orb_false_iff in Hfree as [Hc Hrest].
  rewrite Ascii.eqb_sym, Hc. by rewrite (IH Hrest).
Qed.

Lemma split_dots_app prev key :
  split_dots (prev +:+ "." +:+ key) = split_dots prev ++ split_dots key.
Proof.
  induction prev as [|c prev IH].
  - change ("" +:+ "." +:+ key) with (String "." key).
    cbn [split_dots]. by rewrite Ascii.eqb_refl.
  - change (String c prev +:+ "." +:+ key)
      with (String c (prev +:+ "." +:+ key)).
    cbn [split_dots]. rewrite IH. destruct (Ascii.eqb c "."); [done|].
    pose proof (split_dots_nonempty prev).
    by destruct (split_dots prev).
Qed.

Lemma join_split_dots s : join_dots (split_dots s) = s.
Proof.
  unfold join_dots. induction s as [|c s IH]; [done|].
  cbn [split_dots]. pose proof (split_dots_nonempty s) as Hne.
  destruct (Ascii.eqb c ".") eqn:Hc.
  - apply Ascii.eqb_eq in Hc as ->.
    destruct (split_dots s) as [|seg segs]; [done|].
    cbn [String.concat]. cbn [String.concat] in IH. by rewrite IH.
  - destruct (split_dots s) as [|seg segs]; [done|].
    cbn [String.concat]. cbn [String.concat] in IH.
    destruct segs; cbn; by rewrite <- IH.
Qed.

(** X19. The pointer [findComponents] computes for a flat key
    [prev + '.' + key] is [prev], the path of the object that holds the
    key, as long as the key itself holds no dot. *)
Theorem parent_path_of_flat_key (prev key : string) :
  has_char "." key = false →
  parent_path (prev +:+ "." +:+ key) = prev.
Proof.
  intros Hkey. unfold parent_path.
  rewrite split_dots_app, (split_dots_no_dot key Hkey), removelast_last.
  apply join_split_dots.
Qed.

Lemma parent_path_of_flat_key_witness :
  parent_path ("0.items.1" +:+ "." +:+ "component") = "0.items.1".
Proof.
  apply (parent_path_of_flat_key "0.items.1" "component"). reflexivity.
Defined.

(** X20. The identifier fields [uuid] and [_uid] of an object come back
    from [replaceUUIDs] with the value they had, whether the object is
    taken for a story or not. *)
Theorem replaceUUIDs_copies_identifiers (dictionary : gmap string tree)
    (maxDepth currentDepth : nat) (fields : list (string * tree))
    (key : string) :
  key = "uuid" ∨ key = "_uid" →
  tree_get (replaceUUIDs dictionary maxDepth (TObj fields) currentDepth) key
  = tree_get (TObj fields) key.
Proof.
  intros Hkey. apply replaceUUIDs_keeps_reserved. by destruct Hkey as [-> | ->].
Qed.

Lemma replaceUUIDs_copies_identifiers_witness :
  tree_get (replaceUUIDs tree_dictionary_AB 20
              (TObj [("_uid", TPrim (PStr "A")); ("ref", TPrim (PStr "A"))]) 0)
           "_uid"
  = tree_get (TObj [("_uid", TPrim (PStr "A")); ("ref", TPrim (PStr "A"))])
             "_uid".
Proof.
  apply (replaceUUIDs_copies_identifiers tree_dictionary_AB 20 0
           [("_uid", TPrim (PStr "A")); ("ref", TPrim (PStr "A"))] "_uid").
  by right.
Defined.

(** ** The fixed-point loop of the declared-field resolver *)

Lemma nesting_loop_exit dictionary fuel relationsMap components max :
  ∀ budget counter h h' n exit,
    nesting_loop dictionary budget fuel relationsMap components max counter h
    = Ok (h', n, exit) →
    match exit with
    | NoComponents => False
    | NoChange => counter < n
    | CapReached => max < n
    end.
Proof.
  induction budget as [|budget IH]; intros counter h h' n exit Hrun; [done|].
  rewrite nesting_loop_unfold in Hrun.
  destruct (findComponents _ _ _ _) as [found| | |]; try done.
  cbn [bind] in Hrun.
  destruct (counter <=? max) eqn:Hcap.
  - destruct (foldM _ found (h, false)) as [st| | |]; try done.
    cbn [bind] in Hrun. destruct st.2.
    + apply IH in Hrun. destruct exit; [done|lia|done].
    + injection Hrun as _ <- <-. lia.
  - apply Nat.leb_gt in Hcap. injection Hrun as _ <- <-. lia.
Qed.

(** X21. A run of the declared-field resolver that returns has made at
    most [maxLevelOfNesting + 1] iterations, one more than the name of the
    parameter says. It made none, and left the heap as it was, exactly
    when there was nothing under the path; it made at least one when it
    was left through the flag, and all [maxLevelOfNesting + 1] when it was
    stopped by the cap. *)
Theorem resolveNestedComponents_iterations (dictionary : gmap string val)
    (fuel : nat) (pathToComponents : string) (relationsToResolve : list string)
    (h : heap) (storyData : val) (maxLevelOfNesting : nat)
    (h' : heap) (n : nat) (exit : loop_exit) :
  resolveNestedComponents dictionary fuel pathToComponents relationsToResolve
    h storyData maxLevelOfNesting = Ok (h', n, exit) →
  n ≤ maxLevelOfNesting + 1
  ∧ match exit with
    | NoComponents => n = 0 ∧ h' = h
    | NoChange => 1 ≤ n
    | CapReached => n = maxLevelOfNesting + 1
    end.
Proof.
  unfold resolveNestedComponents. intros Hrun.
  destruct (get h storyData pathToComponents) as [components| | |]; try done.
  cbn [bind] in Hrun. destruct (negb (truthy components)).
  { injection Hrun as <- <- <-. split; [lia|done]. }
  pose proof (nesting_loop_iterations _ _ _ _ _ _ _ _ _ _ _ Hrun) as [_ Hle].
  pose proof (nesting_loop_exit _ _ _ _ _ _ _ _ _ _ _ Hrun) as Hexit.
  split; [lia|]. destruct exit; [done|lia|lia].
Qed.

Lemma resolveNestedComponents_iterations_witness :
  2 ≤ 10 + 1 ∧ 1 ≤ 2.
Proof.
  apply (resolveNestedComponents_iterations dictionary_target 10 "content.body"
           RELATIONS_TO_RESOLVE (heap_label "abc-uuid") (VRef 0) 10
           heap_label_resolved 2 NoChange).
  vm_compute. reflexivity.
Defined.

(** ** Stories without components *)

Lemma assoc_None_no_key {V} (k : string) (fields : list (string * V)) :
  assoc k fields = None → existsb (String.eqb k) (map fst fields) = false.
Proof.
  induction fields as [|[k0 v0] fields IH]; [done|]. cbn [assoc map existsb fst].
  rewrite (String.eqb_sym k k0). destruct (String.eqb k0 k); [done|]. exact IH.
Qed.

Lemma get_content_body h story :
  without_components h story →
  get h story "content.body" = Ok (optional_body h story).
Proof.
  intros (a & fields & -> & Ha & Hliteral & _).
  unfold get.
  change (has_char "[" "content.body" || has_char "]" "content.body")
    with false. cbv iota. f_equal.
  unfold castPath, has_prop, keys_of. rewrite Ha.
  rewrite (assoc_None_no_key _ _ Hliteral).
  change (negb (has_char "." "content.body") || false) with false. cbv iota.
  change (split_dots "content.body") with ["content"; "body"].
  unfold optional_body. cbn [baseGet nullish].
  by destruct (nullish (get_prop h (VRef a) "content")).
Qed.

Lemma resolveNestedComponents_without_components dictionary fuel table h story
    max :
  without_components h story →
  resolveNestedComponents dictionary fuel "content.body" table h story max
  = Ok (h, 0, NoComponents).
Proof.
  intros Hstory. unfold resolveNestedComponents.
  rewrite (get_content_body h story Hstory). cbn [bind].
  destruct Hstory as (a & fields & _ & _ & _ & ->). reflexivity.
Qed.

(** X22. Stories that have nothing under [content.body] (no [content], a
    null [content], a missing, null or empty-string [body]) pass through
    [resolveRelations] of the current revision untouched, whatever the
    dictionary holds: the heap that comes back is the heap that went
    in. *)
Theorem resolveRelations_without_components (fuel : nat)
    (dictionary : gmap string val) (h : heap) (stories : list val) :
  Forall (without_components h) stories →
  resolveRelations fuel dictionary h stories = Ok h.
Proof.
  unfold resolveRelations. induction 1 as [|story stories Hstory _ IH]; [done|].
  cbn [foldM].
  rewrite (resolveNestedComponents_without_components _ _ _ _ _ _ Hstory).
  cbn [bind fst]. exact IH.
Qed.

Lemma resolveRelations_without_components_witness :
  resolveRelations 10 dictionary_AB heap_bare [VRef 0; VRef 2] = Ok heap_bare.
Proof.
  apply (resolveRelations_without_components 10 dictionary_AB heap_bare
           [VRef 0; VRef 2]).
  repeat constructor.
  - exists 0, [("uuid", str "A"); ("content", VRef 1)]. by repeat split.
  - exists 2, [("uuid", str "B")]. by repeat split.
Defined.

(** ** A collection of one page *)



(** ** The writer of the earlier revision *)

Lemma foldM_app {A S} (body : S → A → result S) (xs ys : list A) (s : S) :
  foldM body (xs ++ ys) s = (do s' <- foldM body xs s; foldM body ys s').
Proof.
  revert s. induction xs as [|x xs IH]; intros s; [done|]. cbn.
  destruct (body s x) as [s1| | |]; try done. cbn. apply IH.
Qed.

Lemma foldM_ends {A S} (I : S → Prop) (body : S → A → result S) :
  (∀ s x, I s → ends (body s x)) →
  (∀ s x s', I s → body s x = Ok s' → I s') →
  ∀ xs s, I s → ends (foldM body xs s).
Proof.
  intros Hends Hkeep. induction xs as [|x xs IH]; intros s Hs; [done|].
  cbn. pose proof (Hends s x Hs) as Hx.
  destruct (body s x) as [s1| | |] eqn:Hbody; try done. cbn.
  apply IH. by apply (Hkeep s x).
Qed.

Lemma member_app a cache cache' :
  member a (cache ++ cache') = member a cache || member a cache'.
Proof. apply existsb_app. Qed.

Lemma member_self a cache : member a (cache ++ [a]) = true.
Proof.
  rewrite member_app. cbn. rewrite Nat.eqb_refl. by destruct (member a cache).
Qed.

(** The cache only grows, and holds the object it was called on. *)
Lemma serialize_cache h : ∀ fuel value cache r,
  serialize fuel h value cache = Ok r →
  (∀ x, member x cache = true → member x r.2 = true)
  ∧ (∀ a, value = VRef a → member a r.2 = true).
Proof.
  induction fuel as [|fuel IH]; intros value cache r Hrun; [done|].
  cbn [serialize] in Hrun. destruct value as [p|a].
  { assert (r.2 = cache) as -> by (destruct p; by injection Hrun as <-).
    split; [done|intros ? [=]]. }
  destruct (member a cache) eqn:Hmember.
  { injection Hrun as <-. split; [done|]. by intros ? [= <-]. }
  assert (∀ x, member x cache = true → member x (cache ++ [a]) = true) as Hin.
  { intros x Hx. by rewrite member_app, Hx. }
  destruct (h !! a) as [[items|fields]|]; try done.
  - destruct (foldM _ items _) as [st| | |] eqn:Hfold; try done.
    injection Hrun as <-. cbn [snd].
    assert (∀ x, member x (cache ++ [a]) = true → member x st.2 = true)
      as Hgrow.
    { refine (foldM_invariant
                (λ s s' : list tree * list addr,
                   ∀ x, member x s.2 = true → member x s'.2 = true)
                _ _ _ _ _ _ _ Hfold).
      - done.
      - intros s1 s2 s3 H12 H23 x Hx. by apply H23, H12.
      - intros s item s' Hstep x Hx. unfold array_step in Hstep.
        destruct (serialize fuel h item s.2) as [r| | |] eqn:Hitem; try done.
        injection Hstep as <-. cbn [snd].
        by apply (proj1 (IH _ _ _ Hitem)). }
    split; [intros x Hx; by apply Hgrow, Hin|].
    intros ? [= <-]. apply Hgrow, member_self.
  - destruct (foldM _ fields _) as [st| | |] eqn:Hfold; try done.
    injection Hrun as <-. cbn [snd].
    assert (∀ x, member x (cache ++ [a]) = true → member x st.2 = true)
      as Hgrow.
    { refine (foldM_invariant
                (λ s s' : list (string * tree) * list addr,
                   ∀ x, member x s.2 = true → member x s'.2 = true)
                _ _ _ _ _ _ _ Hfold).
      - done.
      - intros s1 s2 s3 H12 H23 x Hx. by apply H23, H12.
      - intros s kv s' Hstep x Hx. unfold object_step in Hstep.
        destruct (serialize fuel h kv.2 s.2) as [r| | |] eqn:Hitem; try done.
        injection Hstep as <-. cbn [snd].
        by apply (proj1 (IH _ _ _ Hitem)). }
    split; [intros x Hx; by apply Hgrow, Hin|].
    intros ? [= <-]. apply Hgrow, member_self.
Qed.

Lemma filter_length_le {A} (f g : A → bool) (l : list A) :
  (∀ x, g x = true → f x = true) →
  length (List.filter g l) ≤ length (List.filter f l).
Proof.
  intros Hfg. induction l as [|x l IH]; [done|]. cbn.
  destruct (g x) eqn:Hg; [rewrite (Hfg x Hg)|destruct (f x)]; cbn; lia.
Qed.

Lemma filter_length_lt {A} (f g : A → bool) (l : list A) (a : A) :
  (∀ x, g x = true → f x = true) →
  In a l → f a = true → g a = false →
  length (List.filter g l) < length (List.filter f l).
Proof.
  intros Hfg Hin Hfa Hga. induction l as [|x l IH]; [done|]. cbn.
  pose proof (filter_length_le f g l Hfg) as Hle.
  destruct Hin as [->|Hin].
  - rewrite Hfa, Hga. cbn. lia.
  - specialize (IH Hin).
    destruct (g x) eqn:Hg; [rewrite (Hfg x Hg)|destruct (f x)]; cbn; lia.
Qed.

Lemma unvisited_mono h cache cache' :
  (∀ x, member x cache = true → member x cache' = true) →
  unvisited h cache' ≤ unvisited h cache.
Proof.
  intros Hsub. apply filter_length_le. intros x Hx.
  apply negb_true_iff. apply negb_true_iff in Hx.
  destruct (member x cache) eqn:Hm; [|done]. by rewrite (Hsub x Hm) in Hx.
Qed.

Lemma unvisited_enter h cache a o :
  h !! a = Some o → member a cache = false →
  unvisited h (cache ++ [a]) < unvisited h cache.
Proof.
  intros Ha Hfresh. apply (filter_length_lt _ _ _ a).
  - intros x Hx. apply negb_true_iff. apply negb_true_iff in Hx.
    rewrite member_app in Hx. by apply orb_false_iff in Hx as [-> _].
  - apply in_seq. apply lookup_lt_Some in Ha. lia.
  - by rewrite Hfresh.
  - by rewrite member_self.
Qed.

Lemma serialize_ends h : ∀ fuel value cache,
  unvisited h cache < fuel → ends (serialize fuel h value cache).
Proof.
  induction fuel as [|fuel IH]; intros value cache Hfuel; [lia|].
  cbn [serialize]. destruct value as [p|a]; [by destruct p|].
  destruct (member a cache) eqn:Hmember; [done|].
  destruct (h !! a) as [o|] eqn:Ha; [|done].
  pose proof (unvisited_enter h cache a o Ha Hmember) as Henter.
  destruct o as [items|fields].
  - assert (ends (foldM (array_step (serialize fuel h)) items
                    ([], cache ++ [a]))) as Hfold.
    { apply (foldM_ends (λ s : list tree * list addr, unvisited h s.2 < fuel)).
      - intros s item Hs. unfold array_step.
        pose proof (IH item s.2 Hs) as Hitem.
        by destruct (serialize fuel h item s.2).
      - intros s item s' Hs Hstep. unfold array_step in Hstep.
        destruct (serialize fuel h item s.2) as [r| | |] eqn:Hitem; try done.
        injection Hstep as <-. cbn [snd].
        pose proof (unvisited_mono h s.2 r.2
                      (proj1 (serialize_cache h _ _ _ _ Hitem))). lia.
      - cbn [snd]. lia. }
    by destruct (foldM _ items _).
  - assert (ends (foldM (object_step (serialize fuel h)) fields
                    ([], cache ++ [a]))) as Hfold.
    { apply (foldM_ends (λ s : list (string * tree) * list addr,
                           unvisited h s.2 < fuel)).
      - intros s kv Hs. unfold object_step.
        pose proof (IH kv.2 s.2 Hs) as Hitem.
        by destruct (serialize fuel h kv.2 s.2).
      - intros s kv s' Hs Hstep. unfold object_step in Hstep.
        destruct (serialize fuel h kv.2 s.2) as [r| | |] eqn:Hitem; try done.
        injection Hstep as <-. cbn [snd].
        pose proof (unvisited_mono h s.2 r.2
                      (proj1 (serialize_cache h _ _ _ _ Hitem))). lia.
      - cbn [snd]. lia. }
    by destruct (foldM _ fields _).
Qed.

(** X24. [stringify] ends on every heap, cyclic or not: it neither runs
    for ever nor throws. (It returns the value to print, unless the heap
    holds an address of no object, which no heap of the program does.) *)
Theorem stringify_ends :
  ∀ (h : heap) (obj : val),
    stringify h obj ≠ Diverge ∧ ∀ e, stringify h obj ≠ Throw e.
Proof.
  intros h obj. unfold stringify.
  assert (unvisited h [] < S (length h)) as Hfuel.
  { unfold unvisited. pose proof (filter_length_le (λ _, true)
      (λ a, negb (member a [])) (seq 0 (length h)) ltac:(done)) as Hle.
    assert (List.filter (λ _ : nat, true) (seq 0 (length h))
            = seq 0 (length h)) as Hall.
    { generalize (seq 0 (length h)). induction l; cbn; congruence. }
    rewrite Hall, length_seq in Hle. lia. }
  pose proof (serialize_ends h _ obj [] Hfuel) as Hends.
  destruct (serialize (S (length h)) h obj []); done.
Qed.

Lemma assoc_snoc_ne {V} (k k0 : string) (v : V) fields :
  k ≠ k0 → assoc k (fields ++ [(k0, v)]) = assoc k fields.
Proof.
  intros Hne. induction fields as [|[k1 v1] fields IH]; cbn.
  - by rewrite (proj2 (String.eqb_neq k0 k)).
  - by rewrite IH.
Qed.

Lemma object_fold h fuel : ∀ fields st st',
  foldM (object_step (serialize fuel h)) fields st = Ok st' →
  (∀ x, member x st.2 = true → member x st'.2 = true)
  ∧ (∀ k, k ∉ map fst fields → assoc k st'.1 = assoc k st.1)
  ∧ (∀ k a, (k, VRef a) ∈ fields → member a st'.2 = true).
Proof.
  induction fields as [|[k0 v0] fields IH]; intros st st' Hrun.
  { injection Hrun as <-. split; [done|]. split; [done|].
    intros k a Hin. by apply elem_of_nil in Hin. }
  cbn [foldM] in Hrun. unfold object_step at 1 in Hrun. cbn [fst snd] in Hrun.
  destruct (serialize fuel h v0 st.2) as [r| | |] eqn:Hvalue; try done.
  cbn [bind] in Hrun.
  destruct (serialize_cache h _ _ _ _ Hvalue) as [Hgrow Hvisit].
  destruct (IH _ _ Hrun) as (Hgrow' & Hkeys & Hvisit'). cbn [fst snd] in *.
  split; [|split].
  - intros x Hx. by apply Hgrow', Hgrow.
  - intros k Hk. cbn [map fst] in Hk. apply not_elem_of_cons in Hk as [Hne Hk].
    rewrite (Hkeys k Hk). destruct r.1; [|done]. by apply assoc_snoc_ne.
  - intros k a Hin. apply elem_of_cons in Hin as [[= -> <-]|Hin].
    + by apply Hgrow', Hvisit.
    + by apply (Hvisit' k).
Qed.

Lemma array_fold h fuel : ∀ items st st',
  foldM (array_step (serialize fuel h)) items st = Ok st' →
  (∀ x, member x st.2 = true → member x st'.2 = true)
  ∧ length st'.1 = length st.1 + length items
  ∧ (∀ i json, st.1 !! i = Some json → st'.1 !! i = Some json)
  ∧ (∀ a, VRef a ∈ items → member a st'.2 = true).
Proof.
  induction items as [|item items IH]; intros st st' Hrun.
  { injection Hrun as <-. split; [done|]. split; [cbn; lia|]. split; [done|].
    intros a Hin. by apply elem_of_nil in Hin. }
  cbn [foldM] in Hrun. unfold array_step at 1 in Hrun.
  destruct (serialize fuel h item st.2) as [r| | |] eqn:Hvalue; try done.
  cbn [bind] in Hrun.
  destruct (serialize_cache h _ _ _ _ Hvalue) as [Hgrow Hvisit].
  destruct (IH _ _ Hrun) as (Hgrow' & Hlength & Hprefix & Hvisit').
  cbn [fst snd] in *. split; [|split; [|split]].
  - intros x Hx. by apply Hgrow', Hgrow.
  - rewrite Hlength, length_app. cbn. lia.
  - intros i json Hi. apply Hprefix. by apply lookup_app_l_Some.
  - intros a Hin. apply elem_of_cons in Hin as [<-|Hin].
    + by apply Hgrow', Hvisit.
    + by apply Hvisit'.
Qed.

Lemma serialize_cached h fuel o cache :
  member o cache = true →
  serialize fuel h (VRef o) cache = Ok (None, cache)
  ∨ serialize fuel h (VRef o) cache = Diverge.
Proof.
  intros Hmember. destruct fuel as [|fuel]; [by right|].
  left. cbn [serialize]. by rewrite Hmember.
Qed.

(** X25. Wherever [stringify] prints an object that holds the same object
    under two keys, the second key is missing from what is printed: the
    replacer takes a shared object for a circular one. *)
Theorem stringify_drops_shared_field (h : heap) (fuel : nat) (a : addr)
    (fields : list (string * val)) (i j : nat) (k1 k2 : string) (o : addr)
    (cache cache' : list addr) (json : tree) :
  h !! a = Some (HObj fields) →
  NoDup (map fst fields) →
  fields !! i = Some (k1, VRef o) →
  fields !! j = Some (k2, VRef o) →
  i < j →
  serialize fuel h (VRef a) cache = Ok (Some json, cache') →
  ∃ printed, json = TObj printed ∧ assoc k2 printed = None.
Proof.
  intros Ha Hkeys Hi Hj Hij Hrun.
  destruct fuel as [|fuel]; [done|]. cbn [serialize] in Hrun.
  destruct (member a cache); [done|]. rewrite Ha in Hrun.
  destruct (foldM _ fields _) as [st| | |] eqn:Hfold; try done.
  injection Hrun as <- _. exists st.1. split; [done|].
  rewrite <- (take_drop_middle fields j _ Hj) in Hfold, Hkeys.
  rewrite foldM_app in Hfold.
  destruct (foldM _ (take j fields) _) as [st1| | |] eqn:Hbefore; try done.
  cbn [bind foldM] in Hfold. unfold object_step at 1 in Hfold.
  cbn [fst snd] in Hfold.
  destruct (object_fold _ _ _ _ _ Hbefore) as (_ & Hkeys1 & Hvisit1).
  destruct (serialize_cached h fuel o st1.2) as [Hnone|Hnone];
    [|rewrite Hnone in Hfold..]; [|cbn [bind fst snd] in Hfold|done].
  { apply (Hvisit1 k1 o). apply list_elem_of_lookup. exists i.
    by rewrite lookup_take_lt. }
  destruct (object_fold _ _ _ _ _ Hfold) as (_ & Hkeys2 & _).
  rewrite map_app in Hkeys. cbn [map fst] in Hkeys.
  apply NoDup_app in Hkeys as (_ & Hbefore_after & Hafter).
  apply NoDup_cons in Hafter as [Hafter _].
  rewrite (Hkeys2 k2 Hafter). cbn [fst]. rewrite Hkeys1; [done|].
  intros Hin. apply (Hbefore_after k2 Hin). by left.
Qed.

Lemma stringify_drops_shared_field_witness :
  ∃ printed,
    TObj [("first", TObj [("name", TPrim (PStr "shared"))]);
          ("list", TArr [TObj [("name", TPrim (PStr "twice"))]; TPrim PNull])]
    = TObj printed
    ∧ assoc "second" printed = None.
Proof.
  apply (stringify_drops_shared_field heap_shared 5 0
           [("first", VRef 1); ("second", VRef 1); ("list", VRef 2)]
           0 1 "first" "second" 1 [] [0; 1; 2; 3]).
  - reflexivity.
  - apply (bool_decide_unpack _). vm_compute. reflexivity.
  - reflexivity.
  - reflexivity.
  - lia.
  - vm_compute. reflexivity.
Defined.

(** X26. Wherever [stringify] prints an array that holds the same object
    twice, the second occurrence is printed as [null]; the array keeps
    its length. *)
Theorem stringify_nulls_shared_element (h : heap) (fuel : nat) (a : addr)
    (items : list val) (i j : nat) (o : addr) (cache cache' : list addr)
    (json : tree) :
  h !! a = Some (HArr items) →
  items !! i = Some (VRef o) →
  items !! j = Some (VRef o) →
  i < j →
  serialize fuel h (VRef a) cache = Ok (Some json, cache') →
  ∃ printed, json = TArr printed
             ∧ length printed = length items
             ∧ printed !! j = Some (TPrim PNull).
Proof.
  intros Ha Hi Hj Hij Hrun.
  destruct fuel as [|fuel]; [done|]. cbn [serialize] in Hrun.
  destruct (member a cache); [done|]. rewrite Ha in Hrun.
  destruct (foldM _ items _) as [st| | |] eqn:Hfold; try done.
  injection Hrun as <- _. exists st.1. split; [done|].
  pose proof (array_fold _ _ _ _ _ Hfold) as (_ & Hlength & _ & _).
  split; [exact Hlength|].
  rewrite <- (take_drop_middle items j _ Hj) in Hfold.
  rewrite foldM_app in Hfold.
  destruct (foldM _ (take j items) _) as [st1| | |] eqn:Hbefore; try done.
  cbn [bind foldM] in Hfold. unfold array_step at 1 in Hfold.
  destruct (array_fold _ _ _ _ _ Hbefore) as (_ & Hlength1 & _ & Hvisit1).
  destruct (serialize_cached h fuel o st1.2) as [Hnone|Hnone];
    [|rewrite Hnone in Hfold..]; [|cbn [bind fst snd] in Hfold|done].
  { apply (Hvisit1 o). apply list_elem_of_lookup. exists i.
    by rewrite lookup_take_lt. }
  destruct (array_fold _ _ _ _ _ Hfold) as (_ & _ & Hprefix & _).
  apply Hprefix. cbn [fst snd default].
  assert (length st1.1 = j) as Hj1.
  { rewrite Hlength1, length_take. cbn [fst length].
    apply lookup_lt_Some in Hj. lia. }
  rewrite lookup_app_r by lia. by rewrite Hj1, Nat.sub_diag.
Qed.

Lemma stringify_nulls_shared_element_witness :
  ∃ printed,
    TArr [TObj [("name", TPrim (PStr "twice"))]; TPrim PNull] = TArr printed
    ∧ length printed = 2
    ∧ printed !! 1 = Some (TPrim PNull).
Proof.
  apply (stringify_nulls_shared_element heap_shared 4 2 [VRef 3; VRef 3] 0 1 3
           [0; 1] [0; 1; 2; 3]).
  - reflexivity.
  - reflexivity.
  - reflexivity.
  - lia.
  - vm_compute. reflexivity.
Defined.

(** ** The depth-capped pipeline *)

Lemma set_content_frame story c :
  ∀ key, key ≠ "content" →
         tree_get (set_content story c) key = tree_get story key.
Proof.
  intros key Hkey. destruct story as [p|items|fields]; try done.
  cbn [set_content tree_get]. f_equal. by apply assoc_obj_put_ne.
Qed.

Lemma resolve_story_frame places maxDepth original stories i :
  length stories = length original →
  (∀ j story, original !! j = Some story →
     ∃ story', stories !! j = Some story' ∧ same_but_content story story') →
  length (resolve_story places maxDepth stories i) = length original
  ∧ ∀ j story, original !! j = Some story →
      ∃ story', resolve_story places maxDepth stories i !! j = Some story'
                ∧ same_but_content story story'.
Proof.
  intros Hlength Hframe. unfold resolve_story.
  destruct (stories !! i) as [current|] eqn:Hi; [|done].
  destruct (tree_truthy current && tree_truthy (tree_get current "content"))
    eqn:Hguard; [|done].
  split; [by rewrite length_insert|].
  intros j story Hj. destruct (Hframe j story Hj) as (story' & Hj' & Hsame).
  destruct (decide (j = i)) as [->|Hne].
  - rewrite Hi in Hj'. injection Hj' as ->.
    eexists. split.
    { apply list_lookup_insert_eq. by apply lookup_lt_Some in Hi. }
    destruct Hsame as [Hkeys Hcontent]. split.
    + intros key Hkey. rewrite set_content_frame by done. by apply Hkeys.
    + intros Hfalsy. rewrite (Hcontent Hfalsy) in Hguard.
      rewrite Hfalsy in Hguard. by rewrite andb_false_r in Hguard.
  - exists story'. split; [|done]. by rewrite list_lookup_insert_ne.
Qed.

(** X27. [resolveRelationsPS] returns as many stories as it was given,
    each at its place and with every field other than [content] as it
    was; a story whose [content] is missing or falsy comes back
    untouched. *)
Theorem resolveRelationsPS_changes_content_only (stories : list tree)
    (maxDepth : nat) (resolved : list tree) :
  resolveRelationsPS stories maxDepth = Ok resolved →
  length resolved = length stories
  ∧ ∀ i story, stories !! i = Some story →
      ∃ story', resolved !! i = Some story' ∧ same_but_content story story'.
Proof.
  unfold resolveRelationsPS. intros Hrun.
  destruct (story_places stories) as [places| | |]; try done.
  injection Hrun as <-.
  assert (∀ indices current,
            length current = length stories →
            (∀ j story, stories !! j = Some story →
               ∃ story', current !! j = Some story'
                         ∧ same_but_content story story') →
            length (fold_left (resolve_story places maxDepth) indices current)
            = length stories
            ∧ ∀ j story, stories !! j = Some story →
                ∃ story',
                  fold_left (resolve_story places maxDepth) indices current !! j
                  = Some story'
                  ∧ same_but_content story story') as Hfold.
  { induction indices as [|i indices IH]; intros current Hlength Hframe;
      [done|].
    cbn [fold_left].
    destruct (resolve_story_frame places maxDepth stories current i
                Hlength Hframe) as [Hlength' Hframe'].
    by apply IH. }
  apply Hfold; [done|]. intros j story Hj. exists story. by repeat split.
Qed.

Lemma resolveRelationsPS_changes_content_only_witness :
  length [ TObj [("uuid", TPrim (PStr "A"));
                 ("content",
                  TObj [("ref", TObj [("uuid", TPrim (PStr "B"));
                                      ("content", TPrim PNull)])])];
           TObj [("uuid", TPrim (PStr "B")); ("content", TPrim PNull)] ] = 2
  ∧ ∀ i story,
      [tree_A; TObj [("uuid", TPrim (PStr "B")); ("content", TPrim PNull)]] !! i
      = Some story →
      ∃ story',
        [ TObj [("uuid", TPrim (PStr "A"));
                ("content",
                 TObj [("ref", TObj [("uuid", TPrim (PStr "B"));
                                     ("content", TPrim PNull)])])];
          TObj [("uuid", TPrim (PStr "B")); ("content", TPrim PNull)] ] !! i
        = Some story'
        ∧ same_but_content story story'.
Proof.
  apply (resolveRelationsPS_changes_content_only
           [tree_A; TObj [("uuid", TPrim (PStr "B")); ("content", TPrim PNull)]]
           20).
  vm_compute. reflexivity.
Defined.
